(** * Cart-pendulum: Lagrangian and Hamiltonian dynamics, linearisation, feedback

    A shallow embedding of the three notebooks of the repository: the
    cart pendulum derived by Lagrangian mechanics with LQR control, the
    same derived by Hamiltonian mechanics, and the Lagrangian derivation
    once more with the angle measured from the other axis and without
    control.

    The notebooks are symbolic programs: they build the Lagrangian as a
    sympy expression, differentiate it, solve the Euler-Lagrange equations
    for the accelerations, turn the result into numeric functions with
    [lambdify], and differentiate once more to linearise.  The embedding
    follows them line by line: expressions are a datatype; [sp.diff],
    [subs], [simplify], [solve] and [lambdify] are functions on it; a
    numeric value is the value of an expression in a scalar domain.

    Two scalar domains are used.  [R] stands for the numbers of the
    program with the rounding of the arithmetic left out.  [option R]
    adds a non-finite value, produced by a division by zero and
    propagated by every operation; overflow is not modelled.

    The number pi occurs twice, and differently.  [sp.pi] is the exact
    constant of sympy, which evaluates [sin(pi)] to 0; [np.pi] is a
    double, a rational number a little below pi, and the states that the
    notebooks write with it ([xsp], [x0]) hold that rational.

    What the notebooks take from libraries is modelled apart: the time
    grid of [np.arange] over the rationals, the integrator [odeint] as
    classical Runge-Kutta, one step per grid interval, and the LQR routine
    by the contract of its result, the Riccati equation.  The gain is an
    argument of the feedback law. *)

From Stdlib Require Import Reals ZArith QArith Qreals Qround List Bool Lra Lia Psatz RNsatz Machin.
Import ListNotations.

(** ** Scalars *)

Class Scalar (T : Type) := {
  s_of_Z : Z -> T;
  s_pi   : T;
  s_add  : T -> T -> T;
  s_sub  : T -> T -> T;
  s_mul  : T -> T -> T;
  s_div  : T -> T -> T;
  s_neg  : T -> T;
  s_sin  : T -> T;
  s_cos  : T -> T
}.

(** Python's [x ** n] for a literal natural exponent. *)
Fixpoint s_pow {T} `{Scalar T} (x : T) (n : nat) : T :=
  match n with
  | O => s_of_Z 1
  | S k => s_mul x (s_pow x k)
  end.

(** A decimal literal such as [0.001], read as the quotient it denotes. *)
Definition s_of_Q {T} `{Scalar T} (q : Q) : T :=
  s_div (s_of_Z (Qnum q)) (s_of_Z (Zpos (Qden q))).

#[export] Instance Scalar_R : Scalar R := {|
  s_of_Z := IZR;
  s_pi   := PI;
  s_add  := Rplus;
  s_sub  := Rminus;
  s_mul  := Rmult;
  s_div  := Rdiv;
  s_neg  := Ropp;
  s_sin  := sin;
  s_cos  := cos
|}.

(** Extended scalars: [None] is a non-finite value (inf or nan). *)
Definition XR := option R.

Definition xlift1 (f : R -> R) (x : XR) : XR :=
  match x with Some a => Some (f a) | None => None end.

Definition xlift2 (f : R -> R -> R) (x y : XR) : XR :=
  match x, y with Some a, Some b => Some (f a b) | _, _ => None end.

Definition xdiv (x y : XR) : XR :=
  match x, y with
  | Some a, Some b => if Req_dec_T b 0 then None else Some (a / b)%R
  | _, _ => None
  end.

#[export] Instance Scalar_XR : Scalar XR := {|
  s_of_Z z := Some (IZR z);
  s_pi   := Some PI;
  s_add  := xlift2 Rplus;
  s_sub  := xlift2 Rminus;
  s_mul  := xlift2 Rmult;
  s_div  := xdiv;
  s_neg  := xlift1 Ropp;
  s_sin  := xlift1 sin;
  s_cos  := xlift1 cos
|}.

(** ** Symbolic expressions (the part of sympy the notebooks use) *)

Module Sympy.

Inductive symbol :=
  | sym_t | sym_u | sym_m1 | sym_m2 | sym_l | sym_g
  | sym_y1 | sym_y2 | sym_y1d | sym_y2d.

Inductive func := fn_x1 | fn_x2 | fn_p1 | fn_p2.

(** An atom is what [sp.diff] can differentiate by and what [subs] can
    replace: a symbol, or [Derivative(f(t), (t, n))] for an undefined
    function [f]; [n = 0] is [f(t)] itself. *)
Inductive atom :=
  | Sym (s : symbol)
  | Fn (f : func) (n : nat).

Inductive expr :=
  | Int (z : Z)
  | Pi
  | At (a : atom)
  | Add (a b : expr)
  | Sub (a b : expr)
  | Mul (a b : expr)
  | Div (a b : expr)
  | Neg (a : expr)
  | Pow (a : expr) (n : nat)
  | Sin (a : expr)
  | Cos (a : expr).

Definition symbol_eqb (a b : symbol) : bool :=
  match a, b with
  | sym_t, sym_t | sym_u, sym_u | sym_m1, sym_m1 | sym_m2, sym_m2
  | sym_l, sym_l | sym_g, sym_g | sym_y1, sym_y1 | sym_y2, sym_y2
  | sym_y1d, sym_y1d | sym_y2d, sym_y2d => true
  | _, _ => false
  end.

Definition func_eqb (a b : func) : bool :=
  match a, b with
  | fn_x1, fn_x1 | fn_x2, fn_x2 | fn_p1, fn_p1 | fn_p2, fn_p2 => true
  | _, _ => false
  end.

Definition atom_eqb (a b : atom) : bool :=
  match a, b with
  | Sym s, Sym s' => symbol_eqb s s'
  | Fn f n, Fn f' n' => func_eqb f f' && Nat.eqb n n'
  | _, _ => false
  end.

(** [d(b)/d(a)] for atoms: an undefined function of [t] differentiated by
    [t] is its next derivative; atoms are otherwise independent. *)
Definition diff_atom (b a : atom) : expr :=
  if atom_eqb a b then Int 1
  else match a, b with
       | Sym sym_t, Fn f n => At (Fn f (S n))
       | _, _ => Int 0
       end.

Fixpoint diff_by (e : expr) (a : atom) : expr :=
  match e with
  | Int _ => Int 0
  | Pi => Int 0
  | At b => diff_atom b a
  | Add p q => Add (diff_by p a) (diff_by q a)
  | Sub p q => Sub (diff_by p a) (diff_by q a)
  | Mul p q => Add (Mul (diff_by p a) q) (Mul p (diff_by q a))
  | Div p q =>
      match q with
      | Int _ => Div (diff_by p a) q
      | _ => Div (Sub (Mul (diff_by p a) q) (Mul p (diff_by q a))) (Pow q 2)
      end
  | Neg p => Neg (diff_by p a)
  | Pow p n =>
      match n with
      | O => Int 0
      | S k => Mul (Mul (Int (Z.of_nat n)) (Pow p k)) (diff_by p a)
      end
  | Sin p => Mul (Cos p) (diff_by p a)
  | Cos p => Neg (Mul (Sin p) (diff_by p a))
  end.

(** [sp.diff(f, x)].  sympy rejects a variable that is not an atom; every
    call in the notebooks passes one. *)
Definition diff (f x : expr) : expr :=
  match x with
  | At a => diff_by f a
  | _ => Int 0
  end.

(** [e.subs(d)] for a dictionary [d].  The keys the notebooks use are
    atoms; a key of another shape matches nothing here. *)
Definition subst := list (expr * expr).

Fixpoint lookup (s : subst) (a : atom) : option expr :=
  match s with
  | [] => None
  | (At b, e) :: r => if atom_eqb a b then Some e else lookup r a
  | _ :: r => lookup r a
  end.

Fixpoint subs (e : expr) (s : subst) : expr :=
  match e with
  | Int z => Int z
  | Pi => Pi
  | At a => match lookup s a with Some r => r | None => At a end
  | Add p q => Add (subs p s) (subs q s)
  | Sub p q => Sub (subs p s) (subs q s)
  | Mul p q => Mul (subs p s) (subs q s)
  | Div p q => Div (subs p s) (subs q s)
  | Neg p => Neg (subs p s)
  | Pow p n => Pow (subs p s) n
  | Sin p => Sin (subs p s)
  | Cos p => Cos (subs p s)
  end.

(** Does atom [a] occur in [e]? *)
Fixpoint occurs (a : atom) (e : expr) : bool :=
  match e with
  | Int _ | Pi => false
  | At b => atom_eqb a b
  | Add p q | Sub p q | Mul p q | Div p q => occurs a p || occurs a q
  | Neg p | Pow p _ | Sin p | Cos p => occurs a p
  end.

(** [e.simplify()].  sympy returns some expression equal to [e] as a
    function; which one is its own business.  The embedding folds the
    constants that differentiation leaves behind ([0 * e], [e + 0],
    [1 * e], ...), which keeps every later expression free of atoms that
    only occur multiplied by zero. *)
Definition is_int (e : expr) (z : Z) : bool :=
  match e with Int k => Z.eqb k z | _ => false end.

Definition mk_add (p q : expr) : expr :=
  if is_int p 0 then q else if is_int q 0 then p else Add p q.

Definition mk_sub (p q : expr) : expr :=
  if is_int q 0 then p else if is_int p 0 then Neg q else Sub p q.

Definition mk_mul (p q : expr) : expr :=
  if is_int p 0 || is_int q 0 then Int 0
  else if is_int p 1 then q else if is_int q 1 then p else Mul p q.

Definition mk_div (p q : expr) : expr :=
  if is_int p 0 then Int 0 else if is_int q 1 then p else Div p q.

Definition mk_neg (p : expr) : expr :=
  match p with
  | Int z => Int (- z)
  | Neg q => q
  | _ => Neg p
  end.

Definition mk_pow (p : expr) (n : nat) : expr :=
  match n with
  | O => Int 1
  | S O => p
  | _ => Pow p n
  end.

Fixpoint simplify (e : expr) : expr :=
  match e with
  | Int z => Int z
  | Pi => Pi
  | At a => At a
  | Add p q => mk_add (simplify p) (simplify q)
  | Sub p q => mk_sub (simplify p) (simplify q)
  | Mul p q => mk_mul (simplify p) (simplify q)
  | Div p q => mk_div (simplify p) (simplify q)
  | Neg p => mk_neg (simplify p)
  | Pow p n => mk_pow (simplify p) n
  | Sin p => Sin (simplify p)
  | Cos p => Cos (simplify p)
  end.

(** Python's builtin [sum] over a list of expressions: starts from 0. *)
Definition sum (l : list expr) : expr := fold_left Add l (Int 0).

(** *** Denotation *)

Section Eval.
Context {T : Type} `{Scalar T}.

Definition env := atom -> T.

Fixpoint eval (rho : env) (e : expr) : T :=
  match e with
  | Int z => s_of_Z z
  | Pi => s_pi
  | At a => rho a
  | Add p q => s_add (eval rho p) (eval rho q)
  | Sub p q => s_sub (eval rho p) (eval rho q)
  | Mul p q => s_mul (eval rho p) (eval rho q)
  | Div p q => s_div (eval rho p) (eval rho q)
  | Neg p => s_neg (eval rho p)
  | Pow p n => s_pow (eval rho p) n
  | Sin p => s_sin (eval rho p)
  | Cos p => s_cos (eval rho p)
  end.

(** Binding the formal arguments of [lambdify] to actual values.  An
    atom that is not an argument has no value in Python (a NameError when
    the function runs); here it reads as 0, and [occurs] shows that
    the lambdified expressions of the notebooks have no such atom. *)
Fixpoint bind_args (formals : list expr) (actuals : list T) : env :=
  match formals, actuals with
  | At a :: fs, v :: vs =>
      fun b => if atom_eqb b a then v else bind_args fs vs b
  | _, _ => fun _ => s_of_Z 0
  end.

(** [sp.lambdify(formals, e)]. *)
Definition lambdify (formals : list expr) (e : expr) : list T -> T :=
  fun actuals => eval (bind_args formals actuals) e.

End Eval.

Arguments env : clear implicits.

(** [sp.solve([e1, e2], [a, b])] for two equations [e1 = 0], [e2 = 0] that
    are linear in the unknowns [a] and [b]: the coefficients are read off by
    differentiation, the constant terms by setting the unknowns to zero,
    and the system is solved by Cramer's rule.  (sympy's own elimination
    order is not visible in the notebooks; [solve_DEs_sound] and
    [solve_momentum_sound] below check that what is returned satisfies
    the equations it was asked to solve.)  sympy cancels the factors that
    a numerator shares with the determinant; the quotients here keep
    them.  The two have one value wherever the determinant is not zero,
    and differ where it is: there the quotient here is undefined, and
    sympy's may still have a value. *)
Definition solve (eqs : expr * expr) (unknowns : expr * expr)
  : expr * expr :=
  let '(e1, e2) := eqs in
  let '(a, b) := unknowns in
  let zero := [(a, Int 0); (b, Int 0)] in
  let a11 := simplify (subs (diff e1 a) zero) in
  let a12 := simplify (subs (diff e1 b) zero) in
  let a21 := simplify (subs (diff e2 a) zero) in
  let a22 := simplify (subs (diff e2 b) zero) in
  let c1 := simplify (subs e1 zero) in
  let c2 := simplify (subs e2 zero) in
  let det := Sub (Mul a11 a22) (Mul a12 a21) in
  (Div (Sub (Mul a12 c2) (Mul a22 c1)) det,
   Div (Sub (Mul a21 c1) (Mul a11 c2)) det).

(** *** Syntactic inventories, used to check an expression by computation *)

Definition symbol_eq_dec (a b : symbol) : {a = b} + {a <> b}.
Proof. decide equality. Defined.

Definition func_eq_dec (a b : func) : {a = b} + {a <> b}.
Proof. decide equality. Defined.

Definition atom_eq_dec (a b : atom) : {a = b} + {a <> b}.
Proof.
  decide equality;
    [apply symbol_eq_dec | apply Nat.eq_dec | apply func_eq_dec].
Defined.

Definition expr_eq_dec (a b : expr) : {a = b} + {a <> b}.
Proof.
  decide equality;
    first [apply Z.eq_dec | apply atom_eq_dec | apply Nat.eq_dec].
Defined.

(** The atoms of [e], one entry for each occurrence. *)
Fixpoint leaves (e : expr) : list atom :=
  match e with
  | Int _ | Pi => []
  | At a => [a]
  | Add p q | Sub p q | Mul p q | Div p q => leaves p ++ leaves q
  | Neg p | Pow p _ | Sin p | Cos p => leaves p
  end.

(** The atoms of [e], each once. *)
Definition atoms (e : expr) : list atom := nodup atom_eq_dec (leaves e).

(** The denominators of [e], one entry for each occurrence. *)
Fixpoint all_denoms (e : expr) : list expr :=
  match e with
  | Int _ | Pi | At _ => []
  | Add p q | Sub p q | Mul p q => all_denoms p ++ all_denoms q
  | Div p q => q :: all_denoms p ++ all_denoms q
  | Neg p | Pow p _ | Sin p | Cos p => all_denoms p
  end.

(** The denominators of [e], each once. *)
Definition denoms (e : expr) : list expr := nodup expr_eq_dec (all_denoms e).

(** Every power in [e] has a positive exponent. *)
Fixpoint pow_positive (e : expr) : bool :=
  match e with
  | Int _ | Pi | At _ => true
  | Add p q | Sub p q | Mul p q | Div p q => pow_positive p && pow_positive q
  | Pow p n => negb (Nat.eqb n 0) && pow_positive p
  | Neg p | Sin p | Cos p => pow_positive p
  end.

(** *** Partial derivatives of the denotation over the reals *)

(** The environment [rho] with atom [a] set to [z]. *)
Definition upd (rho : env R) (a : atom) (z : R) : env R :=
  fun b => if atom_eqb b a then z else rho b.

(** Every denominator of [e] is non-zero at [rho]. *)
Fixpoint defined (rho : env R) (e : expr) : Prop :=
  match e with
  | Int _ | Pi | At _ => True
  | Add p q | Sub p q | Mul p q => defined rho p /\ defined rho q
  | Div p q => defined rho p /\ defined rho q /\ eval rho q <> 0%R
  | Neg p | Pow p _ | Sin p | Cos p => defined rho p
  end.

End Sympy.

(** ** Effects

    The control law is a Python callable handed to the dynamics function,
    and the dynamics function is a callable handed to the integrator.  The
    code that calls them is written once, over a monad: the identity monad
    for a pure control law, [option] for one that can raise, and [Logged]
    to record the states at which the control law is called. *)

Class Monad (M : Type -> Type) : Type := {
  bind : forall {X Y : Type}, M X -> (X -> M Y) -> M Y;
  ret  : forall {X : Type}, X -> M X
}.

Notation "x <- c ;; k" := (bind c (fun x => k))
  (at level 61, c at next level, right associativity).

Definition Id (A : Type) : Type := A.

#[export] Instance Monad_Id : Monad Id := {|
  bind := fun X Y m f => f m;
  ret  := fun X a => a
|}.

#[export] Instance Monad_option : Monad option := {|
  bind := fun X Y m f => match m with Some a => f a | None => None end;
  ret  := fun X a => Some a
|}.

(** A value together with the list of logged items, oldest first. *)
Definition Logged (W A : Type) : Type := (A * list W)%type.

#[export] Instance Monad_Logged (W : Type) : Monad (Logged W) := {|
  bind := fun X Y m f =>
            let '(a, w) := m in
            let '(b, w') := f a in
            (b, w ++ w');
  ret  := fun X a => (a, [])
|}.

(** The state vector: a numpy array of four numbers. *)
Definition State (T : Type) : Type := (T * T * T * T)%type.

(** A callable instrumented to log every argument it is called with. *)
Definition logging {T : Type} (uf : State T -> T)
  : State T -> Logged (State T) T :=
  fun X => (uf X, [X]).

(** ** The part of numpy the notebooks use *)

Module Numpy.

(** Modelled from the spec: [np.arange] is a library routine; section 4.3
    of the spec has [ceil((end - start) / dt)] samples, uniformly spaced,
    which is what numpy documents for [np.arange(start, stop, step)]:
    that many values [start + i * step].  Time grids are given by decimal
    literals and are kept as rationals. *)
Definition arange (start stop step : Q) : list Q :=
  let n := Z.to_nat (Qceiling ((stop - start) / step)) in
  map (fun i => start + inject_Z (Z.of_nat i) * step) (seq 0 n).

(** [np.pi] is the double [0x400921FB54442D18], that is
    [884279719003555 / 2^48]. *)
Definition np_pi_Q : Q := 884279719003555 # 281474976710656.

(** Partial sums of the series [pi / 4 = 2 atan (1/3) + atan (1/7)],
    over the rationals; they enclose pi and so place [np.pi] against
    it. *)
Fixpoint qpow (q : Q) (n : nat) : Q :=
  match n with
  | O => 1
  | S k => q * qpow q k
  end.

Definition machin_term (n : nat) : Q :=
  qpow (-1) n
  * (2 * (qpow (1 # 3) (2 * n + 1) / inject_Z (Z.of_nat (2 * n + 1)))
     + qpow (1 # 7) (2 * n + 1) / inject_Z (Z.of_nat (2 * n + 1))).

Fixpoint machin_sum (n : nat) : Q :=
  match n with
  | O => machin_term 0
  | S k => Qred (machin_sum k + machin_term (S k))
  end.

Section Arrays.
Context {T : Type} `{Scalar T}.

Definition np_pi : T := s_of_Q np_pi_Q.

Definition vadd (a b : State T) : State T :=
  let '(a1, a2, a3, a4) := a in
  let '(b1, b2, b3, b4) := b in
  (s_add a1 b1, s_add a2 b2, s_add a3 b3, s_add a4 b4).

Definition vsub (a b : State T) : State T :=
  let '(a1, a2, a3, a4) := a in
  let '(b1, b2, b3, b4) := b in
  (s_sub a1 b1, s_sub a2 b2, s_sub a3 b3, s_sub a4 b4).

Definition vscale (h : T) (a : State T) : State T :=
  let '(a1, a2, a3, a4) := a in
  (s_mul h a1, s_mul h a2, s_mul h a3, s_mul h a4).

(** [X[i]] and a copy of [X] with [X[j] = z], for indices 0..3 (numpy
    raises IndexError beyond; the theorems only use indices below 4). *)
Definition getitem (i : nat) (X : State T) : T :=
  let '(a, b, c, d) := X in
  match i with
  | 0 => a | 1 => b | 2 => c | 3 => d
  | _ => s_of_Z 0
  end%nat.

Definition setitem (j : nat) (z : T) (X : State T) : State T :=
  let '(a, b, c, d) := X in
  match j with
  | 0 => (z, b, c, d) | 1 => (a, z, c, d)
  | 2 => (a, b, z, d) | 3 => (a, b, c, z)
  | _ => X
  end%nat.

(** One row of a matrix times a vector of four; a row of another length
    is a shape mismatch (numpy raises ValueError). *)
Definition dot4 (row : list T) (v : State T) : option T :=
  let '(v1, v2, v3, v4) := v in
  match row with
  | [a; b; c; d] =>
      Some (s_add (s_add (s_add (s_mul a v1) (s_mul b v2)) (s_mul c v3))
                  (s_mul d v4))
  | _ => None
  end.

(** [M @ v] for a two-dimensional [M] and a vector [v] of four. *)
Fixpoint matvec (M : list (list T)) (v : State T) : option (list T) :=
  match M with
  | [] => Some []
  | row :: rest =>
      y <- dot4 row v ;;
      ys <- matvec rest v ;;
      ret (y :: ys)
  end.

(** [a[0]]; IndexError on an empty array. *)
Definition getitem0 (a : list T) : option T := hd_error a.

(** [np.eye(n)] *)
Definition eye (n : nat) : list (list T) :=
  map (fun i => map (fun j => if Nat.eqb i j then s_of_Z 1 else s_of_Z 0)
                    (seq 0 n))
      (seq 0 n).

End Arrays.

(** The zero vector, and a state as a Python list. *)
Definition zero4 : State R := (0%R, 0%R, 0%R, 0%R).

Definition to_list {T : Type} (X : State T) : list T :=
  let '(a, b, c, d) := X in [a; b; c; d].

End Numpy.

(** ** The integrator *)

Module Scipy.
Import Numpy.

Section Odeint.
Context {T : Type} `{Scalar T} {M : Type -> Type} `{Monad M}.

(** Modelled from the spec: [scipy.integrate.odeint] is a library
    routine and not part of the notebooks.  Section 4.3 of the spec asks
    for a fixed-step explicit method of fourth order and names classical
    Runge-Kutta; [rk4_step] is that method, with the right-hand side
    [func(y, t)] called once per stage. *)
Definition rk4_step (func : State T -> T -> M (State T))
    (y : State T) (t h : T) : M (State T) :=
  let half := s_div h (s_of_Z 2) in
  k1 <- func y t ;;
  k2 <- func (vadd y (vscale half k1)) (s_add t half) ;;
  k3 <- func (vadd y (vscale half k2)) (s_add t half) ;;
  k4 <- func (vadd y (vscale h k3)) (s_add t h) ;;
  ret (vadd y (vscale (s_div h (s_of_Z 6))
                 (vadd (vadd k1 (vscale (s_of_Z 2) k2))
                       (vadd (vscale (s_of_Z 2) k3) k4)))).

(** The states at which [rk4_step] evaluates a pure right-hand side, in
    the order of the four stages. *)
Definition rk4_stages (func : State T -> T -> State T)
    (y : State T) (t h : T) : list (State T) :=
  let half := s_div h (s_of_Z 2) in
  let k1 := func y t in
  let y2 := vadd y (vscale half k1) in
  let k2 := func y2 (s_add t half) in
  let y3 := vadd y (vscale half k2) in
  let k3 := func y3 (s_add t half) in
  let y4 := vadd y (vscale h k3) in
  [y; y2; y3; y4].

(** Modelled from the spec: the samples after the first, one step from
    each requested time to the next. *)
Fixpoint odeint_from (func : State T -> T -> M (State T))
    (y : State T) (t : T) (ts : list T) : M (list (State T)) :=
  match ts with
  | [] => ret []
  | t' :: rest =>
      y' <- rk4_step func y t (s_sub t' t) ;;
      ys <- odeint_from func y' t' rest ;;
      ret (y' :: ys)
  end.

(** Modelled from the spec: [odeint(func, y0, t)] returns one state per
    entry of [t], the first being [y0] at [t[0]]. *)
Definition odeint (func : State T -> T -> M (State T))
    (y0 : State T) (ts : list T) : M (list (State T)) :=
  match ts with
  | [] => ret []
  | t0 :: rest =>
      ys <- odeint_from func y0 t0 rest ;;
      ret (y0 :: ys)
  end.

End Odeint.

End Scipy.

(** ** Notebook 1: Lagrangian dynamics and LQR control *)

Module Lagrangian.
Import Sympy Numpy Scipy.

(** *** Deriving the equations *)

(* Time *)
Definition t := At (Sym sym_t).

(* Time derivative *)
Definition ddt (x : expr) : expr := diff x t.

(* States; [x1_t] is x1(t), [x2_t] is x2(t) *)
Definition x1_t := At (Fn fn_x1 0).
Definition x2_t := At (Fn fn_x2 0).
Definition x1d := ddt x1_t.
Definition x2d := ddt x2_t.
Definition x1dd := ddt x1d.
Definition x2dd := ddt x2d.

(* Control input variable *)
Definition u := At (Sym sym_u).

(* Parameters *)
Definition m1 := At (Sym sym_m1).
Definition m2 := At (Sym sym_m2).
Definition l := At (Sym sym_l).
Definition g := At (Sym sym_g).

(* positions *)
Definition cart_x := x1_t.
Definition cart_y := Int 0.
Definition cart_pos := [cart_x; cart_y].

Definition pendulum_x := Add (Mul l (Sin x2_t)) x1_t.
Definition pendulum_y := Mul (Neg l) (Cos x2_t).
Definition pendulum_pos := [pendulum_x; pendulum_y].

(* Velocities *)
Definition cart_vel := map ddt cart_pos.
Definition pendulum_vel := map ddt pendulum_pos.

Definition cart_v_squared := sum (map (fun i => Pow i 2) cart_vel).
Definition pendulum_v_squared := sum (map (fun i => Pow i 2) pendulum_vel).

(* Potential energy *)
Definition pe := Mul (Mul (Neg m2) g) pendulum_y.

(* Kinetic energy *)
Definition ke :=
  Add (Div (Mul m1 cart_v_squared) (Int 2))
      (Div (Mul m2 pendulum_v_squared) (Int 2)).

(* Lagrangian *)
Definition L := Sub ke pe.

(* The differential equations, each to be read as [= 0] *)
Definition DEs : expr * expr :=
  (simplify (Sub (Sub (ddt (diff L x1d)) (diff L x1_t)) u),
   simplify (Sub (ddt (diff L x2d)) (diff L x2_t))).

(* Solving to get explicit values for the two state double derivatives *)
Definition DEexplicit : expr * expr :=
  let '(s1, s2) := solve DEs (x1dd, x2dd) in
  (simplify s1, simplify s2).

(* Substituting the states, functions of time, by plain symbols *)
Definition y1 := At (Sym sym_y1).
Definition y2 := At (Sym sym_y2).
Definition y1d := At (Sym sym_y1d).
Definition y2d := At (Sym sym_y2d).

Definition substitutions : subst :=
  [ (x1_t, y1); (x2_t, y2); (ddt x1_t, y1d); (ddt x2_t, y2d) ].

Definition y1dd := subs (fst DEexplicit) substitutions.
Definition y2dd := subs (snd DEexplicit) substitutions.

Definition formals := [y1; y1d; y2; y2d; t; u; m1; m2; l; g].

(** *** Linearizing the system *)

(* Storing the cumbersome partial derivative function in a lambda *)
Definition ddx (f x : expr) : expr := diff f x.

(* Defining variables to store rates of change *)
Definition x1d_val := x1d.
Definition x2d_val := x2d.
Definition x1dd_val := fst DEexplicit.
Definition x2dd_val := snd DEexplicit.

(* Storing states and their change in variables *)
Definition Xs := [x1_t; x1d; x2_t; x2d].
Definition Xds := [x1d_val; x1dd_val; x2d_val; x2dd_val].

(* the stationary point substitution *)
Definition subs_stationary : subst :=
  [ (x2_t, Pi); (ddt x2_t, Int 0); (ddt x1_t, Int 0) ].

Definition A_sp : list (list expr) :=
  map (fun xd => map (fun x => subs (simplify (ddx xd x)) subs_stationary) Xs)
      Xds.

Definition B_sp : list (list expr) :=
  map (fun xd => [subs (simplify (ddx xd u)) subs_stationary]) Xds.

(** *** Numbers *)

(* System parameters *)
Record params := { pv_m1 : Z; pv_m2 : Z; pv_g : Z; pv_l : Z }.

Definition param_vals : params :=
  {| pv_m1 := 1; pv_m2 := 1; pv_g := -10; pv_l := 1 |}.

(* The parameters for substitution to get numerical values *)
Definition param_subs : subst :=
  [ (m1, Int (pv_m1 param_vals)); (m2, Int (pv_m2 param_vals));
    (g, Int (pv_g param_vals)); (l, Int (pv_l param_vals)) ].

(* Simulation parameters *)
Definition dt : Q := 1 # 1000.
Definition t0 : Q := 0.
Definition tn : Q := 10.
Definition ts : list Q := arange t0 tn dt.

Section Numeric.
Context {T : Type} `{Scalar T}.

Definition y1dd_function : list T -> T := lambdify formals y1dd.
Definition y2dd_function : list T -> T := lambdify formals y2dd.

(** [np.array(A_sp.subs(param_subs))]: every entry has to be a number
    for the LQR routine to accept the array.  An atom left in an entry
    reads as 0 here; [A_np_closed] shows the value does not depend on
    that choice. *)
Definition to_number (e : expr) : T :=
  eval (fun _ => s_of_Z 0) (subs e param_subs).

(* Matrices with numerical values *)
Definition A_np : list (list T) := map (map to_number) A_sp.
Definition B_np : list (list T) := map (map to_number) B_sp.
Definition Q_cost : list (list T) := eye 4.       (* Q *)
Definition R_cost : T := s_of_Q (1 # 1000).       (* R *)

(* No control law, free moving *)
Definition control_no : State T -> T := fun x => s_of_Z 0.

(* Initial condition of the free run *)
Definition x0_free : State T :=
  (s_of_Z 0, s_of_Z 0, s_div np_pi (s_of_Z 2), s_of_Z 0).

(* Initial condition of the controlled run *)
Definition x0 : State T :=
  (s_of_Z 0, s_of_Z 0, s_sub np_pi (s_of_Q (8 # 10)), s_of_Z 0).

(* Set point *)
Definition xsp : State T := (s_of_Z 0, s_of_Z 0, np_pi, s_of_Z 0).

(** Controller function, [lambda x: -(K_np @ (x - xsp))[0]].  [K_np] is
    what the LQR routine of the control library returns for
    [(A_np, B_np, Q_cost, R_cost)], an array of shape (1, 4); it is an argument
    here. *)
Definition control_law (K_np : list (list T)) : State T -> option T :=
  fun x =>
    y <- matvec K_np (vsub x xsp) ;;
    y0 <- getitem0 y ;;
    ret (s_neg y0).

Section Dynamics.
Context {M : Type -> Type} `{Monad M}.

Definition get_PendulumCartRates
    (X : State T) (t : T) (uf : State T -> M T) (m1 m2 l g : T)
  : M (State T) :=
  let X_ := X in
  u <- uf X_ ;;
  let '(x1, v1, x2, v2) := X_ in
  let x1d := v1 in
  let v1d := y1dd_function [x1; v1; x2; v2; t; u; m1; m2; l; g] in
  let x2d := v2 in
  let v2d := y2dd_function [x1; v1; x2; v2; t; u; m1; m2; l; g] in
  ret (x1d, v1d, x2d, v2d).

(** [odeint(get_PendulumCartRates, x0, ts, args=(uf, m1, m2, l, g))]
    with the parameters read from [param_vals]. *)
Definition simulate (uf : State T -> M T) (x0 : State T) (ts : list Q)
  : M (list (State T)) :=
  odeint
    (fun X t =>
       get_PendulumCartRates X t uf
         (s_of_Z (pv_m1 param_vals)) (s_of_Z (pv_m2 param_vals))
         (s_of_Z (pv_l param_vals)) (s_of_Z (pv_g param_vals)))
    x0 (map s_of_Q ts).

End Dynamics.

(* Integrate: the free run *)
Definition result : list (State T) :=
  simulate (M := Id) control_no x0_free ts.

(* Integrate: the controlled run *)
Definition res_ctrl (K_np : list (list T)) : option (list (State T)) :=
  simulate (control_law K_np) x0 ts.

End Numeric.

(** *** Forms used to state the results *)

(** The environment that gives the state, the control and the parameters
    their values. *)
Definition env_L {T} `{Scalar T} (X : State T) (cu cm1 cm2 cl cg : T)
  : env T :=
  let '(x1, v1, x2, v2) := X in
  bind_args [x1_t; x1d; x2_t; x2d; u; m1; m2; l; g]
            [x1; v1; x2; v2; cu; cm1; cm2; cl; cg].

(** The atom that stands for the [j]-th state variable in [Xs]. *)
Definition state_atom (j : nat) : atom :=
  nth j [Fn fn_x1 0; Fn fn_x1 1; Fn fn_x2 0; Fn fn_x2 1] (Sym sym_t).

Local Open Scope R_scope.

(** The solved accelerations, in the form found in textbooks. *)
Definition accel_cart (x2 v2 u m1 m2 l g : R) : R :=
  (u + m2 * l * sin x2 * (v2 * v2) - m2 * g * sin x2 * cos x2)
  / (m1 + m2 * (sin x2 * sin x2)).

Definition accel_pend (x2 v2 u m1 m2 l g : R) : R :=
  ((m1 + m2) * g * sin x2 - cos x2 * u
   - m2 * l * sin x2 * cos x2 * (v2 * v2))
  / (l * (m1 + m2 * (sin x2 * sin x2))).

End Lagrangian.

(** ** Notebook 2: Hamiltonian dynamics and LQR control *)

Module Hamiltonian.
Import Sympy Numpy Scipy.

(* Time and control input symbols *)
Definition t := At (Sym sym_t).
Definition u := At (Sym sym_u).

(* The function for differentiation is cumbersome *)
Definition ddx (f x : expr) : expr := diff f x.
Definition ddt (f : expr) : expr := diff f t.

(* System parameters symbols *)
Definition m1 := At (Sym sym_m1).
Definition m2 := At (Sym sym_m2).
Definition l := At (Sym sym_l).
Definition g := At (Sym sym_g).

(* Dictionary to store their numerical values *)
Record params := { pv_m1 : Z; pv_m2 : Z; pv_g : Z; pv_l : Z }.

Definition param_vals : params :=
  {| pv_m1 := 1; pv_m2 := 1; pv_g := -10; pv_l := 1 |}.

(* System state function symbols: position *)
Definition x1_t := At (Fn fn_x1 0).
Definition x2_t := At (Fn fn_x2 0).
(* Conjugate momenta *)
Definition p1_t := At (Fn fn_p1 0).
Definition p2_t := At (Fn fn_p2 0).

(* Velocities variables *)
Definition v1 := ddt x1_t.
Definition v2 := ddt x2_t.

(* Defining the position in the x-y plane *)
Definition cart_x := x1_t.
Definition cart_y := Int 0.
Definition cart_pos := [cart_x; cart_y].

Definition pend_x := Add (Mul l (Sin x2_t)) x1_t.
Definition pend_y := Mul (Neg l) (Cos x2_t).
Definition pendulum_pos := [pend_x; pend_y].

(* Calculating the velocities *)
Definition cart_vel := map ddt cart_pos.
Definition pend_vel := map ddt pendulum_pos.

(* Calculating the sum of velocity squared *)
Definition cart_vel_squared := sum (map (fun v => Pow v 2) cart_vel).
Definition pend_vel_squared := sum (map (fun v => Pow v 2) pend_vel).

(* Kinetic energy *)
Definition ke :=
  Add (Div (Mul m1 cart_vel_squared) (Int 2))
      (Div (Mul m2 pend_vel_squared) (Int 2)).

(* Potential energy *)
Definition pe := Mul (Mul (Neg m2) g) pend_y.

(* Lagrangian *)
Definition L := Sub ke pe.

(* Equations connecting conjugate momenta and velocities *)
Definition conjugate_momentum_eqs : expr * expr :=
  (simplify (Sub p1_t (ddx L v1)),
   simplify (Sub p2_t (ddx L v2))).

(* Velocities as a function of ps *)
Definition vels_sol : subst :=
  let '(s1, s2) := solve conjugate_momentum_eqs (v1, v2) in
  [ (v1, simplify s1); (v2, simplify s2) ].

(* Legendre transformation: Lagrangian to Hamiltonian *)
Definition H : expr :=
  simplify (subs (Sub (Add (Mul p1_t v1) (Mul p2_t v2)) L) vels_sol).

(* Hamilton's equations *)
Definition x1d_exp := simplify (ddx H p1_t).
Definition p1d_exp := Sub (Neg (simplify (ddx H x1_t))) u.
Definition x2d_exp := simplify (ddx H p2_t).
Definition p2d_exp := Neg (simplify (ddx H x2_t)).

Definition formals := [x1_t; p1_t; x2_t; p2_t; t; u; m1; m2; l; g].

Definition DE_eqs := [x1d_exp; p1d_exp; x2d_exp; p2d_exp].

(** *** Deriving the linearised model *)

Definition Xs := [x1_t; p1_t; x2_t; p2_t].
Definition Xds := [x1d_exp; p1d_exp; x2d_exp; p2d_exp].

(* the stationary point substitution: the vertical, mass up position *)
Definition subs_stationary : subst :=
  [ (x2_t, Pi); (p1_t, Int 0); (p2_t, Int 0) ].

Definition A_sp : list (list expr) :=
  map (fun xd => map (fun x => subs (simplify (ddx xd x)) subs_stationary) Xs)
      Xds.

Definition B_sp : list (list expr) :=
  map (fun xd => [subs (simplify (ddx xd u)) subs_stationary]) Xds.

(* The parameters for substitution to get numerical values *)
Definition param_subs : subst :=
  [ (m1, Int (pv_m1 param_vals)); (m2, Int (pv_m2 param_vals));
    (g, Int (pv_g param_vals)); (l, Int (pv_l param_vals)) ].

Section Numeric.
Context {T : Type} `{Scalar T}.

(* Expressions to functions *)
Definition to_eq (eq : expr) : list T -> T := lambdify formals eq.
Definition DE_funcs : list (list T -> T) := map to_eq DE_eqs.

Definition to_number (e : expr) : T :=
  eval (fun _ => s_of_Z 0) (subs e param_subs).

(* Matrices with numerical values *)
Definition A_np : list (list T) := map (map to_number) A_sp.
Definition B_np : list (list T) := map (map to_number) B_sp.

Section Dynamics.
Context {M : Type -> Type} `{Monad M}.

(** Returns the Python list [[f(...) for f in DE_funcs]]. *)
Definition get_PendulumCartRates_Hamiltonian
    (X : State T) (t : T) (uf : State T -> M T) (m1 m2 l g : T)
  : M (list T) :=
  let X_ := X in
  u <- uf X_ ;;
  let '(x1, p1, x2, p2) := X_ in
  ret (map (fun f => f [x1; p1; x2; p2; t; u; m1; m2; l; g]) DE_funcs).

End Dynamics.

End Numeric.

(** *** Forms used to state the results *)

(** The environment that gives the arguments of the lambdified
    functions their values. *)
Definition env_H {T} `{Scalar T} (X : State T) (t u m1 m2 l g : T) : env T :=
  let '(x1, p1, x2, p2) := X in
  bind_args formals [x1; p1; x2; p2; t; u; m1; m2; l; g].

(** The determinant of the momentum equations. *)
Definition det_expr : expr := hd (Int 0) (denoms x1d_exp).

(** The atom that stands for the [j]-th state variable in [Xs]. *)
Definition state_atom_H (j : nat) : atom :=
  nth j [Fn fn_x1 0; Fn fn_p1 0; Fn fn_x2 0; Fn fn_p2 0] (Sym sym_t).

Local Open Scope R_scope.

(** Velocities in terms of momenta, and the rate of the pendulum
    momentum, in the usual closed form. *)
Definition vel_cart (p1 x2 p2 m1 m2 l : R) : R :=
  (l * p1 - cos x2 * p2) / (l * (m1 + m2 * (sin x2 * sin x2))).

Definition vel_pend (p1 x2 p2 m1 m2 l : R) : R :=
  ((m1 + m2) * p2 - m2 * l * cos x2 * p1)
  / (m2 * (l * l) * (m1 + m2 * (sin x2 * sin x2))).

Definition force_pend (p1 x2 p2 m1 m2 l g : R) : R :=
  let D := m1 + m2 * (sin x2 * sin x2) in
  let N := m2 * (l * l) * (p1 * p1) - 2 * m2 * l * cos x2 * p1 * p2
           + (m1 + m2) * (p2 * p2) in
  m2 * g * l * sin x2
  - (l * sin x2 * p1 * p2 * D - sin x2 * cos x2 * N) / (l * l * (D * D)).

(** The conjugate momenta of a velocity state: the solution of
    [conjugate_momentum_eqs] for [p1] and [p2].  At a fixed angle this is
    a linear map of the two velocities, with a matrix made of the
    parameters and the cosine of the angle. *)
Definition momenta (m1 m2 l : R) (X : State R) : State R :=
  let '(x1, v1, x2, v2) := X in
  (x1, (m1 + m2) * v1 + m2 * l * cos x2 * v2,
   x2, m2 * l * cos x2 * v1 + m2 * (l * l) * v2).

(** The rate of change of [momenta] along a velocity state moving at the
    rate [Xd]. *)
Definition momenta_rate (m1 m2 l : R) (X Xd : State R) : State R :=
  let '(x1, v1, x2, v2) := X in
  let '(x1d, v1d, x2d, v2d) := Xd in
  (x1d,
   (m1 + m2) * v1d + m2 * l * (cos x2 * v2d - sin x2 * x2d * v2),
   x2d,
   m2 * l * (cos x2 * v1d - sin x2 * x2d * v1) + m2 * (l * l) * v2d).

(** [X] is a trajectory of the Lagrangian system under the control law
    [uf]: at every time, each component has the rate the dynamics
    function returns. *)
Definition solves_L (m1 m2 l g : R) (uf : State R -> R) (X : R -> State R)
  : Prop :=
  forall t i, (i < 4)%nat ->
    derivable_pt_lim (fun s => getitem i (X s)) t
      (getitem i (Lagrangian.get_PendulumCartRates (M := Id) (X t) t uf
                    m1 m2 l g)).

Definition solves_H (m1 m2 l g : R) (uf : State R -> R) (Y : R -> State R)
  : Prop :=
  forall t i, (i < 4)%nat ->
    derivable_pt_lim (fun s => getitem i (Y s)) t
      (nth i (get_PendulumCartRates_Hamiltonian (M := Id) (Y t) t uf
                m1 m2 l g) 0).

End Hamiltonian.

(** ** The gain synthesis, by its contract *)

Module Control.

Local Open Scope R_scope.

(** Arrays of two dimensions over the reals, as lists of rows, with the
    matrix operations the contract is written in. *)
Definition matrix := list (list R).

Definition entry (M : matrix) (i j : nat) : R := nth j (nth i M []) 0.
Definition n_rows (M : matrix) : nat := length M.
Definition n_cols (M : matrix) : nat := length (hd [] M).

Definition build (m n : nat) (f : nat -> nat -> R) : matrix :=
  map (fun i => map (f i) (seq 0 n)) (seq 0 m).

Definition sigma (n : nat) (f : nat -> R) : R :=
  fold_right Rplus 0 (map f (seq 0 n)).

Definition transpose (M : matrix) : matrix :=
  build (n_cols M) (n_rows M) (fun i j => entry M j i).

Definition matmul (M N : matrix) : matrix :=
  build (n_rows M) (n_cols N)
        (fun i j => sigma (n_cols M) (fun k => entry M i k * entry N k j)).

Definition madd (M N : matrix) : matrix :=
  build (n_rows M) (n_cols M) (fun i j => entry M i j + entry N i j).

Definition msub (M N : matrix) : matrix :=
  build (n_rows M) (n_cols M) (fun i j => entry M i j - entry N i j).

Definition mscale (c : R) (M : matrix) : matrix :=
  build (n_rows M) (n_cols M) (fun i j => c * entry M i j).

Definition square (n : nat) (P : matrix) : Prop :=
  length P = n /\ Forall (fun row => length row = n) P.

Definition symmetric (P : matrix) : Prop :=
  forall i j, (i < n_rows P)%nat -> (j < n_rows P)%nat ->
              entry P i j = entry P j i.

(** [z^T P z] *)
Definition quadratic_form (P : matrix) (z : list R) : R :=
  sigma (length z)
        (fun i => sigma (length z)
                        (fun j => nth i z 0 * entry P i j * nth j z 0)).

Definition positive_semidefinite (P : matrix) : Prop :=
  forall z, length z = n_rows P -> 0 <= quadratic_form P z.

(** [A^T P + P A - P B R^-1 B^T P + Q], for a scalar weight [r]. *)
Definition riccati_residual (A B Q : matrix) (r : R) (P : matrix) : matrix :=
  madd (msub (madd (matmul (transpose A) P) (matmul P A))
             (matmul (matmul P B) (mscale (/ r) (matmul (transpose B) P))))
       Q.

(** [K = R^-1 B^T P] *)
Definition gain (B : matrix) (r : R) (P : matrix) : matrix :=
  mscale (/ r) (matmul (transpose B) P).

(** Modelled from the spec: [lqr] is a routine of the python-control
    library; the notebook only calls it.  Section 4.2 of the spec gives
    its contract: solve the continuous-time algebraic Riccati equation
    for a symmetric positive-semidefinite [P], to a residual within the
    solver's tolerance, and return [K = R^-1 B^T P].  [tol] bounds every
    entry of the residual; [tol = 0] is the exact equation.  That the
    solution is the stabilising one is not part of the relation: it is
    what is to be shown of it. *)
Definition lqr_contract (A B Q : matrix) (r tol : R) (K P : matrix) : Prop :=
  square (n_rows A) P /\
  symmetric P /\
  positive_semidefinite P /\
  (forall i j, (i < n_rows A)%nat -> (j < n_rows A)%nat ->
               Rabs (entry (riccati_residual A B Q r P) i j) <= tol) /\
  K = gain B r P.

(** [A - B K] *)
Definition closed_loop (A B K : matrix) : matrix := msub A (matmul B K).

(** [M x] for a vector [x], and [a x + b y]. *)
Definition mulvec (M : matrix) (x : list R) : list R :=
  map (fun row => sigma (length x) (fun k => nth k row 0 * nth k x 0)) M.

Definition lincomb (a : R) (x : list R) (b : R) (y : list R) : list R :=
  map (fun xy => a * fst xy + b * snd xy) (combine x y).

Definition nonzero (x : list R) : Prop := exists i, nth i x 0 <> 0.

(** [a + i b] is an eigenvalue of the real matrix [M]: there is an
    eigenvector [x + i y], not zero, with
    [M (x + i y) = (a + i b) (x + i y)], written out in real and
    imaginary parts. *)
Definition eigenvalue (M : matrix) (a b : R) : Prop :=
  exists x y : list R,
    length x = n_rows M /\ length y = n_rows M /\
    (nonzero x \/ nonzero y) /\
    mulvec M x = lincomb a x (- b) y /\
    mulvec M y = lincomb b x a y.

(** Every eigenvalue has strictly negative real part. *)
Definition hurwitz (M : matrix) : Prop :=
  forall a b, eigenvalue M a b -> a < 0.

(** A rational matrix close to the solution of the Riccati equation of
    the notebook's [(A_np, B_np, Q, R)]: [P = G G^T] for the Cholesky
    factor [G] of the solution cut to six decimals, and the gain that
    goes with it (close to the array the notebook prints,
    about [-31.62, -54.38, 329.43, 105.33]). *)
Definition G_rational : matrix :=
  [ [  1311332 / 1000000;                  0;                 0;                0 ];
    [   746186 / 1000000;   890368 / 1000000;                 0;                0 ];
    [ -2539922 / 1000000; -3169518 / 1000000; 1433295 / 1000000;                0 ];
    [  -770301 / 1000000;  -931232 / 1000000;   96741 / 1000000; 198335 / 1000000 ] ].

Definition P_rational : matrix := matmul G_rational (transpose G_rational).

Definition K_rational : matrix :=
  [ [ -1581138559 / 50000000; -27189136671 / 500000000;
      329427794177 / 1000000000; 105325266369 / 1000000000 ] ].

End Control.

(** ** The outcome of a simulation run *)

Module Divergence.
Import Numpy Scipy.

(** All four components of a state are finite. *)
Definition finite_state (X : State XR) : bool :=
  match X with
  | (Some _, Some _, Some _, Some _) => true
  | _ => false
  end.

(** What the caller of a run gets back: a trajectory, or the error of
    section 4.3 of the spec with the index of the last finite sample and
    the partial trajectory. *)
Inductive outcome : Type :=
  | Returned (traj : list (State XR))
  | DivergedSimulationError (last_finite : nat) (partial : list (State XR)).

(** The simulation cell of the notebook: the array that [odeint] returns
    is the result, whatever it holds. *)
Definition run (uf : State XR -> XR) (x0 : State XR) (ts : list Q)
  : outcome :=
  Returned (Lagrangian.simulate (M := Id) uf x0 ts).

(** The samples before the first non-finite one. *)
Fixpoint finite_prefix (traj : list (State XR)) : list (State XR) :=
  match traj with
  | [] => []
  | X :: rest => if finite_state X then X :: finite_prefix rest else []
  end.

(** The run as section 4.3 of the spec words it, for comparison with
    [run]: a non-finite sample ends the run with the error, which carries
    the index of the last finite sample and the samples up to it. *)
Definition run_as_specified (uf : State XR -> XR) (x0 : State XR)
    (ts : list Q) : outcome :=
  let traj := Lagrangian.simulate (M := Id) uf x0 ts in
  let partial := finite_prefix traj in
  if Nat.eqb (length partial) (length traj) then Returned traj
  else DivergedSimulationError (length partial - 1) partial.

End Divergence.

(** ** Notebook 3: Lagrangian dynamics, angle measured from the y axis *)

Module Lagrangian3.
Import Sympy Numpy Scipy.

(* Time *)
Definition t := At (Sym sym_t).

(* Time derivative *)
Definition ddt (x : expr) : expr := diff x t.

(** States.  The notebook calls its functions of time [x] and [theta]
    and its masses [m_c] and [m_p]; a symbol is only a name, and the
    embedding has one set of names: [x(t)] is written with the atom of
    [x1(t)], [theta(t)] with that of [x2(t)], [m_c] and [m_p] with those
    of [m1] and [m2]. *)
Definition x_t := At (Fn fn_x1 0).
Definition theta_t := At (Fn fn_x2 0).
Definition xd := ddt x_t.
Definition d_theta := ddt theta_t.
Definition xdd := ddt xd.
Definition d2_theta := ddt d_theta.

(* Control input variable *)
Definition u := At (Sym sym_u).

(* Parameters *)
Definition m_c := At (Sym sym_m1).
Definition m_p := At (Sym sym_m2).
Definition l := At (Sym sym_l).
Definition g := At (Sym sym_g).

(* positions *)
Definition cart_x := x_t.
Definition cart_y := Int 0.
Definition cart_pos := [cart_x; cart_y].

Definition pendulum_x := Add (Mul l (Sin theta_t)) x_t.
Definition pendulum_y := Mul l (Cos theta_t).
Definition pendulum_pos := [pendulum_x; pendulum_y].

(* Velocities *)
Definition cart_vel := map ddt cart_pos.
Definition pendulum_vel := map ddt pendulum_pos.

Definition cart_v_squared := sum (map (fun i => Pow i 2) cart_vel).
Definition pendulum_v_squared := sum (map (fun i => Pow i 2) pendulum_vel).

(* Potential energy *)
Definition pe := Mul (Mul (Neg m_p) g) pendulum_y.

(* Kinetic energy *)
Definition ke :=
  Add (Div (Mul m_c cart_v_squared) (Int 2))
      (Div (Mul m_p pendulum_v_squared) (Int 2)).

(* Lagrangian *)
Definition L := Sub ke pe.

(* The differential equations, each to be read as [= 0] *)
Definition DEs : expr * expr :=
  (simplify (Sub (Sub (ddt (diff L xd)) (diff L x_t)) u),
   simplify (Sub (ddt (diff L d_theta)) (diff L theta_t))).

(* Solving to get explicit values for the two state double derivatives *)
Definition DEexplicit : expr * expr :=
  let '(s1, s2) := solve DEs (xdd, d2_theta) in
  (simplify s1, simplify s2).

(** Verification test: centre of mass motion.  The cell displays the
    second time derivative of the position of the centre of mass. *)
Definition x_cm :=
  Div (Add (Mul m_p pendulum_x) (Mul m_c cart_x)) (Add m_c m_p).

Definition x_cm_acceleration := simplify (ddt (ddt (simplify x_cm))).

(* Expressions to functions *)
Definition y1 := At (Sym sym_y1).
Definition y2 := At (Sym sym_y2).
Definition y1d := At (Sym sym_y1d).
Definition y2d := At (Sym sym_y2d).

Definition substitutions : subst :=
  [ (x_t, y1); (theta_t, y2); (ddt x_t, y1d); (ddt theta_t, y2d) ].

Definition y1dd := subs (fst DEexplicit) substitutions.
Definition y2dd := subs (snd DEexplicit) substitutions.

Definition formals := [y1; y1d; y2; y2d; t; u; m_c; m_p; l; g].

(* System parameters *)
Record params := { pv_m_c : Z; pv_m_p : Z; pv_g : Z; pv_l : Z }.

Definition param_vals : params :=
  {| pv_m_c := 1; pv_m_p := 1; pv_g := -10; pv_l := 1 |}.

(* Simulation parameters *)
Definition dt : Q := 1 # 1000.
Definition t0 : Q := 0.
Definition tn : Q := 10.
Definition ts : list Q := arange t0 tn dt.

Section Numeric.
Context {T : Type} `{Scalar T}.

Definition y1dd_function : list T -> T := lambdify formals y1dd.
Definition y2dd_function : list T -> T := lambdify formals y2dd.

(* No control law, free moving *)
Definition control_no : State T -> T := fun x => s_of_Z 0.

(* Initial condition *)
Definition x0 : State T :=
  (s_of_Z 0, s_of_Z 0, s_div np_pi (s_of_Z 2), s_of_Z 0).

Section Dynamics.
Context {M : Type -> Type} `{Monad M}.

Definition get_PendulumCartRates
    (X : State T) (t : T) (uf : State T -> M T) (m_c m_p l g : T)
  : M (State T) :=
  let X_ := X in
  u <- uf X_ ;;
  let '(x, v1, theta, v2) := X_ in
  let xd := v1 in
  let v1d := y1dd_function [x; v1; theta; v2; t; u; m_c; m_p; l; g] in
  let d_theta := v2 in
  let v2d := y2dd_function [x; v1; theta; v2; t; u; m_c; m_p; l; g] in
  ret (xd, v1d, d_theta, v2d).

End Dynamics.

(* Integrate *)
Definition result : list (State T) :=
  odeint (M := Id)
    (fun X t =>
       get_PendulumCartRates X t control_no
         (s_of_Z (pv_m_c param_vals)) (s_of_Z (pv_m_p param_vals))
         (s_of_Z (pv_l param_vals)) (s_of_Z (pv_g param_vals)))
    x0 (map s_of_Q ts).

End Numeric.

(** *** Forms used to state the results *)

(** The environment that gives the state, the accelerations, the control
    and the parameters their values. *)
Definition env_3 {T} `{Scalar T} (X : State T) (a1 a2 cu cm_c cm_p cl cg : T)
  : env T :=
  let '(x, v1, theta, v2) := X in
  bind_args [x_t; xd; theta_t; d_theta; xdd; d2_theta; u; m_c; m_p; l; g]
            [x; v1; theta; v2; a1; a2; cu; cm_c; cm_p; cl; cg].

End Lagrangian3.

(** ** Notebook 2: the control cells and the runs *)

Module HamiltonianControl.
Import Sympy Numpy Scipy Control.

(* Simulation parameters *)
Definition dt : Q := 1 # 1000.
Definition t0 : Q := 0.
Definition tn : Q := 10.
Definition ts : list Q := arange t0 tn dt.

Section Numeric.
Context {T : Type} `{Scalar T}.

Definition Q_cost : list (list T) := eye 4.       (* Q *)
Definition R_cost : T := s_of_Q (1 # 1000).       (* R *)

(* We are not controlling. A trial control law *)
Definition control_no : State T -> T := fun x => s_of_Z 0.

(* initial condition of the free run *)
Definition x0_free : State T := (s_of_Z 0, s_of_Z 0, s_of_Z 0, s_of_Z 2).

(* Initial condition of the controlled run *)
Definition x0 : State T :=
  (s_of_Z 0, s_of_Z 0, s_sub np_pi (s_of_Q (8 # 10)), s_of_Z 0).

(* Set point *)
Definition xsp : State T := (s_of_Z 0, s_of_Z 0, np_pi, s_of_Z 0).

(** Controller function, [lambda x: -(K_np @ (x - xsp))[0]], with the
    gain as an argument. *)
Definition control_law (K_np : list (list T)) : State T -> option T :=
  fun x =>
    y <- matvec K_np (vsub x xsp) ;;
    y0 <- getitem0 y ;;
    ret (s_neg y0).

(** [odeint] turns the list that the dynamics function returns into an
    array of the length of the state; the list has four entries. *)
Definition as_state (rates : list T) : State T :=
  (nth 0 rates (s_of_Z 0), nth 1 rates (s_of_Z 0),
   nth 2 rates (s_of_Z 0), nth 3 rates (s_of_Z 0)).

Section Dynamics.
Context {M : Type -> Type} `{Monad M}.

(** [odeint(get_PendulumCartRates_Hamiltonian, x0, ts,
    args=(uf, m1, m2, l, g))] with the parameters read from
    [param_vals]. *)
Definition simulate (uf : State T -> M T) (x0 : State T) (ts : list Q)
  : M (list (State T)) :=
  odeint
    (fun X t =>
       rates <- Hamiltonian.get_PendulumCartRates_Hamiltonian X t uf
                  (s_of_Z (Hamiltonian.pv_m1 Hamiltonian.param_vals))
                  (s_of_Z (Hamiltonian.pv_m2 Hamiltonian.param_vals))
                  (s_of_Z (Hamiltonian.pv_l Hamiltonian.param_vals))
                  (s_of_Z (Hamiltonian.pv_g Hamiltonian.param_vals)) ;;
       ret (as_state rates))
    x0 (map s_of_Q ts).

End Dynamics.

(* Integrations: the free run *)
Definition out : list (State T) := simulate (M := Id) control_no x0_free ts.

(* Integrate: the controlled run *)
Definition res_ctrl (K_np : list (list T)) : option (list (State T)) :=
  simulate (control_law K_np) x0 ts.

End Numeric.

(** A rational matrix close to the solution of the Riccati equation of
    this notebook's [(A_np, B_np, Q, R)], [P = G G^T] for a triangular
    [G] of six decimals, and the gain that goes with it. *)
Definition G_rational_H : matrix :=
  [ [  1644960 / 1000000;                 0;                 0;                0 ];
    [   -19224 / 1000000;  202471 / 1000000;                 0;                0 ];
    [ -2440145 / 1000000; 1680276 / 1000000; 3092908 / 1000000;                0 ];
    [  -744195 / 1000000;  760551 / 1000000; 1406150 / 1000000; 371687 / 1000000 ] ]%R.

Definition P_rational_H : matrix := matmul G_rational_H (transpose G_rational_H).

Definition K_rational_H : matrix :=
  [ [ 24705243 / 781250; -41364068017 / 1000000000;
      -96779127369 / 250000000; -168295926201 / 1000000000 ] ]%R.

End HamiltonianControl.

(** ** The animation of a run *)

Module Animation.
Import Sympy Numpy.

(** [a[::k]] for a step [k >= 1]: the entries at the indices 0, k,
    2k, ...  [skip] entries are passed over between two that are taken,
    [c] before the next one.  (A step of 0 is a ValueError in Python; the
    notebooks only write 50.) *)
Fixpoint stride_from {A : Type} (skip c : nat) (a : list A) : list A :=
  match a with
  | [] => []
  | x :: rest =>
      match c with
      | O => x :: stride_from skip skip rest
      | S c' => stride_from skip c' rest
      end
  end.

Definition slice_step {A : Type} (k : nat) (a : list A) : list A :=
  stride_from (k - 1) 0 a.

(* Selecting the animation range *)
Definition res_plot {A : Type} (result : list A) : list A :=
  slice_step 50 result.
Definition ts_plot (ts : list Q) : list Q := slice_step 50 ts.

(** Milliseconds between two frames, [interval=50]. *)
Definition interval : Z := 50.

(** What one call of [animate] hands to the two plots:
    [pend_plot.set_data([x_cart, x_pend], [0, y_pend])] and
    [cart_plot.set_data([x_cart], [0])]. *)
Record frame (T : Type) := {
  pend_data : list T * list T;
  cart_data : list T * list T
}.
Arguments pend_data {T}.
Arguments cart_data {T}.

Section Animate.
Context {T : Type} `{Scalar T}.

(** The body of [animate(iter)] for a list of rows [res_plot], the
    positions [pendulum_pos] of the notebook and the atoms [x], [theta],
    [l] that [sub_obs] gives values to.  [sp.N(i.subs(sub_obs))] is the
    value of [i] where the three atoms have the values of [sub_obs].
    [res_plot[iter]] is an IndexError past the end, and the unpacking
    into [x_pend, y_pend] a ValueError unless there are two positions. *)
Definition animate_with (pendulum_pos : list expr) (x theta l : expr)
    (l_val : Z) (res_plot : list (State T)) (iter : nat)
  : option (frame T) :=
  match nth_error res_plot iter with
  | None => None
  | Some (x_cart, _, th_pend, _) =>
      let sub_obs := bind_args [x; theta; l] [x_cart; th_pend; s_of_Z l_val] in
      match map (eval sub_obs) pendulum_pos with
      | [x_pend; y_pend] =>
          Some {| pend_data := ([x_cart; x_pend], [s_of_Z 0; y_pend]);
                  cart_data := ([x_cart], [s_of_Z 0]) |}
      | _ => None
      end
  end.

(** The frames that [animation.FuncAnimation(fig, animate,
    frames=len(res_plot), ...)] draws: [animate(0)], ...,
    [animate(frames - 1)]. *)
Definition play (animate : list (State T) -> nat -> option (frame T))
    (result : list (State T)) : list (option (frame T)) :=
  map (animate (res_plot result)) (seq 0 (length (res_plot result))).

(* Notebook 1 *)
Definition animate_1 : list (State T) -> nat -> option (frame T) :=
  animate_with Lagrangian.pendulum_pos Lagrangian.x1_t Lagrangian.x2_t
    Lagrangian.l (Lagrangian.pv_l Lagrangian.param_vals).

Definition animte_CartPend_1 (result : list (State T)) (ts : list Q) :=
  play animate_1 result.

(* Notebook 2; [Xs] is the pair of symbols passed by the caller *)
Definition animate_2 (Xs : expr * expr)
  : list (State T) -> nat -> option (frame T) :=
  let '(x1, x2) := Xs in
  animate_with Hamiltonian.pendulum_pos x1 x2
    Hamiltonian.l (Hamiltonian.pv_l Hamiltonian.param_vals).

Definition animte_CartPend_2 (result : list (State T)) (ts : list Q)
    (Xs : expr * expr) :=
  play (animate_2 Xs) result.

(* Notebook 3 *)
Definition animate_3 : list (State T) -> nat -> option (frame T) :=
  animate_with Lagrangian3.pendulum_pos Lagrangian3.x_t Lagrangian3.theta_t
    Lagrangian3.l (Lagrangian3.pv_l Lagrangian3.param_vals).

Definition animte_CartPend_3 (result : list (State T)) (ts : list Q) :=
  play animate_3 result.

End Animate.

(** The figure size of notebook 3, where the axes ranges and the scale
    are arguments: [delta = lambda ls: ls[1] - ls[0]],
    [aspect = delta(x_range) / delta(y_range)] and
    [figsize = [aspect * scale, scale]].  [ls[1]] is an IndexError on a
    shorter list and the division a ZeroDivisionError on a range of zero
    height. *)
Definition delta (ls : list Q) : option Q :=
  match ls with
  | a :: b :: _ => Some (b - a)
  | _ => None
  end.

Definition aspect (x_range y_range : list Q) : option Q :=
  dx <- delta x_range ;;
  dy <- delta y_range ;;
  if Qeq_bool dy 0 then None else Some (dx / dy).

Definition figsize (x_range y_range : list Q) (scale : Q) : option (Q * Q) :=
  a <- aspect x_range y_range ;;
  ret (a * scale, scale).

End Animation.

(** ** Quantities of mechanics built from the notebooks' expressions *)

Module Mechanics.
Import Sympy Numpy.

(** The total energy of the first notebook: its kinetic plus its
    potential energy. *)
Definition energy : expr := Add Lagrangian.ke Lagrangian.pe.

Definition total_energy (m1 m2 l g : R) (X : State R) : R :=
  eval (Lagrangian.env_L X 0%R m1 m2 l g) energy.

(** The value of the Hamiltonian of the second notebook at a state
    [(x1, p1, x2, p2)]. *)
Definition hamiltonian (m1 m2 l g : R) (Y : State R) : R :=
  eval (Hamiltonian.env_H Y 0%R 0%R m1 m2 l g) Hamiltonian.H.

(** An expression is autonomous when it mentions neither [t] nor a
    derivative of a function of [t]. *)
Definition autonomous (e : expr) : bool :=
  forallb (fun a => match a with
                    | Sym sym_t => false
                    | Sym _ => true
                    | Fn _ O => true
                    | Fn _ (S _) => false
                    end) (leaves e).

(** The velocity state of a momentum state [(x1, p1, x2, p2)]: the
    positions and the rates that the Hamiltonian dynamics function gives
    them. *)
Definition velocities (m1 m2 l : R) (Y : State R) : State R :=
  let rates := Hamiltonian.get_PendulumCartRates_Hamiltonian (M := Id)
                 Y 0%R (fun _ => 0%R) m1 m2 l 0%R in
  (getitem 0 Y, nth 0 rates 0%R, getitem 2 Y, nth 2 rates 0%R).

End Mechanics.

(** ** The linearised model as a function of the parameters *)

Module Linearisation.
Import Sympy Numpy Control.
Local Open Scope R_scope.

(** [A_sp] and [B_sp] evaluated at given parameters.  (What is left of
    the state after [subs_stationary] takes the values of the upright
    rest; the entries do not mention it.) *)
Definition A_matrix (m1 m2 l g : R) : matrix :=
  map (map (eval (Lagrangian.env_L (0, 0, PI, 0) 0 m1 m2 l g)))
      Lagrangian.A_sp.

Definition B_matrix (m1 m2 l g : R) : matrix :=
  map (map (eval (Lagrangian.env_L (0, 0, PI, 0) 0 m1 m2 l g)))
      Lagrangian.B_sp.

Definition dot (w v : list R) : R :=
  fold_right Rplus 0 (map (fun ab => fst ab * snd ab) (combine w v)).

(** [A^j b] for the single column [b] of [B]. *)
Definition krylov (A B : matrix) (j : nat) : list R :=
  Nat.iter j (mulvec A) (map (fun row => nth 0 row 0) B).

(** The pair [(A, B)] is controllable: no row vector but zero is
    orthogonal to [b], [A b], ..., [A^(n-1) b]. *)
Definition controllable (A B : matrix) : Prop :=
  forall w, length w = n_rows A ->
    (forall j, (j < n_rows A)%nat -> dot w (krylov A B j) = 0) ->
    Forall (fun z => z = 0) w.

End Linearisation.

(** ** Facts about the symbolic layer *)

Module SympyFacts.
Import Sympy.

(** Replace a closed term of the symbolic layer by its value.  The
    equation is checked by the virtual machine. *)
Ltac by_value c :=
  let e := eval vm_compute in c in
  let E := fresh "E" in
  assert (E : c = e) by (vm_compute; reflexivity);
  rewrite E; clear E.

Lemma symbol_eqb_spec (a b : symbol) : reflect (a = b) (symbol_eqb a b).
Proof. destruct a, b; simpl; constructor; congruence. Qed.

Lemma func_eqb_spec (a b : func) : reflect (a = b) (func_eqb a b).
Proof. destruct a, b; simpl; constructor; congruence. Qed.

Lemma atom_eqb_spec (a b : atom) : reflect (a = b) (atom_eqb a b).
Proof.
  destruct a as [s|f n], b as [s'|f' n']; simpl; try (constructor; congruence).
  - destruct (symbol_eqb_spec s s'); constructor; congruence.
  - destruct (func_eqb_spec f f'); simpl; [|constructor; congruence].
    destruct (Nat.eqb_spec n n'); constructor; congruence.
Qed.

Lemma atom_eqb_refl (a : atom) : atom_eqb a a = true.
Proof. destruct (atom_eqb_spec a a); congruence. Qed.

Lemma s_pow_R (x : R) (n : nat) : s_pow x n = (x ^ n)%R.
Proof. induction n; simpl; [reflexivity|now rewrite IHn]. Qed.

Open Scope R_scope.

Lemma is_int_true (e : expr) (z : Z) : is_int e z = true -> e = Int z.
Proof.
  destruct e; simpl; try discriminate.
  intros E; apply Z.eqb_eq in E; now subst.
Qed.

Ltac case_int e z :=
  let E := fresh "E" in
  destruct (is_int e z) eqn:E; [apply is_int_true in E; subst e|].

Lemma eval_mk_add (rho : env R) p q :
  eval rho (mk_add p q) = eval rho p + eval rho q.
Proof.
  unfold mk_add. case_int p 0%Z; [simpl; lra|].
  case_int q 0%Z; simpl; lra.
Qed.

Lemma eval_mk_sub (rho : env R) p q :
  eval rho (mk_sub p q) = eval rho p - eval rho q.
Proof.
  unfold mk_sub. case_int q 0%Z; [simpl; lra|].
  case_int p 0%Z; simpl; lra.
Qed.

Lemma eval_mk_mul (rho : env R) p q :
  eval rho (mk_mul p q) = eval rho p * eval rho q.
Proof.
  unfold mk_mul. case_int p 0%Z; [simpl; lra|].
  case_int q 0%Z; [simpl; lra|]. simpl.
  case_int p 1%Z; [simpl; lra|].
  case_int q 1%Z; simpl; lra.
Qed.

Lemma eval_mk_div (rho : env R) p q :
  eval rho (mk_div p q) = eval rho p / eval rho q.
Proof.
  unfold mk_div. case_int p 0%Z; [simpl; unfold Rdiv; lra|].
  case_int q 1%Z; simpl; [field|reflexivity].
Qed.

Lemma eval_mk_neg (rho : env R) p : eval rho (mk_neg p) = - eval rho p.
Proof.
  destruct p; simpl; try reflexivity.
  - now rewrite opp_IZR.
  - lra.
Qed.

Lemma eval_mk_pow (rho : env R) p n :
  eval rho (mk_pow p n) = eval rho p ^ n.
Proof.
  destruct n as [|[|n]]; simpl; try lra.
  now rewrite s_pow_R.
Qed.

(** Over the reals [simplify] keeps the value of an expression. *)
Lemma eval_simplify (rho : env R) (e : expr) :
  eval rho (simplify e) = eval rho e.
Proof.
  induction e; simpl; try reflexivity;
    rewrite ?eval_mk_add, ?eval_mk_sub, ?eval_mk_mul, ?eval_mk_div,
            ?eval_mk_neg, ?eval_mk_pow, ?s_pow_R;
    rewrite ?IHe1, ?IHe2, ?IHe; reflexivity.
Qed.

(** Values of atoms outside an expression do not matter. *)
Lemma eval_ext {T} `{Scalar T} (rho rho' : env T) (e : expr) :
  (forall a, occurs a e = true -> rho a = rho' a) ->
  eval rho e = eval rho' e.
Proof.
  induction e; simpl; intros Hagree; try reflexivity;
    try (rewrite IHe1, IHe2;
         [reflexivity
         |intros a Ha; apply Hagree; rewrite Ha; apply orb_true_r
         |intros a Ha; apply Hagree; rewrite Ha; reflexivity]);
    try (rewrite IHe; [reflexivity|assumption]).
  apply Hagree, atom_eqb_refl.
Qed.

(** Substitution and evaluation commute. *)
Lemma eval_subs {T} `{Scalar T} (rho : env T) (e : expr) (s : subst) :
  eval rho (subs e s)
  = eval (fun a => match lookup s a with
                   | Some r => eval rho r
                   | None => rho a
                   end) e.
Proof.
  induction e; simpl; try congruence.
  destruct (lookup s a); reflexivity.
Qed.

Lemma occurs_leaves (a : atom) (e : expr) :
  occurs a e = true -> In a (leaves e).
Proof.
  induction e; simpl; try discriminate;
    try (intros Ho; apply orb_true_iff in Ho; apply in_or_app; tauto);
    try assumption.
  intros Ho. left. symmetry. now destruct (atom_eqb_spec a a0).
Qed.

(** Two environments that agree on the atoms of [e] give it one value. *)
Lemma eval_ext_atoms {T} `{Scalar T} (rho rho' : env T) (e : expr) :
  Forall (fun a => rho a = rho' a) (atoms e) ->
  eval rho e = eval rho' e.
Proof.
  intros Hall. apply eval_ext. intros a Ho.
  rewrite Forall_forall in Hall. apply Hall.
  apply nodup_In, occurs_leaves, Ho.
Qed.

Lemma defined_all_denoms (rho : env R) (e : expr) :
  Forall (fun q => eval rho q <> 0) (all_denoms e) -> defined rho e.
Proof.
  induction e; simpl; intros Hall; auto;
    try (apply Forall_app in Hall; tauto).
  inversion Hall as [|q qs Hq Hrest]; subst.
  apply Forall_app in Hrest. tauto.
Qed.

(** An expression whose denominators are all non-zero is defined. *)
Lemma defined_denoms (rho : env R) (e : expr) :
  Forall (fun q => eval rho q <> 0) (denoms e) -> defined rho e.
Proof.
  intros Hall. apply defined_all_denoms.
  rewrite Forall_forall in *. intros q Hq.
  apply Hall, nodup_In, Hq.
Qed.

(** Substituting what the environment already says changes nothing. *)
Lemma eval_subs_consistent {T} `{Scalar T} (rho : env T) (e : expr)
    (s : subst) :
  (forall a r, lookup s a = Some r -> eval rho r = rho a) ->
  eval rho (subs e s) = eval rho e.
Proof.
  intros Hs. rewrite eval_subs. apply eval_ext. intros a _.
  destruct (lookup s a) eqn:E; [now apply Hs|reflexivity].
Qed.

(** *** Symbolic differentiation computes the partial derivative *)

Lemma upd_same rho a b : upd rho a (rho a) b = rho b.
Proof.
  unfold upd. destruct (atom_eqb_spec b a); congruence.
Qed.

Lemma eval_upd_same rho a e : eval (upd rho a (rho a)) e = eval rho e.
Proof. apply eval_ext. intros b _. apply upd_same. Qed.

Lemma derivable_pt_lim_eq (f : R -> R) (x l l' : R) :
  l = l' -> derivable_pt_lim f x l -> derivable_pt_lim f x l'.
Proof. now intros ->. Qed.

Theorem diff_by_correct (e : expr) (a : atom) (rho : env R) :
  a <> Sym sym_t ->
  defined rho e ->
  derivable_pt_lim (fun z => eval (upd rho a z) e) (rho a)
                   (eval rho (diff_by e a)).
Proof.
  intros Ha. induction e; simpl; intros Hdef.
  - apply derivable_pt_lim_const.
  - apply derivable_pt_lim_const.
  - unfold diff_atom, upd.
    destruct (atom_eqb_spec a0 a) as [->|Hne].
    + rewrite atom_eqb_refl. simpl. apply derivable_pt_lim_id.
    + destruct (atom_eqb_spec a a0) as [->|_]; [congruence|].
      replace (eval rho _) with 0.
      * apply (derivable_pt_lim_const (rho a0)).
      * destruct a as [[]|], a0; simpl; congruence.
  - destruct Hdef as [H1 H2].
    apply (derivable_pt_lim_plus _ _ _ _ _ (IHe1 H1) (IHe2 H2)).
  - destruct Hdef as [H1 H2].
    apply (derivable_pt_lim_minus _ _ _ _ _ (IHe1 H1) (IHe2 H2)).
  - destruct Hdef as [H1 H2].
    eapply derivable_pt_lim_eq;
      [|apply (derivable_pt_lim_mult _ _ _ _ _ (IHe1 H1) (IHe2 H2))].
    simpl. now rewrite !eval_upd_same.
  - destruct Hdef as (H1 & H2 & Hq).
    assert (Hq' : eval (upd rho a (rho a)) e2 <> 0)
      by now rewrite eval_upd_same.
    pose proof (derivable_pt_lim_div _ _ _ _ _ (IHe1 H1) (IHe2 H2) Hq') as D.
    cbv beta in D. rewrite !eval_upd_same in D.
    eapply derivable_pt_lim_eq; [|exact D].
    transitivity ((eval rho (diff_by e1 a) * eval rho e2
                   - eval rho e1 * eval rho (diff_by e2 a))
                  / (eval rho e2 * (eval rho e2 * 1))).
    + unfold Rsqr. field. assumption.
    + destruct e2; try reflexivity.
      cbn [diff_by eval s_div s_of_Z Scalar_R] in *. field. assumption.
  - apply (derivable_pt_lim_opp _ _ _ (IHe Hdef)).
  - destruct n as [|k].
    + simpl. apply (derivable_pt_lim_const 1).
    + pose proof (derivable_pt_lim_comp _ _ _ _ _ (IHe Hdef)
                    (derivable_pt_lim_pow _ (S k))) as D.
      cbv beta in D. rewrite eval_upd_same in D.
      eapply derivable_pt_lim_ext;
        [|eapply derivable_pt_lim_eq; [|exact D]].
      * intros z. unfold comp. now rewrite s_pow_R.
      * cbn [eval s_mul s_of_Z Scalar_R Nat.pred].
        rewrite s_pow_R, <- INR_IZR_INZ. reflexivity.
  - pose proof (derivable_pt_lim_comp _ _ _ _ _ (IHe Hdef)
                  (derivable_pt_lim_sin _)) as D.
    cbv beta in D. now rewrite eval_upd_same in D.
  - pose proof (derivable_pt_lim_comp _ _ _ _ _ (IHe Hdef)
                  (derivable_pt_lim_cos _)) as D.
    cbv beta in D. rewrite eval_upd_same in D.
    eapply derivable_pt_lim_eq; [|exact D]. simpl. ring.
Qed.

(** *** Non-finite values propagate *)

Lemma xlift2_None_r (f : R -> R -> R) (x : XR) : xlift2 f x None = None.
Proof. now destruct x. Qed.

Lemma xdiv_None_r (x : XR) : xdiv x None = None.
Proof. now destruct x. Qed.

Lemma xdiv_zero (a : R) : xdiv (Some a) (Some 0) = None.
Proof. unfold xdiv. destruct (Req_dec_T 0 0); congruence. Qed.

(** An expression in which a non-finite atom occurs is non-finite. *)
Lemma eval_nonfinite (rho : env XR) (a : atom) (e : expr) :
  rho a = None -> occurs a e = true -> pow_positive e = true ->
  eval rho e = None.
Proof.
  intros Ha. induction e; simpl; intros Ho Hp; try discriminate.
  - destruct (atom_eqb_spec a a0); congruence.
  - apply andb_true_iff in Hp as [Hp1 Hp2].
    apply orb_true_iff in Ho as [Ho|Ho].
    + now rewrite IHe1.
    + rewrite IHe2 by assumption. apply xlift2_None_r.
  - apply andb_true_iff in Hp as [Hp1 Hp2].
    apply orb_true_iff in Ho as [Ho|Ho].
    + now rewrite IHe1.
    + rewrite IHe2 by assumption. apply xlift2_None_r.
  - apply andb_true_iff in Hp as [Hp1 Hp2].
    apply orb_true_iff in Ho as [Ho|Ho].
    + now rewrite IHe1.
    + rewrite IHe2 by assumption. apply xlift2_None_r.
  - apply andb_true_iff in Hp as [Hp1 Hp2].
    apply orb_true_iff in Ho as [Ho|Ho].
    + now rewrite IHe1.
    + rewrite IHe2 by assumption. apply xdiv_None_r.
  - now rewrite IHe.
  - apply andb_true_iff in Hp as [Hn Hp].
    destruct n as [|k]; [discriminate|].
    simpl. now rewrite IHe.
  - now rewrite IHe.
  - now rewrite IHe.
Qed.

(** Entry [(i, j)] of a matrix of expressions evaluated entry by entry. *)
Lemma nth_map_eval (rho : env R) (M : list (list expr)) (i j : nat) :
  nth j (nth i (map (map (eval rho)) M) []) 0
  = eval rho (nth j (nth i M []) (Int 0)).
Proof.
  change (@nil R) with (map (eval rho) []).
  rewrite map_nth.
  change 0 with (eval rho (Int 0)).
  apply map_nth.
Qed.

End SympyFacts.

(** ** Facts about time grids *)

Module NumpyFacts.
Import Numpy.
Open Scope Q_scope.

Lemma arange_length (a b s : Q) :
  length (arange a b s) = Z.to_nat (Qceiling ((b - a) / s)).
Proof. unfold arange. now rewrite length_map, length_seq. Qed.

Lemma arange_nth (a b s d : Q) (i : nat) :
  (i < length (arange a b s))%nat ->
  nth i (arange a b s) d = a + inject_Z (Z.of_nat i) * s.
Proof.
  intros Hi. rewrite arange_length in Hi. unfold arange.
  rewrite nth_indep with (d' := a + inject_Z (Z.of_nat 0) * s)
    by now rewrite length_map, length_seq.
  rewrite (map_nth (fun i => a + inject_Z (Z.of_nat i) * s)).
  now rewrite seq_nth.
Qed.

(** Consecutive sample times are [s] apart. *)
Lemma arange_spacing (a b s d : Q) (i : nat) :
  (S i < length (arange a b s))%nat ->
  nth (S i) (arange a b s) d - nth i (arange a b s) d == s.
Proof.
  intros Hi. rewrite !arange_nth by lia.
  rewrite Nat2Z.inj_succ. unfold Z.succ. rewrite inject_Z_plus. ring.
Qed.

(** For a positive step the samples lie in the half-open interval
    [[a, b)]. *)
Lemma arange_bounds (a b s t : Q) :
  0 < s -> In t (arange a b s) -> a <= t /\ t < b.
Proof.
  intros Hs Hin. unfold arange in Hin.
  apply in_map_iff in Hin as (i & <- & Hi).
  apply in_seq in Hi. destruct Hi as [_ Hi]. simpl in Hi.
  assert (Hi' : (Z.of_nat i <= Qceiling ((b - a) / s) - 1)%Z) by lia.
  split.
  - rewrite <- (Qplus_0_r a) at 1. apply Qplus_le_r.
    apply Qmult_le_0_compat; [|now apply Qlt_le_weak].
    change 0 with (inject_Z 0). rewrite <- Zle_Qle. lia.
  - assert (Hlt : inject_Z (Z.of_nat i) < (b - a) / s).
    { eapply Qle_lt_trans; [|apply Qceiling_lt]. now rewrite <- Zle_Qle. }
    apply (Qmult_lt_compat_r _ _ s Hs) in Hlt.
    assert (E : (b - a) / s * s == b - a)
      by (field; intros E0; rewrite E0 in Hs; discriminate).
    rewrite E in Hlt.
    apply Qplus_lt_r with (z := a) in Hlt.
    setoid_replace (a + (b - a)) with b in Hlt by ring.
    exact Hlt.
Qed.

(** From a start not after the stop, the count is the ceiling itself. *)
Lemma arange_count (a b s : Q) :
  0 < s -> a <= b ->
  Z.of_nat (length (arange a b s)) = Qceiling ((b - a) / s).
Proof.
  intros Hs Hab. rewrite arange_length.
  assert (H0 : (0 <= Qceiling ((b - a) / s))%Z).
  { change 0%Z with (Qceiling 0). apply Qceiling_resp_le.
    apply Qle_shift_div_l; [assumption|].
    rewrite Qmult_0_l. unfold Qminus.
    rewrite <- (Qplus_opp_r a). apply Qplus_le_l. exact Hab. }
  lia.
Qed.

End NumpyFacts.

(** ** Where [np.pi] lies *)

Module PiFacts.
Import Numpy.
Open Scope R_scope.

Lemma Q2R_qpow (q : Q) (n : nat) : Q2R (qpow q n) = Q2R q ^ n.
Proof.
  induction n as [|n IH]; simpl.
  - unfold Q2R. simpl. field.
  - now rewrite Q2R_mult, IH.
Qed.

Lemma Q2R_inject_nat (n : nat) : Q2R (inject_Z (Z.of_nat n)) = INR n.
Proof. unfold Q2R. simpl. rewrite INR_IZR_INZ. field. Qed.

Lemma Q2R_machin_term (n : nat) :
  Q2R (machin_term n) = tg_alt PI_2_3_7_tg n.
Proof.
  unfold machin_term, tg_alt, PI_2_3_7_tg, Ratan_seq.
  assert (Hn : ~ (inject_Z (Z.of_nat (2 * n + 1)) == 0)%Q).
  { unfold Qeq. simpl. lia. }
  rewrite Q2R_mult, Q2R_plus, Q2R_mult, !Q2R_div, !Q2R_qpow, Q2R_inject_nat
    by exact Hn.
  replace (Q2R (-1)) with (-1) by (unfold Q2R; simpl; field).
  replace (Q2R 2) with 2 by (unfold Q2R; simpl; field).
  replace (Q2R (1 # 3)) with (/ 3) by (unfold Q2R; simpl; field).
  replace (Q2R (1 # 7)) with (/ 7) by (unfold Q2R; simpl; field).
  reflexivity.
Qed.

Lemma Q2R_machin_sum (n : nat) :
  Q2R (machin_sum n) = sum_f_R0 (tg_alt PI_2_3_7_tg) n.
Proof.
  induction n as [|n IH].
  - apply Q2R_machin_term.
  - cbn [machin_sum sum_f_R0].
    rewrite (Qeq_eqR _ _ (Qred_correct _)), Q2R_plus, IH, Q2R_machin_term.
    reflexivity.
Qed.

(** The partial sums enclose pi: odd ones from below, even ones from
    above. *)
Lemma pi_between (N : nat) :
  4 * Q2R (machin_sum (S (2 * N))) <= PI <= 4 * Q2R (machin_sum (2 * N)).
Proof.
  rewrite !Q2R_machin_sum. pose proof (PI_2_3_7_ineq N). lra.
Qed.

Lemma Q2R_4 : Q2R 4 = 4.
Proof. unfold Q2R. simpl. field. Qed.

Lemma Q2R_margin (k : Z) :
  Q2R (np_pi_Q + (k # 100000000000000000)) = Q2R np_pi_Q + IZR k / 10 ^ 17.
Proof.
  rewrite Q2R_plus. f_equal. unfold Q2R. cbn [Qnum Qden].
  replace (10 ^ 17) with (IZR 100000000000000000); [reflexivity|].
  rewrite (pow_IZR 10 17). reflexivity.
Qed.

Lemma np_pi_value : (np_pi : R) = Q2R np_pi_Q.
Proof. reflexivity. Qed.

(** [np.pi] is below pi, by a little more than [1.2e-16]. *)
Lemma np_pi_gap : 12 / 10 ^ 17 < PI - np_pi < 13 / 10 ^ 17.
Proof.
  rewrite np_pi_value. split.
  - apply Rplus_lt_reg_r with (Q2R np_pi_Q).
    replace (PI - Q2R np_pi_Q + Q2R np_pi_Q) with PI by ring.
    rewrite Rplus_comm.
    apply Rlt_le_trans with (4 * Q2R (machin_sum 17)); [|apply (pi_between 8)].
    rewrite <- (Q2R_margin 12), <- Q2R_4, <- Q2R_mult.
    apply Qlt_Rlt. vm_compute. reflexivity.
  - apply Rplus_lt_reg_r with (Q2R np_pi_Q).
    replace (PI - Q2R np_pi_Q + Q2R np_pi_Q) with PI by ring.
    rewrite (Rplus_comm (13 / 10 ^ 17)).
    apply Rle_lt_trans with (4 * Q2R (machin_sum 16)); [apply (pi_between 8)|].
    rewrite <- (Q2R_margin 13), <- Q2R_4, <- Q2R_mult.
    apply Qlt_Rlt. vm_compute. reflexivity.
Qed.

Lemma small_margin : 0 < 13 / 10 ^ 17 < / 1000.
Proof.
  assert (H : 100000 <= 10 ^ 17).
  { replace 100000 with (10 ^ 5) by (simpl; ring).
    apply Rle_pow; [lra|lia]. }
  split; [apply Rdiv_lt_0_compat; lra|].
  apply Rmult_lt_reg_r with (10 ^ 17); [lra|].
  unfold Rdiv. rewrite Rmult_assoc, Rinv_l by lra. lra.
Qed.

(** The sine of [np.pi] is positive, and so not zero; its cosine is
    negative. *)
Lemma np_pi_trig :
  0 < sin np_pi < 13 / 10 ^ 17 /\ -1 <= cos np_pi < 0.
Proof.
  pose proof np_pi_gap as [Hlo Hhi]. pose proof small_margin as [_ Hs].
  assert (Hpos : 0 < 12 / 10 ^ 17).
  { apply Rdiv_lt_0_compat; [lra|apply pow_lt; lra]. }
  set (d := PI - np_pi) in *.
  assert (Hd : (np_pi : R) = PI - d) by (unfold d; ring).
  pose proof PI2_3_2 as Hpi. rewrite Hd.
  rewrite sin_PI_x.
  replace (cos (PI - d)) with (- cos d)
    by (rewrite cos_minus, cos_PI, sin_PI; ring).
  assert (Hsin : 0 < sin d) by (apply sin_gt_0; lra).
  assert (Hsin' : sin d < d) by (apply sin_lt_x; lra).
  assert (Hcos : 0 < cos d) by (apply cos_gt_0; lra).
  pose proof (COS_bound d) as [_ Hc1].
  repeat split; lra.
Qed.

End PiFacts.

(** ** Facts about notebook 1 *)

Module LagrangianFacts.
Import Sympy Numpy Scipy Lagrangian SympyFacts.
Open Scope R_scope.

(** Compute the atoms of a concrete expression and check an agreement of
    two environments atom by atom. *)
Ltac agree_on_atoms :=
  apply eval_ext_atoms;
  match goal with
  | |- Forall _ (atoms ?e) => by_value (atoms e)
  end;
  repeat constructor.

(** Every atom of the lambdified expressions is one of the formal
    arguments, so no call reads an unbound name. *)
Lemma lambdified_closed :
  forallb (fun a => existsb (fun f => match f with
                                      | At b => atom_eqb a b
                                      | _ => false
                                      end) formals)
          (atoms y1dd ++ atoms y2dd) = true.
Proof. vm_compute. reflexivity. Qed.

(** The lambdified accelerations evaluate the solved expressions. *)
Lemma y1dd_function_eval {T} `{Scalar T} (x1 v1 x2 v2 t u m1 m2 l g : T) :
  y1dd_function [x1; v1; x2; v2; t; u; m1; m2; l; g]
  = eval (env_L (x1, v1, x2, v2) u m1 m2 l g) x1dd_val.
Proof.
  unfold y1dd_function, lambdify, y1dd, x1dd_val.
  rewrite eval_subs. agree_on_atoms.
Qed.

Lemma y2dd_function_eval {T} `{Scalar T} (x1 v1 x2 v2 t u m1 m2 l g : T) :
  y2dd_function [x1; v1; x2; v2; t; u; m1; m2; l; g]
  = eval (env_L (x1, v1, x2, v2) u m1 m2 l g) x2dd_val.
Proof.
  unfold y2dd_function, lambdify, y2dd, x2dd_val.
  rewrite eval_subs. agree_on_atoms.
Qed.

(** Replace [sin x] and [cos x] by two reals with [s * s + c * c = 1]. *)
Ltac trig x s c Hsc :=
  pose proof (sin2_cos2 x) as Hsc; unfold Rsqr in Hsc;
  revert Hsc; generalize (sin x) (cos x); intros s c Hsc.

(** Polynomial identity modulo the hypotheses. *)
Ltac poly := simpl pow; nsatz.

Lemma y1dd_function_closed (x1 v1 x2 v2 t u m1 m2 l g : R) :
  m2 <> 0 -> l <> 0 -> m1 + m2 * (sin x2 * sin x2) <> 0 ->
  y1dd_function [x1; v1; x2; v2; t; u; m1; m2; l; g]
  = accel_cart x2 v2 u m1 m2 l g.
Proof.
  intros Hm2 Hl. unfold accel_cart, y1dd_function, lambdify.
  by_value y1dd.
  cbn. trig x2 s c Hsc. intros Hd.
  match goal with
  | |- _ / ?d = _ =>
      assert (Hdet : d = m2 * (l * l) * (m1 + m2 * (s * s)))
        by (field_simplify_eq; poly);
      rewrite Hdet
  end.
  field_simplify_eq; [poly|repeat split; assumption].
Qed.

Lemma y2dd_function_closed (x1 v1 x2 v2 t u m1 m2 l g : R) :
  m2 <> 0 -> l <> 0 -> m1 + m2 * (sin x2 * sin x2) <> 0 ->
  y2dd_function [x1; v1; x2; v2; t; u; m1; m2; l; g]
  = accel_pend x2 v2 u m1 m2 l g.
Proof.
  intros Hm2 Hl. unfold accel_pend, y2dd_function, lambdify.
  by_value y2dd.
  cbn. trig x2 s c Hsc. intros Hd.
  match goal with
  | |- _ / ?d = _ =>
      assert (Hdet : d = m2 * (l * l) * (m1 + m2 * (s * s)))
        by (field_simplify_eq; poly);
      rewrite Hdet
  end.
  field_simplify_eq; [poly|repeat split; assumption].
Qed.


(** What [solve] returned for the Euler-Lagrange equations does solve
    them. *)
Lemma solve_DEs_sound (X : State R) (u m1 m2 l g : R) :
  m2 <> 0 -> l <> 0 ->
  m1 + m2 * (sin (getitem 2 X) * sin (getitem 2 X)) <> 0 ->
  let rho := env_L X u m1 m2 l g in
  let rho' := upd (upd rho (Fn fn_x1 2) (eval rho (fst DEexplicit)))
                  (Fn fn_x2 2) (eval rho (snd DEexplicit)) in
  eval rho' (fst DEs) = 0 /\ eval rho' (snd DEs) = 0.
Proof.
  intros Hm2 Hl. destruct X as [[[x1 v1] x2] v2]. cbn [getitem].
  intros Hd. cbv zeta.
  change (fst DEexplicit) with x1dd_val.
  change (snd DEexplicit) with x2dd_val.
  rewrite <- (y1dd_function_eval x1 v1 x2 v2 0),
          <- (y2dd_function_eval x1 v1 x2 v2 0).
  rewrite y1dd_function_closed, y2dd_function_closed by assumption.
  unfold accel_cart, accel_pend.
  by_value DEs. cbn.
  revert Hd. trig x2 s c Hsc. intros Hd.
  split; (field_simplify_eq; [poly|repeat split; assumption]).
Qed.

(** The dynamics function with a pure control law, in closed form. *)
Lemma get_PendulumCartRates_closed
    (x1 v1 x2 v2 t : R) (uf : State R -> R) (m1 m2 l g : R) :
  m2 <> 0 -> l <> 0 -> m1 + m2 * (sin x2 * sin x2) <> 0 ->
  get_PendulumCartRates (M := Id) (x1, v1, x2, v2) t uf m1 m2 l g
  = (v1, accel_cart x2 v2 (uf (x1, v1, x2, v2)) m1 m2 l g,
     v2, accel_pend x2 v2 (uf (x1, v1, x2, v2)) m1 m2 l g).
Proof.
  intros Hm2 Hl Hd. cbv [get_PendulumCartRates bind ret Monad_Id].
  now rewrite y1dd_function_closed, y2dd_function_closed.
Qed.

(** With a control law that logs its argument, one evaluation of the
    dynamics function logs exactly the state it was given. *)
Lemma get_PendulumCartRates_logged {T} `{Scalar T}
    (X : State T) (t : T) (uf : State T -> T) (m1 m2 l g : T) :
  get_PendulumCartRates (M := Logged (State T)) X t (logging uf) m1 m2 l g
  = (get_PendulumCartRates (M := Id) X t uf m1 m2 l g, [X]).
Proof.
  destruct X as [[[x1 v1] x2] v2].
  cbv [get_PendulumCartRates bind ret Monad_Logged Monad_Id logging app].
  reflexivity.
Qed.

(** *** The Jacobian of the dynamics function *)

Lemma Xs_state_atoms : Xs = map At (map state_atom (seq 0 4)).
Proof. reflexivity. Qed.

Lemma rates_eval {T} `{Scalar T} (X : State T) (t u m1 m2 l g : T) (i : nat) :
  (i < 4)%nat ->
  getitem i (get_PendulumCartRates (M := Id) X t (fun _ => u) m1 m2 l g)
  = eval (env_L X u m1 m2 l g) (nth i Xds (Int 0)).
Proof.
  intros Hi. destruct X as [[[x1 v1] x2] v2].
  cbv [get_PendulumCartRates bind ret Monad_Id].
  rewrite y1dd_function_eval, y2dd_function_eval.
  destruct i as [|[|[|[|i]]]]; try lia; reflexivity.
Qed.

Lemma env_L_setitem (X : State R) (u m1 m2 l g z : R) (j : nat) (b : atom) :
  (j < 4)%nat ->
  env_L (setitem j z X) u m1 m2 l g b
  = upd (env_L X u m1 m2 l g) (state_atom j) z b.
Proof.
  intros Hj. destruct X as [[[x1 v1] x2] v2].
  destruct j as [|[|[|[|j]]]]; try lia;
    destruct b as [[]|[] [|[|n]]]; reflexivity.
Qed.

Lemma env_L_control (X : State R) (u m1 m2 l g z : R) (b : atom) :
  env_L X z m1 m2 l g b = upd (env_L X u m1 m2 l g) (Sym sym_u) z b.
Proof.
  destruct X as [[[x1 v1] x2] v2].
  destruct b as [[]|[] [|[|n]]]; reflexivity.
Qed.

(** Away from a singular mass matrix every denominator of the solved
    expressions is non-zero. *)
Lemma Xds_defined (X : State R) (u m1 m2 l g : R) (i : nat) :
  m2 <> 0 -> l <> 0 ->
  m1 + m2 * (sin (getitem 2 X) * sin (getitem 2 X)) <> 0 ->
  defined (env_L X u m1 m2 l g) (nth i Xds (Int 0)).
Proof.
  intros Hm2 Hl. destruct X as [[[x1 v1] x2] v2]. cbn [getitem]. intros Hd.
  apply defined_denoms.
  destruct i as [|[|[|[|i]]]];
    try (destruct i; constructor);
    match goal with
    | |- Forall _ (denoms ?e) => by_value (denoms e)
    end;
    repeat constructor; cbn; try lra;
    revert Hd; trig x2 s c Hsc; intros Hd;
    match goal with
    | |- ?d <> 0 =>
        replace d with (m2 * (l * l) * (m1 + m2 * (s * s)))
          by (field_simplify_eq; poly)
    end;
    repeat apply Rmult_integral_contrapositive_currified; assumption.
Qed.

Lemma state_atom_not_time (j : nat) : (j < 4)%nat -> state_atom j <> Sym sym_t.
Proof. destruct j as [|[|[|[|j]]]]; try lia; discriminate. Qed.

Lemma env_L_state_atom (X : State R) (u m1 m2 l g : R) (j : nat) :
  (j < 4)%nat -> env_L X u m1 m2 l g (state_atom j) = getitem j X.
Proof.
  destruct X as [[[x1 v1] x2] v2].
  destruct j as [|[|[|[|j]]]]; try lia; reflexivity.
Qed.

(** At every state with a regular mass matrix, the symbolic derivative
    of the [i]-th rate by the [j]-th state variable is the partial
    derivative of the dynamics function. *)
Lemma jacobian_state (X : State R) (t u m1 m2 l g : R) (i j : nat) :
  m2 <> 0 -> l <> 0 ->
  m1 + m2 * (sin (getitem 2 X) * sin (getitem 2 X)) <> 0 ->
  (i < 4)%nat -> (j < 4)%nat ->
  derivable_pt_lim
    (fun z => getitem i (get_PendulumCartRates (M := Id) (setitem j z X) t
                           (fun _ => u) m1 m2 l g))
    (getitem j X)
    (eval (env_L X u m1 m2 l g) (diff_by (nth i Xds (Int 0)) (state_atom j))).
Proof.
  intros Hm2 Hl Hd Hi Hj.
  apply derivable_pt_lim_ext
    with (f := fun z => eval (upd (env_L X u m1 m2 l g) (state_atom j) z)
                             (nth i Xds (Int 0))).
  - intros z. rewrite rates_eval by assumption.
    symmetry. apply eval_ext. intros a _. now apply env_L_setitem.
  - rewrite <- (env_L_state_atom X u m1 m2 l g j Hj).
    apply diff_by_correct.
    + now apply state_atom_not_time.
    + now apply Xds_defined.
Qed.

Lemma jacobian_control (X : State R) (t u m1 m2 l g : R) (i : nat) :
  m2 <> 0 -> l <> 0 ->
  m1 + m2 * (sin (getitem 2 X) * sin (getitem 2 X)) <> 0 ->
  (i < 4)%nat ->
  derivable_pt_lim
    (fun z => getitem i (get_PendulumCartRates (M := Id) X t
                           (fun _ => z) m1 m2 l g))
    u
    (eval (env_L X u m1 m2 l g) (diff_by (nth i Xds (Int 0)) (Sym sym_u))).
Proof.
  intros Hm2 Hl Hd Hi.
  apply derivable_pt_lim_ext
    with (f := fun z => eval (upd (env_L X u m1 m2 l g) (Sym sym_u) z)
                             (nth i Xds (Int 0))).
  - intros z. rewrite rates_eval by assumption.
    symmetry. apply eval_ext. intros a _. apply (env_L_control X u).
  - replace u with (env_L X u m1 m2 l g (Sym sym_u)) at 1
      by (destruct X as [[[x1 v1] x2] v2]; reflexivity).
    apply diff_by_correct; [discriminate|now apply Xds_defined].
Qed.

Lemma A_sp_entry (i j : nat) :
  (i < 4)%nat -> (j < 4)%nat ->
  nth j (nth i A_sp []) (Int 0)
  = subs (simplify (diff_by (nth i Xds (Int 0)) (state_atom j)))
         subs_stationary.
Proof.
  intros Hi Hj.
  destruct i as [|[|[|[|i]]]]; try lia;
    destruct j as [|[|[|[|j]]]]; try lia; reflexivity.
Qed.

Lemma B_sp_entry (i : nat) :
  (i < 4)%nat ->
  nth 0 (nth i B_sp []) (Int 0)
  = subs (simplify (diff_by (nth i Xds (Int 0)) (Sym sym_u)))
         subs_stationary.
Proof.
  intros Hi. destruct i as [|[|[|[|i]]]]; try lia; reflexivity.
Qed.

(** The stationary-point substitution fixes the angle and the two rates:
    in any environment, an expression after the substitution has the
    value that the expression has at the upright state, with the cart
    where the environment has it. *)
Lemma subs_stationary_fixes (X : State R) (u m1 m2 l g : R) (e : expr) :
  eval (env_L X u m1 m2 l g) (subs e subs_stationary)
  = eval (env_L (getitem 0 X, 0, PI, 0) u m1 m2 l g) e.
Proof.
  rewrite eval_subs. apply eval_ext. intros a _.
  destruct X as [[[x1 v1] x2] v2].
  destruct a as [[]|[] [|[|n]]]; reflexivity.
Qed.

(** The cart position occurs in no entry of [A_sp] or [B_sp]. *)
Lemma A_sp_entry_free (i j : nat) :
  (i < 4)%nat -> (j < 4)%nat ->
  occurs (Fn fn_x1 0) (nth j (nth i A_sp []) (Int 0)) = false.
Proof.
  intros Hi Hj.
  destruct i as [|[|[|[|i]]]]; try lia;
    destruct j as [|[|[|[|j]]]]; try lia; vm_compute; reflexivity.
Qed.

Lemma B_sp_entry_free (i : nat) :
  (i < 4)%nat ->
  occurs (Fn fn_x1 0) (nth 0 (nth i B_sp []) (Int 0)) = false.
Proof.
  intros Hi.
  destruct i as [|[|[|[|i]]]]; try lia; vm_compute; reflexivity.
Qed.

(** An expression in which the cart position does not occur has one
    value wherever the cart is. *)
Lemma eval_cart_moved (X : State R) (x1 u m1 m2 l g : R) (e : expr) :
  occurs (Fn fn_x1 0) e = false ->
  eval (env_L X u m1 m2 l g) e
  = eval (env_L (setitem 0 x1 X) u m1 m2 l g) e.
Proof.
  intros Hfree. apply eval_ext. intros a Ha.
  rewrite env_L_setitem by lia. unfold upd.
  destruct (atom_eqb_spec a (state_atom 0)) as [->|_]; [|reflexivity].
  change (state_atom 0) with (Fn fn_x1 0) in Ha. congruence.
Qed.

Lemma upright_regular (m1 m2 : R) (X : State R) :
  0 < m1 -> getitem 2 X = PI ->
  m1 + m2 * (sin (getitem 2 X) * sin (getitem 2 X)) <> 0.
Proof. intros Hm1 ->. rewrite sin_PI. lra. Qed.

(** [A_sp] and [B_sp], evaluated at any state whatever, are the
    Jacobians of the dynamics function at the upright state, for any cart
    position and any nominal control. *)
Lemma A_sp_is_jacobian (m1 m2 l g x1 u t : R) (X : State R) (i j : nat) :
  0 < m1 -> 0 < m2 -> 0 < l -> (i < 4)%nat -> (j < 4)%nat ->
  let Xeq : State R := (x1, 0, PI, 0) in
  let A := map (map (eval (env_L X u m1 m2 l g))) A_sp in
  derivable_pt_lim
    (fun z => getitem i (get_PendulumCartRates (M := Id) (setitem j z Xeq) t
                           (fun _ => u) m1 m2 l g))
    (getitem j Xeq) (nth j (nth i A []) 0).
Proof.
  intros Hm1 Hm2 Hl Hi Hj Xeq A. unfold A.
  rewrite nth_map_eval.
  rewrite (eval_cart_moved X x1) by now apply A_sp_entry_free.
  rewrite A_sp_entry by assumption.
  rewrite subs_stationary_fixes, eval_simplify.
  replace (getitem 0 (setitem 0 x1 X)) with x1
    by (destruct X as [[[? ?] ?] ?]; reflexivity).
  apply jacobian_state; try assumption; try lra.
  now apply upright_regular.
Qed.

Lemma B_sp_is_jacobian (m1 m2 l g x1 u t : R) (X : State R) (i : nat) :
  0 < m1 -> 0 < m2 -> 0 < l -> (i < 4)%nat ->
  let Xeq : State R := (x1, 0, PI, 0) in
  let B := map (map (eval (env_L X u m1 m2 l g))) B_sp in
  derivable_pt_lim
    (fun z => getitem i (get_PendulumCartRates (M := Id) Xeq t
                           (fun _ => z) m1 m2 l g))
    u (nth 0 (nth i B []) 0).
Proof.
  intros Hm1 Hm2 Hl Hi Xeq B. unfold B.
  rewrite nth_map_eval.
  rewrite (eval_cart_moved X x1) by now apply B_sp_entry_free.
  rewrite B_sp_entry by assumption.
  rewrite subs_stationary_fixes, eval_simplify.
  replace (getitem 0 (setitem 0 x1 X)) with x1
    by (destruct X as [[[? ?] ?] ?]; reflexivity).
  apply jacobian_control; try assumption; try lra.
  now apply upright_regular.
Qed.

(** The linearisation of the notebook, as numbers. *)
Lemma A_np_value :
  A_np = [ [0; 1; 0; 0]; [0; 0; 10; 0]; [0; 0; 0; 1]; [0; 0; 20; 0] ].
Proof.
  unfold A_np, to_number.
  by_value A_sp.
  cbn. rewrite ?sin_PI, ?cos_PI.
  repeat (f_equal; try reflexivity); field_simplify; lra.
Qed.

(** Whatever values the atoms left after [param_subs] are given, the
    entries are the same numbers. *)
Lemma A_np_closed (rho : env R) :
  map (map (fun e => eval rho (subs e param_subs))) A_sp = A_np.
Proof.
  rewrite A_np_value. by_value A_sp.
  cbn. rewrite ?sin_PI, ?cos_PI.
  repeat (f_equal; try reflexivity); field_simplify; lra.
Qed.

Lemma B_np_value : B_np = [ [0]; [1]; [0]; [1] ].
Proof.
  unfold B_np, to_number.
  by_value B_sp.
  cbn. rewrite ?sin_PI, ?cos_PI.
  repeat (f_equal; try reflexivity); field_simplify; lra.
Qed.


Lemma B_np_closed (rho : env R) :
  map (map (fun e => eval rho (subs e param_subs))) B_sp = B_np.
Proof.
  rewrite B_np_value. by_value B_sp.
  cbn. rewrite ?sin_PI, ?cos_PI.
  repeat (f_equal; try reflexivity); field_simplify; lra.
Qed.


(** The linearised pair is controllable: no non-zero row vector is
    orthogonal to [B], [A B], [A^2 B] and [A^3 B].  This is the
    precondition under which a stabilising gain exists. *)
Lemma linearisation_controllable (w1 w2 w3 w4 : R) :
  let col (v : list (list R)) := map (fun r => nth 0 r 0) v in
  let mul (M : list (list R)) (v : list R) :=
    map (fun row => fold_right Rplus 0 (map (fun ab => fst ab * snd ab)
                                            (combine row v))) M in
  let dotw (v : list R) :=
    fold_right Rplus 0 (map (fun ab => fst ab * snd ab)
                            (combine [w1; w2; w3; w4] v)) in
  let b := col B_np in
  dotw b = 0 -> dotw (mul A_np b) = 0 ->
  dotw (mul A_np (mul A_np b)) = 0 ->
  dotw (mul A_np (mul A_np (mul A_np b))) = 0 ->
  w1 = 0 /\ w2 = 0 /\ w3 = 0 /\ w4 = 0.
Proof.
  rewrite A_np_value, B_np_value. cbn. intros H0 H1 H2 H3.
  repeat split; lra.
Qed.

End LagrangianFacts.
(** ** Facts about notebook 2 *)

Module HamiltonianFacts.
Import Sympy Numpy Scipy Hamiltonian SympyFacts.
Import LagrangianFacts.
Open Scope R_scope.

(** Every atom of the lambdified expressions is one of the formal
    arguments. *)
Lemma lambdified_closed_H :
  forallb (fun a => existsb (fun f => match f with
                                      | At b => atom_eqb a b
                                      | _ => false
                                      end) formals)
          (flat_map atoms DE_eqs) = true.
Proof. vm_compute. reflexivity. Qed.

Lemma rates_H_eval {T} `{Scalar T} (X : State T) (t u m1 m2 l g : T) :
  get_PendulumCartRates_Hamiltonian (M := Id) X t (fun _ => u) m1 m2 l g
  = map (eval (env_H X t u m1 m2 l g)) Xds.
Proof.
  destruct X as [[[x1 p1] x2] p2].
  cbv [get_PendulumCartRates_Hamiltonian bind ret Monad_Id DE_funcs DE_eqs
       Xds to_eq lambdify env_H map].
  reflexivity.
Qed.

Lemma det_expr_value (x1 p1 x2 p2 t u m1 m2 l g : R) :
  eval (env_H (x1, p1, x2, p2) t u m1 m2 l g) det_expr
  = m2 * (l * l) * (m1 + m2 * (sin x2 * sin x2)).
Proof.
  by_value det_expr.
  cbn. trig x2 s c Hsc. field_simplify_eq. poly.
Qed.

(** Put the determinant in product form wherever it occurs. *)
Ltac name_det x1 p1 x2 p2 t u m1 m2 l g :=
  let Hdet := fresh "Hdet" in
  pose proof (det_expr_value x1 p1 x2 p2 t u m1 m2 l g) as Hdet;
  let e := eval vm_compute in det_expr in
  let E := fresh "E" in
  assert (E : det_expr = e) by (vm_compute; reflexivity);
  rewrite E in Hdet; clear E;
  cbn in Hdet; rewrite !Hdet; clear Hdet.

Lemma x1d_exp_closed (x1 p1 x2 p2 t u m1 m2 l g : R) :
  m2 <> 0 -> l <> 0 -> m1 + m2 * (sin x2 * sin x2) <> 0 ->
  eval (env_H (x1, p1, x2, p2) t u m1 m2 l g) x1d_exp
  = vel_cart p1 x2 p2 m1 m2 l.
Proof.
  intros Hm2 Hl. unfold vel_cart.
  by_value x1d_exp.
  cbn. name_det x1 p1 x2 p2 t u m1 m2 l g.
  trig x2 s c Hsc. intros Hd.
  field_simplify_eq; [poly|repeat split; assumption].
Qed.

Lemma x2d_exp_closed (x1 p1 x2 p2 t u m1 m2 l g : R) :
  m2 <> 0 -> l <> 0 -> m1 + m2 * (sin x2 * sin x2) <> 0 ->
  eval (env_H (x1, p1, x2, p2) t u m1 m2 l g) x2d_exp
  = vel_pend p1 x2 p2 m1 m2 l.
Proof.
  intros Hm2 Hl. unfold vel_pend.
  by_value x2d_exp.
  cbn. name_det x1 p1 x2 p2 t u m1 m2 l g.
  trig x2 s c Hsc. intros Hd.
  field_simplify_eq; [poly|repeat split; assumption].
Qed.

Lemma p1d_exp_closed (x1 p1 x2 p2 t u m1 m2 l g : R) :
  eval (env_H (x1, p1, x2, p2) t u m1 m2 l g) p1d_exp = - u.
Proof. by_value p1d_exp. cbn. ring. Qed.


Lemma p2d_exp_closed (x1 p1 x2 p2 t u m1 m2 l g : R) :
  m2 <> 0 -> l <> 0 -> m1 + m2 * (sin x2 * sin x2) <> 0 ->
  eval (env_H (x1, p1, x2, p2) t u m1 m2 l g) p2d_exp
  = force_pend p1 x2 p2 m1 m2 l g.
Proof.
  intros Hm2 Hl. unfold force_pend.
  by_value p2d_exp.
  cbn. name_det x1 p1 x2 p2 t u m1 m2 l g.
  trig x2 s c Hsc. intros Hd.
  field_simplify_eq; [poly|repeat split; assumption].
Qed.


(** What [solve] returned for the momentum equations does solve them. *)
Lemma solve_momentum_sound (x1 p1 x2 p2 t u m1 m2 l g : R) :
  m2 <> 0 -> l <> 0 -> m1 + m2 * (sin x2 * sin x2) <> 0 ->
  let rho := env_H (x1, p1, x2, p2) t u m1 m2 l g in
  let sol := map (fun kv => eval rho (snd kv)) vels_sol in
  let rho' := upd (upd rho (Fn fn_x1 1) (nth 0 sol 0))
                  (Fn fn_x2 1) (nth 1 sol 0) in
  eval rho' (fst conjugate_momentum_eqs) = 0
  /\ eval rho' (snd conjugate_momentum_eqs) = 0.
Proof.
  intros Hm2 Hl Hd. cbv zeta.
  by_value vels_sol. by_value conjugate_momentum_eqs.
  cbn. name_det x1 p1 x2 p2 t u m1 m2 l g.
  revert Hd. trig x2 s c Hsc. intros Hd.
  split; (field_simplify_eq; [poly|repeat split; assumption]).
Qed.

(** *** The Jacobian of the Hamiltonian dynamics function *)

Lemma Xs_state_atoms_H : Xs = map At (map state_atom_H (seq 0 4)).
Proof. reflexivity. Qed.

Lemma rates_H_nth (X : State R) (t u m1 m2 l g : R) (i : nat) :
  nth i (get_PendulumCartRates_Hamiltonian (M := Id) X t (fun _ => u)
           m1 m2 l g) 0
  = eval (env_H X t u m1 m2 l g) (nth i Xds (Int 0)).
Proof.
  rewrite rates_H_eval.
  change 0 with (eval (env_H X t u m1 m2 l g) (Int 0)).
  apply map_nth.
Qed.

Lemma env_H_setitem (X : State R) (t u m1 m2 l g z : R) (j : nat)
    (b : atom) :
  (j < 4)%nat ->
  env_H (setitem j z X) t u m1 m2 l g b
  = upd (env_H X t u m1 m2 l g) (state_atom_H j) z b.
Proof.
  intros Hj. destruct X as [[[x1 p1] x2] p2].
  destruct j as [|[|[|[|j]]]]; try lia;
    destruct b as [[]|[] [|[|n]]]; reflexivity.
Qed.

Lemma env_H_control (X : State R) (t u m1 m2 l g z : R) (b : atom) :
  env_H X t z m1 m2 l g b = upd (env_H X t u m1 m2 l g) (Sym sym_u) z b.
Proof.
  destruct X as [[[x1 p1] x2] p2].
  destruct b as [[]|[] [|[|n]]]; reflexivity.
Qed.

Lemma env_H_state_atom (X : State R) (t u m1 m2 l g : R) (j : nat) :
  (j < 4)%nat -> env_H X t u m1 m2 l g (state_atom_H j) = getitem j X.
Proof.
  destruct X as [[[x1 p1] x2] p2].
  destruct j as [|[|[|[|j]]]]; try lia; reflexivity.
Qed.

Lemma state_atom_H_not_time (j : nat) :
  (j < 4)%nat -> state_atom_H j <> Sym sym_t.
Proof. destruct j as [|[|[|[|j]]]]; try lia; discriminate. Qed.

Lemma Xds_defined_H (X : State R) (t u m1 m2 l g : R) (i : nat) :
  m2 <> 0 -> l <> 0 ->
  m1 + m2 * (sin (getitem 2 X) * sin (getitem 2 X)) <> 0 ->
  defined (env_H X t u m1 m2 l g) (nth i Xds (Int 0)).
Proof.
  intros Hm2 Hl. destruct X as [[[x1 p1] x2] p2]. cbn [getitem]. intros Hd.
  assert (Hdet : m2 * (l * l) * (m1 + m2 * (sin x2 * sin x2)) <> 0)
    by (repeat apply Rmult_integral_contrapositive_currified; assumption).
  apply defined_denoms.
  destruct i as [|[|[|[|i]]]];
    try (destruct i; constructor);
    cbn [nth Xds];
    match goal with
    | |- Forall _ (denoms ?e) => by_value (denoms e)
    end;
    repeat constructor; cbn; try lra;
    name_det x1 p1 x2 p2 t u m1 m2 l g;
    repeat apply Rmult_integral_contrapositive_currified;
    assumption || lra.
Qed.

Lemma jacobian_state_H (X : State R) (t u m1 m2 l g : R) (i j : nat) :
  m2 <> 0 -> l <> 0 ->
  m1 + m2 * (sin (getitem 2 X) * sin (getitem 2 X)) <> 0 ->
  (j < 4)%nat ->
  derivable_pt_lim
    (fun z => nth i (get_PendulumCartRates_Hamiltonian (M := Id)
                       (setitem j z X) t (fun _ => u) m1 m2 l g) 0)
    (getitem j X)
    (eval (env_H X t u m1 m2 l g)
          (diff_by (nth i Xds (Int 0)) (state_atom_H j))).
Proof.
  intros Hm2 Hl Hd Hj.
  apply derivable_pt_lim_ext
    with (f := fun z => eval (upd (env_H X t u m1 m2 l g) (state_atom_H j) z)
                             (nth i Xds (Int 0))).
  - intros z. rewrite rates_H_nth.
    symmetry. apply eval_ext. intros a _. now apply env_H_setitem.
  - rewrite <- (env_H_state_atom X t u m1 m2 l g j Hj).
    apply diff_by_correct.
    + now apply state_atom_H_not_time.
    + now apply Xds_defined_H.
Qed.

Lemma jacobian_control_H (X : State R) (t u m1 m2 l g : R) (i : nat) :
  m2 <> 0 -> l <> 0 ->
  m1 + m2 * (sin (getitem 2 X) * sin (getitem 2 X)) <> 0 ->
  derivable_pt_lim
    (fun z => nth i (get_PendulumCartRates_Hamiltonian (M := Id)
                       X t (fun _ => z) m1 m2 l g) 0)
    u
    (eval (env_H X t u m1 m2 l g) (diff_by (nth i Xds (Int 0)) (Sym sym_u))).
Proof.
  intros Hm2 Hl Hd.
  apply derivable_pt_lim_ext
    with (f := fun z => eval (upd (env_H X t u m1 m2 l g) (Sym sym_u) z)
                             (nth i Xds (Int 0))).
  - intros z. rewrite rates_H_nth.
    symmetry. apply eval_ext. intros a _. apply (env_H_control X t u).
  - replace u with (env_H X t u m1 m2 l g (Sym sym_u)) at 1
      by (destruct X as [[[x1 p1] x2] p2]; reflexivity).
    apply diff_by_correct; [discriminate|now apply Xds_defined_H].
Qed.

Lemma A_sp_entry_H (i j : nat) :
  (i < 4)%nat -> (j < 4)%nat ->
  nth j (nth i A_sp []) (Int 0)
  = subs (simplify (diff_by (nth i Xds (Int 0)) (state_atom_H j)))
         subs_stationary.
Proof.
  intros Hi Hj.
  destruct i as [|[|[|[|i]]]]; try lia;
    destruct j as [|[|[|[|j]]]]; try lia; vm_compute; reflexivity.
Qed.

Lemma B_sp_entry_H (i : nat) :
  (i < 4)%nat ->
  nth 0 (nth i B_sp []) (Int 0)
  = subs (simplify (diff_by (nth i Xds (Int 0)) (Sym sym_u)))
         subs_stationary.
Proof.
  intros Hi.
  destruct i as [|[|[|[|i]]]]; try lia; vm_compute; reflexivity.
Qed.

Lemma subs_stationary_fixes_H (X : State R) (t u m1 m2 l g : R)
    (e : expr) :
  eval (env_H X t u m1 m2 l g) (subs e subs_stationary)
  = eval (env_H (getitem 0 X, 0, PI, 0) t u m1 m2 l g) e.
Proof.
  rewrite eval_subs. apply eval_ext. intros a _.
  destruct X as [[[x1 p1] x2] p2].
  destruct a as [[]|[] [|[|n]]]; reflexivity.
Qed.

Lemma A_sp_entry_free_H (i j : nat) :
  (i < 4)%nat -> (j < 4)%nat ->
  occurs (Fn fn_x1 0) (nth j (nth i A_sp []) (Int 0)) = false.
Proof.
  intros Hi Hj.
  destruct i as [|[|[|[|i]]]]; try lia;
    destruct j as [|[|[|[|j]]]]; try lia; vm_compute; reflexivity.
Qed.

Lemma B_sp_entry_free_H (i : nat) :
  (i < 4)%nat ->
  occurs (Fn fn_x1 0) (nth 0 (nth i B_sp []) (Int 0)) = false.
Proof.
  intros Hi.
  destruct i as [|[|[|[|i]]]]; try lia; vm_compute; reflexivity.
Qed.

Lemma eval_cart_moved_H (X : State R) (x1 t u m1 m2 l g : R) (e : expr) :
  occurs (Fn fn_x1 0) e = false ->
  eval (env_H X t u m1 m2 l g) e
  = eval (env_H (setitem 0 x1 X) t u m1 m2 l g) e.
Proof.
  intros Hfree. apply eval_ext. intros a Ha.
  rewrite env_H_setitem by lia. unfold upd.
  destruct (atom_eqb_spec a (state_atom_H 0)) as [->|_]; [|reflexivity].
  change (state_atom_H 0) with (Fn fn_x1 0) in Ha. congruence.
Qed.

Lemma A_sp_is_jacobian_H (m1 m2 l g x1 u t : R) (X : State R) (i j : nat) :
  0 < m1 -> 0 < m2 -> 0 < l -> (i < 4)%nat -> (j < 4)%nat ->
  let Xeq : State R := (x1, 0, PI, 0) in
  let A := map (map (eval (env_H X t u m1 m2 l g))) A_sp in
  derivable_pt_lim
    (fun z => nth i (get_PendulumCartRates_Hamiltonian (M := Id)
                       (setitem j z Xeq) t (fun _ => u) m1 m2 l g) 0)
    (getitem j Xeq) (nth j (nth i A []) 0).
Proof.
  intros Hm1 Hm2 Hl Hi Hj Xeq A. unfold A.
  rewrite nth_map_eval.
  rewrite (eval_cart_moved_H X x1) by now apply A_sp_entry_free_H.
  rewrite A_sp_entry_H by assumption.
  rewrite subs_stationary_fixes_H, eval_simplify.
  replace (getitem 0 (setitem 0 x1 X)) with x1
    by (destruct X as [[[? ?] ?] ?]; reflexivity).
  apply jacobian_state_H; try assumption; try lra.
  now apply upright_regular.
Qed.

Lemma B_sp_is_jacobian_H (m1 m2 l g x1 u t : R) (X : State R) (i : nat) :
  0 < m1 -> 0 < m2 -> 0 < l -> (i < 4)%nat ->
  let Xeq : State R := (x1, 0, PI, 0) in
  let B := map (map (eval (env_H X t u m1 m2 l g))) B_sp in
  derivable_pt_lim
    (fun z => nth i (get_PendulumCartRates_Hamiltonian (M := Id)
                       Xeq t (fun _ => z) m1 m2 l g) 0)
    u (nth 0 (nth i B []) 0).
Proof.
  intros Hm1 Hm2 Hl Hi Xeq B. unfold B.
  rewrite nth_map_eval.
  rewrite (eval_cart_moved_H X x1) by now apply B_sp_entry_free_H.
  rewrite B_sp_entry_H by assumption.
  rewrite subs_stationary_fixes_H, eval_simplify.
  replace (getitem 0 (setitem 0 x1 X)) with x1
    by (destruct X as [[[? ?] ?] ?]; reflexivity).
  apply jacobian_control_H; try assumption; try lra.
  now apply upright_regular.
Qed.


(** *** From velocities to momenta *)

(** [momenta] solves the equations the notebook solves for the
    velocities. *)
Lemma momenta_solve_momentum_eqs (x1 v1 x2 v2 m1 m2 l g : R) :
  let P := momenta m1 m2 l (x1, v1, x2, v2) in
  let rho := bind_args [x1_t; Hamiltonian.v1; x2_t; Hamiltonian.v2;
                        p1_t; p2_t; Hamiltonian.m1; Hamiltonian.m2;
                        Hamiltonian.l; Hamiltonian.g]
                       [x1; v1; x2; v2; getitem 1 P; getitem 3 P;
                        m1; m2; l; g] in
  eval rho (fst conjugate_momentum_eqs) = 0
  /\ eval rho (snd conjugate_momentum_eqs) = 0.
Proof.
  by_value conjugate_momentum_eqs. cbn. trig x2 s c Hsc.
  split; field_simplify_eq; poly.
Qed.

(** [momenta_rate] is the derivative of [momenta] along any
    differentiable curve of velocity states. *)
Lemma momenta_rate_is_derivative (m1 m2 l : R) (x1 v1 x2 v2 : R -> R)
    (t x1d v1d x2d v2d : R) (i : nat) :
  derivable_pt_lim x1 t x1d -> derivable_pt_lim v1 t v1d ->
  derivable_pt_lim x2 t x2d -> derivable_pt_lim v2 t v2d ->
  derivable_pt_lim
    (fun s => getitem i (momenta m1 m2 l (x1 s, v1 s, x2 s, v2 s))) t
    (getitem i (momenta_rate m1 m2 l (x1 t, v1 t, x2 t, v2 t)
                  (x1d, v1d, x2d, v2d))).
Proof.
  intros D1 D2 D3 D4.
  pose proof (derivable_pt_lim_comp _ _ _ _ _ D3 (derivable_pt_lim_cos _))
    as Dc.
  destruct i as [|[|[|[|i]]]]; cbn [momenta momenta_rate getitem];
    try assumption.
  - eapply derivable_pt_lim_eq;
      [|apply derivable_pt_lim_plus;
        [apply derivable_pt_lim_scal; exact D2
        |apply derivable_pt_lim_mult;
         [apply derivable_pt_lim_scal; exact Dc|exact D4]]].
    unfold mult_real_fct, comp. ring.
  - eapply derivable_pt_lim_eq;
      [|apply derivable_pt_lim_plus;
        [apply derivable_pt_lim_mult;
         [apply derivable_pt_lim_scal; exact Dc|exact D2]
        |apply derivable_pt_lim_scal; exact D4]].
    unfold mult_real_fct, comp. ring.
  - apply (derivable_pt_lim_const 0).
Qed.


Lemma mass_matrix_regular (m1 m2 x2 : R) :
  0 < m1 -> 0 < m2 -> m1 + m2 * (sin x2 * sin x2) <> 0.
Proof.
  intros Hm1 Hm2. pose proof (Rle_0_sqr (sin x2)) as Hs. unfold Rsqr in Hs.
  apply Rgt_not_eq. nra.
Qed.

(** The Hamiltonian rates in closed form. *)
Lemma rates_H_closed (x1 p1 x2 p2 t u m1 m2 l g : R) :
  m2 <> 0 -> l <> 0 -> m1 + m2 * (sin x2 * sin x2) <> 0 ->
  get_PendulumCartRates_Hamiltonian (M := Id) (x1, p1, x2, p2) t
    (fun _ => u) m1 m2 l g
  = [vel_cart p1 x2 p2 m1 m2 l; - u;
     vel_pend p1 x2 p2 m1 m2 l; force_pend p1 x2 p2 m1 m2 l g].
Proof.
  intros Hm2 Hl Hd. rewrite rates_H_eval. unfold Xds. cbn [map].
  now rewrite x1d_exp_closed, p1d_exp_closed, x2d_exp_closed, p2d_exp_closed.
Qed.

Lemma list4_eq (a b c d a' b' c' d' : R) :
  a = a' -> b = b' -> c = c' -> d = d' -> [a; b; c; d] = [a'; b'; c'; d'].
Proof. now intros -> -> -> ->. Qed.

(** The two vector fields correspond under [momenta] when the
    Hamiltonian function is given the negated control. *)
Lemma fields_related (m1 m2 l g : R) (X : State R) (t u : R) :
  0 < m1 -> 0 < m2 -> 0 < l ->
  get_PendulumCartRates_Hamiltonian (M := Id) (momenta m1 m2 l X) t
    (fun _ => - u) m1 m2 l g
  = to_list
      (momenta_rate m1 m2 l X
         (Lagrangian.get_PendulumCartRates (M := Id) X t (fun _ => u)
            m1 m2 l g)).
Proof.
  intros Hm1 Hm2 Hl. destruct X as [[[x1 v1] x2] v2].
  pose proof (mass_matrix_regular m1 m2 x2 Hm1 Hm2) as Hd.
  assert (Hm2' : m2 <> 0) by lra. assert (Hl' : l <> 0) by lra.
  unfold momenta.
  rewrite rates_H_closed, get_PendulumCartRates_closed by assumption.
  unfold momenta_rate, to_list, vel_cart, vel_pend, force_pend,
    Lagrangian.accel_cart, Lagrangian.accel_pend.
  revert Hd. trig x2 s c Hsc. intros Hd.
  apply list4_eq.
  - field_simplify_eq; [poly|split; assumption].
  - field_simplify_eq; [poly|split; assumption].
  - field_simplify_eq; [poly|repeat split; assumption].
  - field_simplify_eq; [poly|repeat split; assumption].
Qed.


(** *** Solutions of the two systems *)

(** Both dynamics functions read the control law once, at the state they
    are given. *)
Lemma rates_L_law (X : State R) (t : R) (uf : State R -> R)
    (m1 m2 l g : R) :
  Lagrangian.get_PendulumCartRates (M := Id) X t uf m1 m2 l g
  = Lagrangian.get_PendulumCartRates (M := Id) X t (fun _ => uf X)
      m1 m2 l g.
Proof.
  destruct X as [[[x1 v1] x2] v2].
  cbv [Lagrangian.get_PendulumCartRates bind ret Monad_Id]. reflexivity.
Qed.

Lemma rates_H_law (X : State R) (t : R) (uf : State R -> R)
    (m1 m2 l g : R) :
  get_PendulumCartRates_Hamiltonian (M := Id) X t uf m1 m2 l g
  = get_PendulumCartRates_Hamiltonian (M := Id) X t (fun _ => uf X)
      m1 m2 l g.
Proof.
  destruct X as [[[x1 p1] x2] p2].
  cbv [get_PendulumCartRates_Hamiltonian bind ret Monad_Id]. reflexivity.
Qed.

Lemma nth_to_list (Z : State R) (i : nat) :
  (i < 4)%nat -> nth i (to_list Z) 0 = getitem i Z.
Proof.
  destruct Z as [[[a b] c] d].
  destruct i as [|[|[|[|i]]]]; try lia; reflexivity.
Qed.

Lemma State_eta (X : State R) :
  X = (getitem 0 X, getitem 1 X, getitem 2 X, getitem 3 X).
Proof. now destruct X as [[[a b] c] d]. Qed.

(** [momenta] carries trajectories of the Lagrangian system to
    trajectories of the Hamiltonian system driven by the negated
    control. *)
Lemma momenta_maps_solutions (m1 m2 l g : R) (uf ufH : State R -> R)
    (X : R -> State R) :
  0 < m1 -> 0 < m2 -> 0 < l ->
  (forall Z, ufH (momenta m1 m2 l Z) = - uf Z) ->
  solves_L m1 m2 l g uf X ->
  solves_H m1 m2 l g ufH (fun s => momenta m1 m2 l (X s)).
Proof.
  intros Hm1 Hm2 Hl Hlaw HX t i Hi.
  rewrite rates_H_law, Hlaw, fields_related by assumption.
  rewrite nth_to_list by assumption.
  rewrite <- rates_L_law.
  apply derivable_pt_lim_ext
    with (f := fun s => getitem i
                 (momenta m1 m2 l
                    (getitem 0 (X s), getitem 1 (X s),
                     getitem 2 (X s), getitem 3 (X s)))).
  - intros s. now rewrite <- State_eta.
  - rewrite (State_eta (X t)) at 1.
    rewrite (State_eta (Lagrangian.get_PendulumCartRates (M := Id) (X t) t
                          uf m1 m2 l g)).
    apply (momenta_rate_is_derivative m1 m2 l
             (fun s => getitem 0 (X s)) (fun s => getitem 1 (X s))
             (fun s => getitem 2 (X s)) (fun s => getitem 3 (X s)));
      apply HX; lia.
Qed.


(** The linearisation of the Hamiltonian notebook, as numbers. *)
Lemma A_np_value_H :
  A_np = [ [0; 1; 0; 1]; [0; 0; 0; 0]; [0; 1; 0; 2]; [0; 0; 10; 0] ].
Proof.
  unfold A_np, to_number. by_value A_sp.
  cbn. rewrite ?sin_PI, ?cos_PI.
  repeat (f_equal; try reflexivity); field_simplify; lra.
Qed.

Lemma B_np_value_H : B_np = [ [0]; [-1]; [0]; [0] ].
Proof.
  unfold B_np, to_number. by_value B_sp.
  cbn. repeat (f_equal; try reflexivity); lra.
Qed.

End HamiltonianFacts.
(** ** Facts about the integrator *)

Module ScipyFacts.
Import Numpy Scipy SympyFacts.
Open Scope R_scope.

Lemma State_eq (a b c d a' b' c' d' : R) :
  a = a' -> b = b' -> c = c' -> d = d' ->
  ((a, b, c, d) : State R) = (a', b', c', d').
Proof. now intros -> -> -> ->. Qed.

Lemma vadd_vscale_zero (h : R) (y : State R) : vadd y (vscale h zero4) = y.
Proof.
  destruct y as [[[a b] c] d]. unfold vadd, vscale, zero4. cbn.
  apply State_eq; ring.
Qed.

(** A state at which the right-hand side vanishes is left where it is by
    one Runge-Kutta step. *)
Lemma rk4_step_fixed (func : State R -> R -> State R) (y : State R) :
  (forall t, func y t = zero4) ->
  forall t h, rk4_step (M := Id) func y t h = y.
Proof.
  intros Hfix t h. cbv [rk4_step bind ret Monad_Id].
  repeat first [rewrite Hfix | rewrite vadd_vscale_zero].
  destruct y as [[[a b] c] d]. unfold vadd, vscale, zero4. cbn.
  apply State_eq; field.
Qed.

Lemma odeint_from_fixed (func : State R -> R -> State R) (y : State R) :
  (forall t, func y t = zero4) ->
  forall ts t, Forall (fun X => X = y) (odeint_from (M := Id) func y t ts).
Proof.
  intros Hfix ts. induction ts as [|t' ts IH]; intros t.
  - constructor.
  - cbn [odeint_from]. cbv [bind ret Monad_Id].
    rewrite rk4_step_fixed by assumption.
    constructor; [reflexivity|apply IH].
Qed.

Lemma odeint_fixed (func : State R -> R -> State R) (y : State R) :
  (forall t, func y t = zero4) ->
  forall ts, Forall (fun X => X = y) (odeint (M := Id) func y ts).
Proof.
  intros Hfix [|t0 ts].
  - constructor.
  - cbn [odeint]. cbv [bind ret Monad_Id].
    constructor; [reflexivity|now apply odeint_from_fixed].
Qed.

(** One step with a right-hand side that logs its argument: the result
    is that of the pure step, and the log is the four stage states. *)
Lemma rk4_step_logged {T} `{Scalar T}
    (func : State T -> T -> State T)
    (func_logged : State T -> T -> Logged (State T) (State T))
    (y : State T) (t h : T) :
  (forall X t, func_logged X t = (func X t, [X])) ->
  rk4_step func_logged y t h
  = (rk4_step (M := Id) func y t h, rk4_stages func y t h).
Proof.
  intros Hlog.
  cbv [rk4_step rk4_stages bind ret Monad_Logged Monad_Id].
  rewrite !Hlog. reflexivity.
Qed.

(** *** One state per requested time *)

Lemma odeint_from_length {T} `{Scalar T} (func : State T -> T -> State T)
    (ts : list T) (y : State T) (t : T) :
  length (odeint_from (M := Id) func y t ts) = length ts.
Proof.
  revert y t. induction ts as [|t' ts IH]; intros y t; [reflexivity|].
  cbn [odeint_from]. cbv [bind ret Monad_Id]. cbn [length]. now rewrite IH.
Qed.

Lemma odeint_length {T} `{Scalar T} (func : State T -> T -> State T)
    (y0 : State T) (ts : list T) :
  length (odeint (M := Id) func y0 ts) = length ts.
Proof.
  destruct ts as [|t0 ts]; [reflexivity|].
  cbn [odeint]. cbv [bind ret Monad_Id]. cbn [length].
  now rewrite odeint_from_length.
Qed.

Lemma odeint_from_length_option {T} `{Scalar T}
    (func : State T -> T -> option (State T)) (ts : list T) (y : State T)
    (t : T) (traj : list (State T)) :
  odeint_from func y t ts = Some traj -> length traj = length ts.
Proof.
  revert y t traj. induction ts as [|t' ts IH]; intros y t traj.
  - cbn. now intros [= <-].
  - cbn [odeint_from]. cbv [bind ret Monad_option].
    destruct (rk4_step func y t (s_sub t' t)) as [y'|]; [|discriminate].
    destruct (odeint_from func y' t' ts) as [ys|] eqn:E; [|discriminate].
    intros [= <-]. cbn [length]. f_equal. now apply (IH y' t').
Qed.

(** A run that completes, with a right-hand side that can raise. *)
Lemma odeint_length_option {T} `{Scalar T}
    (func : State T -> T -> option (State T)) (y0 : State T) (ts : list T)
    (traj : list (State T)) :
  odeint func y0 ts = Some traj -> length traj = length ts.
Proof.
  destruct ts as [|t0 ts].
  - cbn. now intros [= <-].
  - cbn [odeint]. cbv [bind ret Monad_option].
    destruct (odeint_from func y0 t0 ts) as [ys|] eqn:E; [|discriminate].
    intros [= <-]. cbn [length]. f_equal.
    now apply (odeint_from_length_option func ts y0 t0).
Qed.

(** *** Non-finite rates make non-finite samples *)

Lemma rk4_step_nonfinite (func : State XR -> XR -> State XR)
    (y : State XR) (t h : XR) :
  getitem 1 (func y t) = None ->
  getitem 1 (rk4_step (M := Id) func y t h) = None.
Proof.
  intros Hk1. cbv [rk4_step bind ret Monad_Id].
  destruct (func y t) as [[[a1 b1] c1] d1]. cbn [getitem] in Hk1. subst b1.
  repeat match goal with
         | |- context [func ?X ?s] =>
             let k := fresh "k" in
             generalize (func X s); intros [[[? ?] ?] ?]
         end.
  destruct y as [[[ya yb] yc] yd].
  cbn [vadd vscale getitem]. cbn [s_add s_mul Scalar_XR xlift2].
  rewrite xlift2_None_r. apply xlift2_None_r.
Qed.

End ScipyFacts.

(** ** The upright state of the program *)

Module UprightFacts.
Import Sympy Numpy Scipy Lagrangian SympyFacts PiFacts LagrangianFacts
       ScipyFacts.
Open Scope R_scope.

(** The uncontrolled dynamics function at the parameters of the notebook,
    in closed form. *)
Lemma free_rates_closed (x1 v1 x2 v2 t : R) :
  get_PendulumCartRates (M := Id) (x1, v1, x2, v2) t control_no 1 1 1 (-10)
  = (v1, accel_cart x2 v2 0 1 1 1 (-10),
     v2, accel_pend x2 v2 0 1 1 1 (-10)).
Proof.
  change 0 with (control_no (x1, v1, x2, v2)) at 1 2.
  apply get_PendulumCartRates_closed; try lra.
  pose proof (Rle_0_sqr (sin x2)) as Hs. unfold Rsqr in Hs. lra.
Qed.

Lemma three_lt_PI : 3 < PI.
Proof.
  pose proof np_pi_gap as [Hlo _]. rewrite np_pi_value in Hlo.
  assert (H3 : 3 < Q2R np_pi_Q).
  { replace 3 with (Q2R 3) by (unfold Q2R; simpl; field).
    apply Qlt_Rlt. vm_compute. reflexivity. }
  assert (Hpos : 0 < 12 / 10 ^ 17).
  { apply Rdiv_lt_0_compat; [lra|apply pow_lt; lra]. }
  lra.
Qed.

(** Sine and cosine a little below pi. *)
Lemma trig_near_pi (x e : R) :
  0 < PI - x < e -> e <= 1 ->
  0 < sin x < e /\ -1 <= cos x < - / 2.
Proof.
  intros [Hlo Hhi] He. pose proof three_lt_PI as Hpi.
  set (d := PI - x) in *.
  replace x with (PI - d) by (unfold d; ring).
  rewrite sin_PI_x.
  replace (cos (PI - d)) with (- cos d)
    by (rewrite cos_minus, cos_PI, sin_PI; ring).
  assert (Hsin : 0 < sin d) by (apply sin_gt_0; lra).
  assert (Hsin' : sin d < d) by (apply sin_lt_x; lra).
  assert (Hcos : / 2 < cos d).
  { replace (/ 2) with (cos (PI / 3)) by (rewrite cos_PI3; lra).
    apply cos_decreasing_1; lra. }
  pose proof (COS_bound d) as [_ Hc1].
  repeat split; lra.
Qed.

(** A little below the upright angle and at moderate angular velocity,
    both accelerations of the uncontrolled system point away from the
    upright state, and are small. *)
Lemma accel_near_upright (x2 v2 e : R) :
  0 < PI - x2 < e -> e <= 1 -> -1 <= v2 <= 1 ->
  - (10 * e) < accel_cart x2 v2 0 1 1 1 (-10) < 0
  /\ - (20 * e) < accel_pend x2 v2 0 1 1 1 (-10) < 0.
Proof.
  intros Hx He Hv.
  destruct (trig_near_pi x2 e Hx He) as [[Hs0 Hs1] [Hc0 Hc1]].
  unfold accel_cart, accel_pend.
  set (s := sin x2) in *. set (c := cos x2) in *.
  assert (Hv2 : 0 <= v2 * v2 <= 1) by nra.
  set (w := v2 * v2) in *.
  assert (HD : 1 <= 1 + 1 * (s * s)) by nra.
  set (D := 1 + 1 * (s * s)) in *.
  assert (HDi : 0 < / D <= 1).
  { split; [apply Rinv_0_lt_compat; lra|].
    rewrite <- Rinv_1. apply Rinv_le_contravar; lra. }
  set (iD := / D) in *.
  assert (Hsw : 0 <= s * w <= s).
  { split; [apply Rmult_le_pos; lra|].
    rewrite <- (Rmult_1_r s) at 2. apply Rmult_le_compat_l; lra. }
  assert (Hsc : - s <= s * c < - (s / 2)).
  { split.
    - replace (- s) with (s * -1) by ring. apply Rmult_le_compat_l; lra.
    - replace (- (s / 2)) with (s * - / 2) by field.
      apply Rmult_lt_compat_l; lra. }
  assert (Hscw : - s <= s * c * w <= 0).
  { split.
    - replace (s * c * w) with (- (- (s * c) * w)) by ring.
      apply Ropp_le_contravar.
      rewrite <- (Rmult_1_r s) at 2. apply Rmult_le_compat; lra.
    - replace (s * c * w) with (- (- (s * c) * w)) by ring.
      rewrite <- Ropp_0. apply Ropp_le_contravar.
      apply Rmult_le_pos; lra. }
  set (sw := s * w) in *. set (sc := s * c) in *. set (scw := sc * w) in *.
  assert (N1 : - (10 * s) <= 0 + 1 * 1 * s * w - 1 * -10 * s * c < 0).
  { replace (0 + 1 * 1 * s * w - 1 * -10 * s * c) with (sw + 10 * sc)
      by (unfold sw, sc; ring). lra. }
  assert (N2 : - (20 * s) <= (1 + 1) * -10 * s - c * 0 - 1 * 1 * s * c * w < 0).
  { replace ((1 + 1) * -10 * s - c * 0 - 1 * 1 * s * c * w)
      with (- (20 * s) - scw) by (unfold scw, sc; ring). lra. }
  replace (1 * D) with D by ring. unfold Rdiv. fold iD.
  set (n1 := 0 + 1 * 1 * s * w - 1 * -10 * s * c) in *.
  set (n2 := (1 + 1) * -10 * s - c * 0 - 1 * 1 * s * c * w) in *.
  assert (P1 : n1 <= n1 * iD < 0).
  { split.
    - replace (n1 * iD) with (- (- n1 * iD)) by ring.
      rewrite <- (Ropp_involutive n1) at 1. apply Ropp_le_contravar.
      rewrite <- (Rmult_1_r (- n1)) at 2. apply Rmult_le_compat_l; lra.
    - replace (n1 * iD) with (- (- n1 * iD)) by ring.
      rewrite <- Ropp_0. apply Ropp_lt_contravar.
      apply Rmult_lt_0_compat; lra. }
  assert (P2 : n2 <= n2 * iD < 0).
  { split.
    - replace (n2 * iD) with (- (- n2 * iD)) by ring.
      rewrite <- (Ropp_involutive n2) at 1. apply Ropp_le_contravar.
      rewrite <- (Rmult_1_r (- n2)) at 2. apply Rmult_le_compat_l; lra.
    - replace (n2 * iD) with (- (- n2 * iD)) by ring.
      rewrite <- Ropp_0. apply Ropp_lt_contravar.
      apply Rmult_lt_0_compat; lra. }
  repeat split; lra.
Qed.

Lemma xsp_value : (xsp : State R) = (0, 0, np_pi, 0).
Proof. reflexivity. Qed.

(** At the upright state of the program the uncontrolled dynamics
    function does not return the zero vector: both accelerations are
    negative, and small. *)
Lemma rates_at_xsp (t : R) :
  exists a1 a2,
    get_PendulumCartRates (M := Id) xsp t control_no 1 1 1 (-10)
    = (0, a1, 0, a2)
    /\ - / 10 ^ 14 < a1 < 0 /\ - / 10 ^ 14 < a2 < 0.
Proof.
  rewrite xsp_value, free_rates_closed.
  exists (accel_cart np_pi 0 0 1 1 1 (-10)),
         (accel_pend np_pi 0 0 1 1 1 (-10)).
  split; [reflexivity|].
  pose proof np_pi_gap as [Hlo Hhi]. pose proof small_margin as [He0 He1].
  assert (Hlo' : 0 < PI - np_pi).
  { eapply Rlt_trans; [|exact Hlo].
    apply Rdiv_lt_0_compat; [lra|apply pow_lt; lra]. }
  destruct (accel_near_upright np_pi 0 (13 / 10 ^ 17)) as [H1 H2];
    [lra|lra|lra|].
  assert (E : / 10 ^ 14 = 1000 / 10 ^ 17).
  { replace (10 ^ 17) with (10 ^ 14 * 1000) by (simpl; ring).
    field; apply pow_nonzero; lra. }
  rewrite E.
  assert (E13 : 13 / 10 ^ 17 = 13 * / 10 ^ 17) by reflexivity.
  assert (E1000 : 1000 / 10 ^ 17 = 1000 * / 10 ^ 17) by reflexivity.
  assert (Hq : 0 < / 10 ^ 17) by (apply Rinv_0_lt_compat, pow_lt; lra).
  rewrite E13 in H1, H2. rewrite E1000.
  set (q := / 10 ^ 17) in *. lra.
Qed.

Lemma scaled_neg (k a B : R) :
  0 < k <= 1 -> - B < a < 0 -> - B < k * a < 0.
Proof. intros Hk Ha. nra. Qed.

(** One step of the integrator from the upright state of the program
    ends in another state: the pendulum has begun to fall. *)
Lemma first_step_leaves_xsp (t h : R) :
  0 < h <= 1 ->
  getitem 3
    (rk4_step (M := Id)
       (fun X t => get_PendulumCartRates (M := Id) X t control_no
                     1 1 1 (-10))
       xsp t h) < 0.
Proof.
  intros Hh. rewrite xsp_value.
  pose proof np_pi_gap as [Hlo Hhi]. pose proof small_margin as [He0 He1].
  assert (Hlo' : 0 < PI - np_pi).
  { eapply Rlt_trans; [|exact Hlo].
    apply Rdiv_lt_0_compat; [lra|apply pow_lt; lra]. }
  clear Hlo. generalize dependent (13 / 10 ^ 17). intros e Hhi He0 He1.
  generalize dependent (np_pi : R). intros p Hhi Hlo'.
  unfold rk4_step. cbv [bind ret Monad_Id].
  repeat (cbv beta; rewrite free_rates_closed;
          cbv [vadd vscale s_add s_mul s_div s_of_Z Scalar_R]).
  cbn [getitem].
  set (ap1 := accel_pend p 0 0 1 1 1 (-10)).
  set (ap2 := accel_pend (p + h / 2 * 0) (0 + h / 2 * ap1) 0 1 1 1 (-10)).
  set (ap3 := accel_pend (p + h / 2 * (0 + h / 2 * ap1))
                         (0 + h / 2 * ap2) 0 1 1 1 (-10)).
  set (ap4 := accel_pend (p + h * (0 + h / 2 * ap2))
                         (0 + h * ap3) 0 1 1 1 (-10)).
  assert (Hh2 : 0 < h / 2 <= 1) by lra.
  assert (B1 : - (20 * e) < ap1 < 0).
  { refine (proj2 (accel_near_upright p 0 e _ _ _)); lra. }
  pose proof (scaled_neg (h / 2) ap1 (20 * e) Hh2 B1) as S1.
  assert (B2 : - (20 * e) < ap2 < 0).
  { refine (proj2 (accel_near_upright (p + h / 2 * 0)
                     (0 + h / 2 * ap1) e _ _ _)); lra. }
  pose proof (scaled_neg (h / 2) ap2 (20 * e) Hh2 B2) as S2.
  pose proof (scaled_neg (h / 2) (h / 2 * ap1) (20 * e) Hh2 S1) as S11.
  assert (B3 : - (20 * (21 * e)) < ap3 < 0).
  { refine (proj2 (accel_near_upright (p + h / 2 * (0 + h / 2 * ap1))
                     (0 + h / 2 * ap2) (21 * e) _ _ _)); lra. }
  pose proof (scaled_neg h ap3 (20 * (21 * e)) Hh B3) as S3.
  pose proof (scaled_neg h (h / 2 * ap2) (20 * e) Hh S2) as S22.
  assert (B4 : - (20 * (21 * e)) < ap4 < 0).
  { refine (proj2 (accel_near_upright (p + h * (0 + h / 2 * ap2))
                     (0 + h * ap3) (21 * e) _ _ _)); lra. }
  assert (Hsum : ap1 + 2 * ap2 + (2 * ap3 + ap4) < 0) by lra.
  assert (Hh6 : 0 < h / 6) by lra.
  set (sm := ap1 + 2 * ap2 + (2 * ap3 + ap4)) in *.
  nra.
Qed.

Lemma s_of_Q_value (q : Q) : (s_of_Q q : R) = Q2R q.
Proof. reflexivity. Qed.

(** The free run started at the upright state of the program: at the
    second sample the pendulum is falling. *)
Lemma second_sample_falls (q0 q1 : Q) (rest : list Q) :
  (q0 < q1)%Q -> (q1 <= q0 + 1)%Q ->
  getitem 3 (nth 1 (simulate (M := Id) control_no xsp (q0 :: q1 :: rest))
                 xsp) < 0.
Proof.
  intros Hlt Hle. unfold simulate. cbn [map odeint odeint_from].
  cbv [bind ret Monad_Id]. cbn [nth].
  apply (first_step_leaves_xsp (s_of_Q q0) (s_sub (s_of_Q q1) (s_of_Q q0))).
  change (0 < Q2R q1 - Q2R q0 <= 1).
  apply Qlt_Rlt in Hlt. apply Qle_Rle in Hle. rewrite Q2R_plus in Hle.
  replace (Q2R 1) with 1 in Hle by (unfold Q2R; simpl; field).
  lra.
Qed.

End UprightFacts.

(** ** Facts about the gain synthesis *)

Module ControlFacts.
Import Numpy Lagrangian Control LagrangianFacts.
Local Open Scope R_scope.

Lemma Rabs_le_bounds (e tol : R) : Rabs e <= tol -> - tol <= e <= tol.
Proof. unfold Rabs. destruct (Rcase_abs e); lra. Qed.

Lemma cross_bound (e tol u v : R) :
  - tol <= e <= tol -> e * (u * v) <= tol * ((u * u + v * v) / 2).
Proof.
  intros [Hl Hu].
  pose proof (Rle_0_sqr u) as Su. pose proof (Rle_0_sqr v) as Sv.
  unfold Rsqr in Su, Sv.
  destruct (Rle_lt_dec 0 e) as [He|He].
  - assert (0 <= e * ((u - v) * (u - v)))
      by (apply Rmult_le_pos; [lra | apply Rle_0_sqr]).
    assert (0 <= (tol - e) * (u * u + v * v))
      by (apply Rmult_le_pos; lra).
    lra.
  - assert (0 <= (- e) * ((u + v) * (u + v)))
      by (apply Rmult_le_pos; [lra | apply Rle_0_sqr]).
    assert (0 <= (tol + e) * (u * u + v * v))
      by (apply Rmult_le_pos; lra).
    lra.
Qed.

Lemma sumsq_nonneg (a b c d : R) : 0 <= a * a + b * b + c * c + d * d.
Proof. nra. Qed.

Lemma scaled_sq_nonneg (k : R) : 0 <= 1000 * k * k.
Proof. nra. Qed.

Lemma shrink (c n m : R) :
  c < 1 -> 0 <= n -> 0 <= m -> 0 < n + m -> c * n + c * m < n + m.
Proof. intros. nra. Qed.

(** The Lyapunov argument, in coordinates.  [P] is symmetric with
    entries [pij]; [k = P B]; [V] is its quadratic form; [rij] is the
    residual of the Riccati equation; [x + i y] is an eigenvector of
    [A - 1000 B k^T] for [a + i b]. *)
Section Lyapunov.
Variables p11 p12 p13 p14 p22 p23 p24 p33 p34 p44 : R.
Variables x1 x2 x3 x4 y1 y2 y3 y4 a b tol : R.

Let k1 := p12 + p14.
Let k2 := p22 + p24.
Let k3 := p23 + p34.
Let k4 := p24 + p44.
Let kx := k1 * x1 + k2 * x2 + k3 * x3 + k4 * x4.
Let ky := k1 * y1 + k2 * y2 + k3 * y3 + k4 * y4.
Let V (z1 z2 z3 z4 : R) :=
  p11 * z1 * z1 + p22 * z2 * z2 + p33 * z3 * z3 + p44 * z4 * z4
  + 2 * (p12 * z1 * z2 + p13 * z1 * z3 + p14 * z1 * z4
         + p23 * z2 * z3 + p24 * z2 * z4 + p34 * z3 * z4).
Let r11 := 1 - 1000 * k1 * k1.
Let r12 := p11 - 1000 * k1 * k2.
Let r13 := 10 * p12 + 20 * p14 - 1000 * k1 * k3.
Let r14 := p13 - 1000 * k1 * k4.
Let r22 := 2 * p12 + 1 - 1000 * k2 * k2.
Let r23 := p13 + 10 * p22 + 20 * p24 - 1000 * k2 * k3.
Let r24 := p14 + p23 - 1000 * k2 * k4.
Let r33 := 20 * p23 + 40 * p34 + 1 - 1000 * k3 * k3.
Let r34 := 10 * p24 + 20 * p44 + p33 - 1000 * k3 * k4.
Let r44 := 2 * p34 + 1 - 1000 * k4 * k4.
Let W (z1 z2 z3 z4 : R) :=
  r11 * (z1 * z1) + r12 * (z1 * z2) + r13 * (z1 * z3) + r14 * (z1 * z4)
  + r12 * (z2 * z1) + r22 * (z2 * z2) + r23 * (z2 * z3) + r24 * (z2 * z4)
  + r13 * (z3 * z1) + r23 * (z3 * z2) + r33 * (z3 * z3) + r34 * (z3 * z4)
  + r14 * (z4 * z1) + r24 * (z4 * z2) + r34 * (z4 * z3) + r44 * (z4 * z4).

Hypothesis E1 : x2 = a * x1 - b * y1.
Hypothesis E2 : 10 * x3 - 1000 * kx = a * x2 - b * y2.
Hypothesis E3 : x4 = a * x3 - b * y3.
Hypothesis E4 : 20 * x3 - 1000 * kx = a * x4 - b * y4.
Hypothesis F1 : y2 = b * x1 + a * y1.
Hypothesis F2 : 10 * y3 - 1000 * ky = b * x2 + a * y2.
Hypothesis F3 : y4 = b * x3 + a * y3.
Hypothesis F4 : 20 * y3 - 1000 * ky = b * x4 + a * y4.

(** Along an eigenvector the quadratic form changes at the rate the
    Riccati equation gives. *)
Lemma lyapunov_identity :
  2 * a * (V x1 x2 x3 x4 + V y1 y2 y3 y4)
  = W x1 x2 x3 x4 + W y1 y2 y3 y4
    - (x1 * x1 + x2 * x2 + x3 * x3 + x4 * x4
       + (y1 * y1 + y2 * y2 + y3 * y3 + y4 * y4)
       + 1000 * kx * kx + 1000 * ky * ky).
Proof.
  unfold V, W, r11, r12, r13, r14, r22, r23, r24, r33, r34, r44,
    kx, ky, k1, k2, k3, k4 in *.
  nsatz.
Qed.

Hypothesis Htol : 4 * tol < 1.
Hypothesis B11 : - tol <= r11 <= tol.
Hypothesis B12 : - tol <= r12 <= tol.
Hypothesis B13 : - tol <= r13 <= tol.
Hypothesis B14 : - tol <= r14 <= tol.
Hypothesis B22 : - tol <= r22 <= tol.
Hypothesis B23 : - tol <= r23 <= tol.
Hypothesis B24 : - tol <= r24 <= tol.
Hypothesis B33 : - tol <= r33 <= tol.
Hypothesis B34 : - tol <= r34 <= tol.
Hypothesis B44 : - tol <= r44 <= tol.

Lemma residual_form_bound (z1 z2 z3 z4 : R) :
  W z1 z2 z3 z4 <= 4 * tol * (z1 * z1 + z2 * z2 + z3 * z3 + z4 * z4).
Proof.
  unfold W.
  pose proof (cross_bound _ _ z1 z1 B11). pose proof (cross_bound _ _ z1 z2 B12).
  pose proof (cross_bound _ _ z1 z3 B13). pose proof (cross_bound _ _ z1 z4 B14).
  pose proof (cross_bound _ _ z2 z1 B12). pose proof (cross_bound _ _ z2 z2 B22).
  pose proof (cross_bound _ _ z2 z3 B23). pose proof (cross_bound _ _ z2 z4 B24).
  pose proof (cross_bound _ _ z3 z1 B13). pose proof (cross_bound _ _ z3 z2 B23).
  pose proof (cross_bound _ _ z3 z3 B33). pose proof (cross_bound _ _ z3 z4 B34).
  pose proof (cross_bound _ _ z4 z1 B14). pose proof (cross_bound _ _ z4 z2 B24).
  pose proof (cross_bound _ _ z4 z3 B34). pose proof (cross_bound _ _ z4 z4 B44).
  lra.
Qed.

Hypothesis PSDx : 0 <= V x1 x2 x3 x4.
Hypothesis PSDy : 0 <= V y1 y2 y3 y4.
Hypothesis NZ :
  0 < x1 * x1 + x2 * x2 + x3 * x3 + x4 * x4
      + (y1 * y1 + y2 * y2 + y3 * y3 + y4 * y4).

Lemma lyapunov_negative : a < 0.
Proof.
  pose proof lyapunov_identity as I.
  pose proof (residual_form_bound x1 x2 x3 x4) as Wx.
  pose proof (residual_form_bound y1 y2 y3 y4) as Wy.
  pose proof (sumsq_nonneg x1 x2 x3 x4) as Nx.
  pose proof (sumsq_nonneg y1 y2 y3 y4) as Ny.
  pose proof (scaled_sq_nonneg kx) as Kx.
  pose proof (scaled_sq_nonneg ky) as Ky.
  pose proof (shrink (4 * tol) _ _ Htol Nx Ny NZ) as Sh.
  destruct (Rlt_le_dec a 0) as [Ha|Ha]; [exact Ha|].
  assert (0 <= a * (V x1 x2 x3 x4 + V y1 y2 y3 y4))
    by (apply Rmult_le_pos; lra).
  lra.
Qed.

End Lyapunov.

Lemma R_cost_inv : / R_cost = 1000.
Proof. cbv [R_cost s_of_Q s_div s_of_Z Scalar_R Qnum Qden]. field. Qed.

Lemma length4_inv (x : list R) :
  length x = 4%nat -> exists a b c d, x = [a; b; c; d].
Proof.
  destruct x as [|a [|b [|c [|d [|e x]]]]]; try discriminate.
  intros _. now exists a, b, c, d.
Qed.

Lemma square4_inv (P : matrix) :
  square 4 P ->
  exists r1 r2 r3 r4,
    P = [r1; r2; r3; r4] /\ length r1 = 4%nat /\ length r2 = 4%nat
    /\ length r3 = 4%nat /\ length r4 = 4%nat.
Proof.
  intros [HP Hrows].
  destruct P as [|r1 [|r2 [|r3 [|r4 [|r5 P]]]]]; try discriminate.
  exists r1, r2, r3, r4.
  inversion_clear Hrows as [|? ? H1 Hrows1].
  inversion_clear Hrows1 as [|? ? H2 Hrows2].
  inversion_clear Hrows2 as [|? ? H3 Hrows3].
  inversion_clear Hrows3 as [|? ? H4 _].
  auto.
Qed.

Lemma nonzero_sumsq (x1 x2 x3 x4 : R) :
  nonzero [x1; x2; x3; x4] -> 0 < x1 * x1 + x2 * x2 + x3 * x3 + x4 * x4.
Proof.
  intros [i Hi].
  pose proof (Rle_0_sqr x1) as S1. pose proof (Rle_0_sqr x2) as S2.
  pose proof (Rle_0_sqr x3) as S3. pose proof (Rle_0_sqr x4) as S4.
  unfold Rsqr in *.
  destruct i as [|[|[|[|i]]]]; cbn [nth] in Hi.
  - pose proof (Rsqr_pos_lt x1 Hi) as Q. unfold Rsqr in Q. lra.
  - pose proof (Rsqr_pos_lt x2 Hi) as Q. unfold Rsqr in Q. lra.
  - pose proof (Rsqr_pos_lt x3 Hi) as Q. unfold Rsqr in Q. lra.
  - pose proof (Rsqr_pos_lt x4 Hi) as Q. unfold Rsqr in Q. lra.
  - destruct i; now elim Hi.
Qed.

Ltac matrix_entries :=
  cbv [mulvec lincomb closed_loop riccati_residual gain quadratic_form
       madd msub mscale matmul transpose build sigma entry n_rows n_cols
       Q_cost eye Nat.eqb s_of_Z Scalar_R
       map seq nth fold_right hd length combine fst snd].

Ltac matrix_entries_in H :=
  cbv [mulvec lincomb closed_loop riccati_residual gain quadratic_form
       madd msub mscale matmul transpose build sigma entry n_rows n_cols
       Q_cost eye Nat.eqb s_of_Z Scalar_R
       map seq nth fold_right hd length combine fst snd] in H.

(** A matrix of the form [G G^T] is positive semidefinite: its quadratic
    form is a sum of squares. *)
Lemma gram_quadratic_form
  (g11 g12 g13 g14 g21 g22 g23 g24 g31 g32 g33 g34 g41 g42 g43 g44 : R)
  (z1 z2 z3 z4 : R) :
  let G := [ [g11; g12; g13; g14]; [g21; g22; g23; g24];
             [g31; g32; g33; g34]; [g41; g42; g43; g44] ] in
  quadratic_form (matmul G (transpose G)) [z1; z2; z3; z4]
  = Rsqr (g11 * z1 + g21 * z2 + g31 * z3 + g41 * z4)
    + Rsqr (g12 * z1 + g22 * z2 + g32 * z3 + g42 * z4)
    + Rsqr (g13 * z1 + g23 * z2 + g33 * z3 + g43 * z4)
    + Rsqr (g14 * z1 + g24 * z2 + g34 * z3 + g44 * z4).
Proof. cbv zeta. matrix_entries. unfold Rsqr. ring. Qed.

Lemma P_rational_positive_semidefinite : positive_semidefinite P_rational.
Proof.
  intros z Hz. change (n_rows P_rational) with 4%nat in Hz.
  destruct (length4_inv z Hz) as (z1 & z2 & z3 & z4 & ->).
  unfold P_rational, G_rational. rewrite gram_quadratic_form.
  repeat apply Rplus_le_le_0_compat; apply Rle_0_sqr.
Qed.

Lemma row4_eq (a b c d a' b' c' d' : R) :
  a = a' -> b = b' -> c = c' -> d = d' ->
  [[a; b; c; d]] = [[a'; b'; c'; d']].
Proof. intros. subst. reflexivity. Qed.

(** The rational matrix meets the contract for the notebook's weights,
    with every entry of the residual below a thousandth. *)
Lemma rational_certificate :
  lqr_contract A_np B_np Q_cost R_cost (1 / 1000) K_rational P_rational.
Proof.
  unfold lqr_contract, gain, riccati_residual.
  rewrite R_cost_inv, A_np_value, B_np_value.
  change (n_rows [[0; 1; 0; 0]; [0; 0; 10; 0]; [0; 0; 0; 1]; [0; 0; 20; 0]])
    with 4%nat.
  split; [|split; [|split; [|split]]].
  - split; [reflexivity | repeat constructor].
  - intros i j Hi Hj. change (n_rows P_rational) with 4%nat in Hi, Hj.
    destruct i as [|[|[|[|i]]]]; try lia;
      destruct j as [|[|[|[|j]]]]; try lia;
      cbv [P_rational G_rational]; matrix_entries; lra.
  - exact P_rational_positive_semidefinite.
  - intros i j Hi Hj.
    destruct i as [|[|[|[|i]]]]; try lia;
      destruct j as [|[|[|[|j]]]]; try lia;
      apply Rabs_le; cbv [P_rational G_rational]; matrix_entries; lra.
  - cbv [K_rational P_rational G_rational]. matrix_entries.
    apply row4_eq; lra.
Qed.

(** The definition of an eigenvalue at work: without feedback the
    linearisation has the eigenvalue 0 (the cart may stand anywhere), so
    it is not stable. *)
Lemma open_loop_not_hurwitz : ~ hurwitz A_np.
Proof.
  intros Hh. rewrite A_np_value in Hh.
  assert (E : eigenvalue
                [[0; 1; 0; 0]; [0; 0; 10; 0]; [0; 0; 0; 1]; [0; 0; 20; 0]]
                0 0).
  { exists [1; 0; 0; 0], [0; 0; 0; 0].
    split; [reflexivity|]. split; [reflexivity|]. split.
    - left. exists 0%nat. cbn. lra.
    - split; matrix_entries; apply HamiltonianFacts.list4_eq; lra. }
  apply Hh in E. lra.
Qed.

End ControlFacts.

(** ** Facts about the feedback law and the closed loop *)

Module ControlLawFacts.
Import Sympy Numpy Scipy Lagrangian SympyFacts LagrangianFacts ScipyFacts.
Open Scope R_scope.

Lemma matvec_rows {T} `{Scalar T} (K : list (list T)) (v : State T) :
  Forall (fun row => length row = 4%nat) K ->
  exists ys, matvec K v = Some ys /\ length ys = length K
             /\ forall row, hd_error K = Some row ->
                            option_map Some (hd_error ys) = Some (dot4 row v).
Proof.
  induction K as [|row K IH]; intros Hall.
  - exists []. repeat split. intros row [=].
  - inversion_clear Hall as [|? ? Hrow Hrest].
    destruct (IH Hrest) as (ys & E & Hlen & _).
    destruct v as [[[v1 v2] v3] v4].
    destruct row as [|a [|b [|c [|d [|e row]]]]]; try discriminate.
    exists (s_add (s_add (s_add (s_mul a v1) (s_mul b v2)) (s_mul c v3))
                  (s_mul d v4) :: ys).
    cbn [matvec dot4]. cbv [bind ret Monad_option]. rewrite E.
    repeat split; [cbn; now rewrite Hlen|].
    intros row [= <-]. reflexivity.
Qed.

Lemma matvec_bad_row {T} `{Scalar T} (K : list (list T)) (v : State T) :
  Exists (fun row => length row <> 4%nat) K -> matvec K v = None.
Proof.
  induction 1 as [row K Hbad|row K _ IH];
    cbn [matvec]; cbv [bind ret Monad_option].
  - destruct v as [[[v1 v2] v3] v4].
    destruct row as [|a [|b [|c [|d [|e row]]]]]; try reflexivity.
    now elim Hbad.
  - destruct (dot4 row v); [|reflexivity]. fold (matvec K v). now rewrite IH.
Qed.

Lemma rows_dec {T} (K : list (list T)) :
  Forall (fun row => length row = 4%nat) K
  \/ Exists (fun row => length row <> 4%nat) K.
Proof.
  induction K as [|row K [IH|IH]].
  - left. constructor.
  - destruct (Nat.eq_dec (length row) 4).
    + left. now constructor.
    + right. now constructor.
  - right. now constructor 2.
Qed.

(** A state at which the right-hand side returns the zero vector, for a
    right-hand side that can raise. *)
Lemma rk4_step_fixed_option (func : State R -> R -> option (State R))
    (y : State R) :
  (forall t, func y t = Some zero4) ->
  forall t h, rk4_step func y t h = Some y.
Proof.
  intros Hfix t h. cbv [rk4_step bind ret Monad_option].
  repeat first [rewrite Hfix | rewrite vadd_vscale_zero].
  destruct y as [[[a b] c] d]. unfold vadd, vscale, zero4. cbn.
  apply (f_equal Some). apply State_eq; field.
Qed.

Lemma odeint_from_fixed_option (func : State R -> R -> option (State R))
    (y : State R) :
  (forall t, func y t = Some zero4) ->
  forall ts t, odeint_from func y t ts = Some (repeat y (length ts)).
Proof.
  intros Hfix ts. induction ts as [|t' ts IH]; intros t; [reflexivity|].
  cbn [odeint_from]. cbv [bind ret Monad_option].
  rewrite rk4_step_fixed_option by assumption.
  fold (odeint_from func y t' ts). now rewrite IH.
Qed.

Lemma odeint_fixed_option (func : State R -> R -> option (State R))
    (y : State R) :
  (forall t, func y t = Some zero4) ->
  forall ts, odeint func y ts = Some (repeat y (length ts)).
Proof.
  intros Hfix [|t0 ts]; [reflexivity|].
  cbn [odeint]. cbv [bind ret Monad_option].
  now rewrite odeint_from_fixed_option.
Qed.

Lemma control_law_at_set_point (K_np : list (list R)) :
  K_np <> [] -> Forall (fun row => length row = 4%nat) K_np ->
  control_law K_np xsp = Some 0.
Proof.
  intros Hne Hall. unfold control_law. cbv [bind ret Monad_option].
  destruct (matvec_rows K_np (vsub xsp xsp) Hall) as (ys & Ey & Hlen & Hhd).
  rewrite Ey. destruct K_np as [|row K]; [congruence|].
  destruct ys as [|y ys]; [discriminate|].
  specialize (Hhd row eq_refl). cbn in Hhd.
  inversion_clear Hall as [|? ? Hrow _].
  destruct row as [|a [|b [|c [|d [|e row]]]]]; try discriminate.
  cbn in Hhd. injection Hhd as ->.
  cbn. f_equal. ring.
Qed.

End ControlLawFacts.

(** ** Facts about energy and momenta *)

Module MechanicsFacts.
Import Sympy Numpy Scipy SympyFacts LagrangianFacts HamiltonianFacts ScipyFacts.
Import Mechanics.
Open Scope R_scope.

(** [sp.diff(e, t)] is the rate of change of [e] along any motion of the
    atoms on which the derivative of each atom is the atom that
    [sp.diff] gives it: [Derivative(f(t), (t, n + 1))] for
    [Derivative(f(t), (t, n))], 1 for [t], 0 for another symbol. *)
Lemma ddt_correct (e : expr) (rho : R -> env R) (t : R) :
  (forall b, occurs b e = true ->
             derivable_pt_lim (fun s => rho s b) t
               (eval (rho t) (diff_atom b (Sym sym_t)))) ->
  defined (rho t) e ->
  derivable_pt_lim (fun s => eval (rho s) e) t
                   (eval (rho t) (diff_by e (Sym sym_t))).
Proof.
  induction e; cbn [occurs defined]; intros Hat Hdef.
  - apply derivable_pt_lim_const.
  - apply derivable_pt_lim_const.
  - cbn [eval diff_by]. apply Hat, atom_eqb_refl.
  - destruct Hdef as [H1 H2].
    apply (derivable_pt_lim_plus (fun s => eval (rho s) e1)
                                 (fun s => eval (rho s) e2)).
    + apply IHe1; [|exact H1]. intros b Hb. apply Hat. now rewrite Hb.
    + apply IHe2; [|exact H2]. intros b Hb. apply Hat.
      rewrite Hb. apply orb_true_r.
  - destruct Hdef as [H1 H2].
    apply (derivable_pt_lim_minus (fun s => eval (rho s) e1)
                                  (fun s => eval (rho s) e2)).
    + apply IHe1; [|exact H1]. intros b Hb. apply Hat. now rewrite Hb.
    + apply IHe2; [|exact H2]. intros b Hb. apply Hat.
      rewrite Hb. apply orb_true_r.
  - destruct Hdef as [H1 H2].
    apply (derivable_pt_lim_mult (fun s => eval (rho s) e1)
                                 (fun s => eval (rho s) e2)).
    + apply IHe1; [|exact H1]. intros b Hb. apply Hat. now rewrite Hb.
    + apply IHe2; [|exact H2]. intros b Hb. apply Hat.
      rewrite Hb. apply orb_true_r.
  - destruct Hdef as (H1 & H2 & Hq).
    assert (D1 : derivable_pt_lim (fun s => eval (rho s) e1) t
                   (eval (rho t) (diff_by e1 (Sym sym_t)))).
    { apply IHe1; [|exact H1]. intros b Hb. apply Hat. now rewrite Hb. }
    assert (D2 : derivable_pt_lim (fun s => eval (rho s) e2) t
                   (eval (rho t) (diff_by e2 (Sym sym_t)))).
    { apply IHe2; [|exact H2]. intros b Hb. apply Hat.
      rewrite Hb. apply orb_true_r. }
    pose proof (derivable_pt_lim_div _ _ _ _ _ D1 D2 Hq) as D.
    eapply derivable_pt_lim_eq; [|exact D].
    transitivity ((eval (rho t) (diff_by e1 (Sym sym_t)) * eval (rho t) e2
                   - eval (rho t) e1 * eval (rho t) (diff_by e2 (Sym sym_t)))
                  / (eval (rho t) e2 * (eval (rho t) e2 * 1))).
    + unfold Rsqr. field. assumption.
    + destruct e2; try reflexivity.
      cbn [diff_by eval s_div s_of_Z Scalar_R] in *. field. assumption.
  - apply (derivable_pt_lim_opp (fun s => eval (rho s) e)).
    now apply IHe.
  - destruct n as [|k].
    + simpl. apply (derivable_pt_lim_const 1).
    + pose proof (derivable_pt_lim_comp _ _ _ _ _ (IHe Hat Hdef)
                    (derivable_pt_lim_pow _ (S k))) as D.
      cbv beta in D.
      eapply derivable_pt_lim_ext;
        [|eapply derivable_pt_lim_eq; [|exact D]].
      * intros z. unfold comp. cbn [eval]. now rewrite s_pow_R.
      * cbn [diff_by eval s_mul s_of_Z Scalar_R Nat.pred].
        rewrite s_pow_R, <- INR_IZR_INZ. reflexivity.
  - apply (derivable_pt_lim_comp (fun s => eval (rho s) e) sin).
    + now apply IHe.
    + apply derivable_pt_lim_sin.
  - pose proof (derivable_pt_lim_comp _ _ _ _ _ (IHe Hat Hdef)
                  (derivable_pt_lim_cos _)) as D.
    cbv beta in D.
    eapply derivable_pt_lim_eq; [|exact D]. simpl. ring.
Qed.

Lemma ddt_correct_atoms (e : expr) (rho : R -> env R) (t : R) :
  Forall (fun b => derivable_pt_lim (fun s => rho s b) t
                     (eval (rho t) (diff_atom b (Sym sym_t))))
         (atoms e) ->
  defined (rho t) e ->
  derivable_pt_lim (fun s => eval (rho s) e) t
                   (eval (rho t) (diff_by e (Sym sym_t))).
Proof.
  intros Hall. apply ddt_correct. intros b Hb.
  rewrite Forall_forall in Hall. apply Hall.
  apply nodup_In, occurs_leaves, Hb.
Qed.

(** A function whose derivative vanishes everywhere is constant. *)
Lemma null_derivative_constant (f : R -> R) :
  (forall x, derivable_pt_lim f x 0) -> forall a b, f a = f b.
Proof.
  intros Hf.
  assert (Hlt : forall a b, a < b -> f a = f b).
  { intros a b Hab.
    destruct (MVT_cor2 f (fun _ => 0) a b Hab (fun c _ => Hf c))
      as (c & E & _).
    lra. }
  intros a b. destruct (Rtotal_order a b) as [H|[->|H]].
  - now apply Hlt.
  - reflexivity.
  - symmetry. now apply Hlt.
Qed.

Lemma env_L_parameter (X : State R) (u m1 m2 l g : R) :
  Lagrangian.env_L X u m1 m2 l g (Sym sym_m1) = m1
  /\ Lagrangian.env_L X u m1 m2 l g (Sym sym_m2) = m2
  /\ Lagrangian.env_L X u m1 m2 l g (Sym sym_l) = l
  /\ Lagrangian.env_L X u m1 m2 l g (Sym sym_g) = g
  /\ Lagrangian.env_L X u m1 m2 l g (Sym sym_u) = u.
Proof. destruct X as [[[x1 v1] x2] v2]. repeat split. Qed.

Lemma rates_positions (X : State R) (t : R) (uf : State R -> R)
    (m1 m2 l g : R) :
  getitem 0 (Lagrangian.get_PendulumCartRates (M := Id) X t uf m1 m2 l g)
  = getitem 1 X
  /\ getitem 2 (Lagrangian.get_PendulumCartRates (M := Id) X t uf m1 m2 l g)
     = getitem 3 X.
Proof. destruct X as [[[x1 v1] x2] v2]. split; reflexivity. Qed.

(** Along a trajectory the total energy changes at the rate at which the
    control force works on the cart. *)
Lemma energy_rate (m1 m2 l g : R) (uf : State R -> R) (X : R -> State R)
    (t : R) :
  0 < m1 -> 0 < m2 -> 0 < l ->
  Hamiltonian.solves_L m1 m2 l g uf X ->
  derivable_pt_lim (fun s => total_energy m1 m2 l g (X s)) t
                   (uf (X t) * getitem 1 (X t)).
Proof.
  intros Hm1 Hm2 Hl HX.
  set (rates := Lagrangian.get_PendulumCartRates (M := Id) (X t) t uf
                  m1 m2 l g).
  set (rho := fun s =>
         upd (upd (Lagrangian.env_L (X s) 0 m1 m2 l g)
                  (Fn fn_x1 2) (getitem 1 rates))
             (Fn fn_x2 2) (getitem 3 rates)).
  apply derivable_pt_lim_ext with (f := fun s => eval (rho s) energy).
  { intros s. unfold total_energy. apply eval_ext_atoms.
    by_value (atoms energy). unfold rho.
    destruct (X s) as [[[x1 v1] x2] v2]. repeat constructor. }
  eapply derivable_pt_lim_eq; [|apply ddt_correct_atoms].
  - unfold rho, rates. rewrite rates_L_law.
    destruct (X t) as [[[x1 v1] x2] v2] eqn:EX.
    pose proof (mass_matrix_regular m1 m2 x2 Hm1 Hm2) as Hd.
    rewrite get_PendulumCartRates_closed by (assumption || lra).
    cbn [getitem].
    unfold Lagrangian.accel_cart, Lagrangian.accel_pend.
    by_value (diff_by energy (Sym sym_t)).
    cbn. generalize (uf (x1, v1, x2, v2)). intros u.
    revert Hd. trig x2 s c Hsc. intros Hd.
    field_simplify_eq; [|lra]. poly.
  - by_value (atoms energy). unfold rho.
    destruct (env_L_parameter (X t) 0 m1 m2 l g) as (E1 & E2 & E3 & E4 & _).
    repeat constructor.
    + apply derivable_pt_lim_ext with (f := fun _ => m1).
      { intros s. now destruct (X s) as [[[x1 v1] x2] v2]. }
      apply derivable_pt_lim_const.
    + apply derivable_pt_lim_ext with (f := fun s => getitem 1 (X s)).
      { intros s. now destruct (X s) as [[[x1 v1] x2] v2]. }
      apply (derivable_pt_lim_eq _ _ (getitem 1 rates));
        [reflexivity|apply HX; lia].
    + apply derivable_pt_lim_ext with (f := fun s => getitem 3 (X s)).
      { intros s. now destruct (X s) as [[[x1 v1] x2] v2]. }
      apply (derivable_pt_lim_eq _ _ (getitem 3 rates));
        [reflexivity|apply HX; lia].
    + apply derivable_pt_lim_ext with (f := fun _ => m2).
      { intros s. now destruct (X s) as [[[x1 v1] x2] v2]. }
      apply derivable_pt_lim_const.
    + apply derivable_pt_lim_ext with (f := fun _ => g).
      { intros s. now destruct (X s) as [[[x1 v1] x2] v2]. }
      apply derivable_pt_lim_const.
    + apply derivable_pt_lim_ext with (f := fun _ => l).
      { intros s. now destruct (X s) as [[[x1 v1] x2] v2]. }
      apply derivable_pt_lim_const.
    + apply derivable_pt_lim_ext with (f := fun s => getitem 2 (X s)).
      { intros s. now destruct (X s) as [[[x1 v1] x2] v2]. }
      apply (derivable_pt_lim_eq _ _ (getitem 2 rates));
        [|apply HX; lia].
      unfold rates. destruct (rates_positions (X t) t uf m1 m2 l g) as [_ ->].
      now destruct (X t) as [[[x1 v1] x2] v2].
  - apply defined_denoms. by_value (denoms energy).
    repeat constructor; cbn; lra.
Qed.

(** The chain rule as [sp.diff] applies it: the time derivative of an
    autonomous expression is the sum of its partial derivatives by the
    four functions of time, each times the derivative of the function. *)
Lemma ddt_chain (rho : env R) (e : expr) :
  autonomous e = true ->
  eval rho (diff_by e (Sym sym_t))
  = eval rho (diff_by e (Fn fn_x1 0)) * rho (Fn fn_x1 1)
    + eval rho (diff_by e (Fn fn_p1 0)) * rho (Fn fn_p1 1)
    + eval rho (diff_by e (Fn fn_x2 0)) * rho (Fn fn_x2 1)
    + eval rho (diff_by e (Fn fn_p2 0)) * rho (Fn fn_p2 1).
Proof.
  unfold autonomous.
  induction e; cbn [leaves]; rewrite ?forallb_app; intros Ha;
    try (apply andb_true_iff in Ha as [Ha1 Ha2];
         specialize (IHe1 Ha1); specialize (IHe2 Ha2));
    try specialize (IHe Ha).
  - cbn. ring.
  - cbn. ring.
  - cbn [forallb] in Ha. destruct a as [[]|[] [|n]]; try discriminate;
      cbn; ring.
  - cbn [diff_by eval s_add Scalar_R]. rewrite IHe1, IHe2. ring.
  - cbn [diff_by eval s_sub Scalar_R]. rewrite IHe1, IHe2. ring.
  - cbn [diff_by eval s_add s_mul Scalar_R]. rewrite IHe1, IHe2. ring.
  - cbn [diff_by]. destruct e2; cbv iota;
      cbn [eval s_sub s_mul s_div s_pow s_of_Z Scalar_R];
      rewrite ?IHe1, ?IHe2; unfold Rdiv; ring.
  - cbn [diff_by eval s_neg Scalar_R]. rewrite IHe. ring.
  - destruct n as [|k].
    + cbn. ring.
    + cbn [diff_by eval s_mul Scalar_R]. rewrite IHe. ring.
  - cbn [diff_by eval s_mul s_cos Scalar_R]. rewrite IHe. ring.
  - cbn [diff_by eval s_mul s_neg s_sin Scalar_R]. rewrite IHe. ring.
Qed.

Lemma defined_ext (rho rho' : env R) (e : expr) :
  (forall a, occurs a e = true -> rho a = rho' a) ->
  defined rho e -> defined rho' e.
Proof.
  induction e; cbn [occurs defined]; intros Hag Hdef; auto;
    try (destruct Hdef as [H1 H2]; split;
         [apply IHe1; [intros a Ha; apply Hag; now rewrite Ha|exact H1]
         |apply IHe2; [intros a Ha; apply Hag; rewrite Ha; apply orb_true_r
                      |exact H2]]).
  destruct Hdef as (H1 & H2 & Hq). split; [|split].
  - apply IHe1; [intros a Ha; apply Hag; now rewrite Ha|exact H1].
  - apply IHe2; [intros a Ha; apply Hag; rewrite Ha; apply orb_true_r
                |exact H2].
  - rewrite <- (eval_ext rho rho' e2); [exact Hq|].
    intros a Ha. apply Hag. rewrite Ha. apply orb_true_r.
Qed.

Lemma defined_ext_atoms (rho rho' : env R) (e : expr) :
  Forall (fun a => rho a = rho' a) (atoms e) ->
  defined rho e -> defined rho' e.
Proof.
  intros Hall. apply defined_ext. intros a Ha.
  rewrite Forall_forall in Hall. apply Hall.
  apply nodup_In, occurs_leaves, Ha.
Qed.

Lemma H_defined (x1 p1 x2 p2 t u m1 m2 l g : R) :
  m2 <> 0 -> l <> 0 -> m1 + m2 * (sin x2 * sin x2) <> 0 ->
  defined (Hamiltonian.env_H (x1, p1, x2, p2) t u m1 m2 l g) Hamiltonian.H.
Proof.
  intros Hm2 Hl Hd.
  assert (Hdet : m2 * (l * l) * (m1 + m2 * (sin x2 * sin x2)) <> 0)
    by (repeat apply Rmult_integral_contrapositive_currified; assumption).
  apply defined_denoms. by_value (denoms Hamiltonian.H).
  repeat constructor; cbn; try lra.
  name_det x1 p1 x2 p2 t u m1 m2 l g.
  repeat apply Rmult_integral_contrapositive_currified; assumption || lra.
Qed.

(** Along a trajectory of the Hamiltonian system the Hamiltonian changes
    at the rate [- u] times the rate of the cart position. *)
Lemma hamiltonian_rate (m1 m2 l g : R) (uf : State R -> R)
    (Y : R -> State R) (t : R) :
  0 < m1 -> 0 < m2 -> 0 < l ->
  Hamiltonian.solves_H m1 m2 l g uf Y ->
  derivable_pt_lim (fun s => hamiltonian m1 m2 l g (Y s)) t
    (- uf (Y t)
     * nth 0 (Hamiltonian.get_PendulumCartRates_Hamiltonian (M := Id)
                (Y t) t uf m1 m2 l g) 0).
Proof.
  intros Hm1 Hm2 Hl HY.
  set (rates := Hamiltonian.get_PendulumCartRates_Hamiltonian (M := Id)
                  (Y t) t uf m1 m2 l g).
  set (rho := fun s =>
         upd (upd (upd (upd (Hamiltonian.env_H (Y s) 0 0 m1 m2 l g)
                            (Fn fn_x1 1) (nth 0 rates 0))
                       (Fn fn_p1 1) (nth 1 rates 0))
                  (Fn fn_x2 1) (nth 2 rates 0))
             (Fn fn_p2 1) (nth 3 rates 0)).
  apply derivable_pt_lim_ext with (f := fun s => eval (rho s) Hamiltonian.H).
  { intros s. unfold hamiltonian. apply eval_ext_atoms.
    by_value (atoms Hamiltonian.H). unfold rho.
    destruct (Y s) as [[[x1 p1] x2] p2]. repeat constructor. }
  eapply derivable_pt_lim_eq; [|apply ddt_correct_atoms].
  - rewrite ddt_chain by (vm_compute; reflexivity).
    assert (R0 : rho t (Fn fn_x1 1) = nth 0 rates 0) by reflexivity.
    assert (R1 : rho t (Fn fn_p1 1) = nth 1 rates 0) by reflexivity.
    assert (R2 : rho t (Fn fn_x2 1) = nth 2 rates 0) by reflexivity.
    assert (R3 : rho t (Fn fn_p2 1) = nth 3 rates 0) by reflexivity.
    rewrite R0, R1, R2, R3. clear R0 R1 R2 R3.
    set (rho0 := Hamiltonian.env_H (Y t) t (uf (Y t)) m1 m2 l g).
    assert (Hpart : forall q, In q [Fn fn_x1 0; Fn fn_p1 0; Fn fn_x2 0;
                                    Fn fn_p2 0] ->
              eval (rho t) (diff_by Hamiltonian.H q)
              = eval rho0 (diff_by Hamiltonian.H q)).
    { intros q Hq. apply eval_ext_atoms. unfold rho, rho0.
      destruct (Y t) as [[[x1 p1] x2] p2].
      cbn [In] in Hq.
      destruct Hq as [<-|[<-|[<-|[<-|[]]]]];
        match goal with
        | |- Forall _ (atoms ?e) => by_value (atoms e)
        end; repeat constructor. }
    rewrite !Hpart by (cbn [In]; tauto). clear Hpart.
    unfold rates. rewrite rates_H_law, !rates_H_nth. fold rho0.
    cbv [nth Hamiltonian.Xds Hamiltonian.x1d_exp Hamiltonian.p1d_exp
         Hamiltonian.x2d_exp Hamiltonian.p2d_exp Hamiltonian.ddx diff
         Hamiltonian.x1_t Hamiltonian.x2_t Hamiltonian.p1_t Hamiltonian.p2_t
         Hamiltonian.u].
    cbn [eval s_sub s_neg Scalar_R]. rewrite !eval_simplify.
    assert (Eu : rho0 (Sym sym_u) = uf (Y t)).
    { unfold rho0. now destruct (Y t) as [[[x1 p1] x2] p2]. }
    rewrite Eu. ring.
  - by_value (atoms Hamiltonian.H). unfold rho.
    repeat constructor.
    + apply derivable_pt_lim_ext with (f := fun s => getitem 1 (Y s)).
      { intros s. now destruct (Y s) as [[[x1 p1] x2] p2]. }
      apply (derivable_pt_lim_eq _ _ (nth 1 rates 0));
        [reflexivity|apply HY; lia].
    + apply derivable_pt_lim_ext with (f := fun s => getitem 3 (Y s)).
      { intros s. now destruct (Y s) as [[[x1 p1] x2] p2]. }
      apply (derivable_pt_lim_eq _ _ (nth 3 rates 0));
        [reflexivity|apply HY; lia].
    + apply derivable_pt_lim_ext with (f := fun _ => m1).
      { intros s. now destruct (Y s) as [[[x1 p1] x2] p2]. }
      apply derivable_pt_lim_const.
    + apply derivable_pt_lim_ext with (f := fun _ => m2).
      { intros s. now destruct (Y s) as [[[x1 p1] x2] p2]. }
      apply derivable_pt_lim_const.
    + apply derivable_pt_lim_ext with (f := fun _ => g).
      { intros s. now destruct (Y s) as [[[x1 p1] x2] p2]. }
      apply derivable_pt_lim_const.
    + apply derivable_pt_lim_ext with (f := fun _ => l).
      { intros s. now destruct (Y s) as [[[x1 p1] x2] p2]. }
      apply derivable_pt_lim_const.
    + apply derivable_pt_lim_ext with (f := fun s => getitem 2 (Y s)).
      { intros s. now destruct (Y s) as [[[x1 p1] x2] p2]. }
      apply (derivable_pt_lim_eq _ _ (nth 2 rates 0));
        [reflexivity|apply HY; lia].
  - apply defined_ext_atoms
      with (rho := Hamiltonian.env_H (Y t) 0 0 m1 m2 l g).
    + by_value (atoms Hamiltonian.H). unfold rho.
      destruct (Y t) as [[[x1 p1] x2] p2]. repeat constructor.
    + destruct (Y t) as [[[x1 p1] x2] p2].
      apply H_defined; try lra. now apply mass_matrix_regular.
Qed.

(** The total energy in the usual closed form. *)
Lemma total_energy_closed (m1 m2 l g x1 v1 x2 v2 : R) :
  total_energy m1 m2 l g (x1, v1, x2, v2)
  = (m1 + m2) * (v1 * v1) / 2 + m2 * l * cos x2 * v1 * v2
    + m2 * (l * l) * (v2 * v2) / 2 + m2 * g * l * cos x2.
Proof.
  unfold total_energy. by_value energy. cbn.
  trig x2 s c Hsc. field_simplify_eq. poly.
Qed.

(** The Legendre transformation gives the total energy: the Hamiltonian
    at the momenta of a velocity state is the energy of that state. *)
Lemma hamiltonian_is_energy (m1 m2 l g : R) (X : State R) :
  0 < m1 -> 0 < m2 -> 0 < l ->
  hamiltonian m1 m2 l g (Hamiltonian.momenta m1 m2 l X)
  = total_energy m1 m2 l g X.
Proof.
  intros Hm1 Hm2 Hl. destruct X as [[[x1 v1] x2] v2].
  rewrite total_energy_closed.
  pose proof (mass_matrix_regular m1 m2 x2 Hm1 Hm2) as Hd.
  unfold hamiltonian, Hamiltonian.momenta.
  by_value Hamiltonian.H. cbn.
  name_det x1 ((m1 + m2) * v1 + m2 * l * cos x2 * v2) x2
    (m2 * l * cos x2 * v1 + m2 * (l * l) * v2) 0 0 m1 m2 l g.
  revert Hd. trig x2 s c Hsc. intros Hd.
  field_simplify_eq; [|lra]. poly.
Qed.

(** A motion to try the results on: the pendulum hangs and the cart
    drifts at unit speed, with no control. *)
Lemma drifting_cart_solves_L :
  Hamiltonian.solves_L 1 1 1 (-10) Lagrangian.control_no
    (fun s => (s, 1, 0, 0)).
Proof.
  intros t i Hi.
  rewrite get_PendulumCartRates_closed by (rewrite ?sin_0; lra).
  unfold Lagrangian.accel_cart, Lagrangian.accel_pend, Lagrangian.control_no.
  rewrite sin_0, cos_0. cbn [s_of_Z Scalar_R].
  destruct i as [|[|[|[|i]]]]; try lia; cbn [getitem].
  - apply derivable_pt_lim_id.
  - eapply derivable_pt_lim_eq; [|apply derivable_pt_lim_const]. field.
  - apply derivable_pt_lim_const.
  - eapply derivable_pt_lim_eq; [|apply derivable_pt_lim_const]. field.
Qed.

Lemma drifting_cart_solves_H :
  Hamiltonian.solves_H 1 1 1 (-10) (fun _ => 0)
    (fun s => Hamiltonian.momenta 1 1 1 (s, 1, 0, 0)).
Proof.
  apply momenta_maps_solutions with (uf := Lagrangian.control_no);
    try lra.
  - intros Z. unfold Lagrangian.control_no. cbn. lra.
  - exact drifting_cart_solves_L.
Qed.

End MechanicsFacts.

(** ** Facts about notebook 3 *)

Module Lagrangian3Facts.
Import Sympy Numpy Scipy SympyFacts LagrangianFacts HamiltonianFacts ScipyFacts.
Import Lagrangian3.
Open Scope R_scope.

Lemma sin_reflected (x : R) : sin (PI - x) = sin x.
Proof. rewrite sin_minus, sin_PI, cos_PI. ring. Qed.

Lemma cos_reflected (x : R) : cos (PI - x) = - cos x.
Proof. rewrite cos_minus, sin_PI, cos_PI. ring. Qed.

(** The dynamics function of the third notebook in closed form: the
    accelerations of the first notebook at the angle measured from the
    other end of the axis, the angular one with its sign changed. *)
Lemma rates3_closed (x v theta omega t : R) (uf : State R -> R)
    (m_c m_p l g : R) :
  m_p <> 0 -> l <> 0 -> m_c + m_p * (sin theta * sin theta) <> 0 ->
  get_PendulumCartRates (M := Id) (x, v, theta, omega) t uf m_c m_p l g
  = (v,
     Lagrangian.accel_cart (PI - theta) (- omega)
       (uf (x, v, theta, omega)) m_c m_p l g,
     omega,
     - Lagrangian.accel_pend (PI - theta) (- omega)
         (uf (x, v, theta, omega)) m_c m_p l g).
Proof.
  intros Hm Hl. cbv [get_PendulumCartRates bind ret Monad_Id].
  generalize (uf (x, v, theta, omega)). intros u.
  unfold Lagrangian.accel_cart, Lagrangian.accel_pend,
    y1dd_function, y2dd_function, lambdify.
  rewrite sin_reflected, cos_reflected.
  by_value y1dd. by_value y2dd. cbn.
  trig theta s c Hsc. intros Hd.
  apply State_eq; try reflexivity;
    match goal with
    | |- _ / ?d = _ =>
        assert (Hdet : d = m_p * (l * l) * (m_c + m_p * (s * s)))
          by (field_simplify_eq; poly);
        rewrite Hdet
    end;
    (field_simplify_eq; [poly|repeat split; assumption]).
Qed.

(** Every atom of the lambdified expressions is one of the formal
    arguments. *)
Lemma lambdified_closed_3 :
  forallb (fun a => existsb (fun f => match f with
                                      | At b => atom_eqb a b
                                      | _ => false
                                      end) formals)
          (atoms y1dd ++ atoms y2dd) = true.
Proof. vm_compute. reflexivity. Qed.

End Lagrangian3Facts.

(** ** Facts about slices and frames *)

Module AnimationFacts.
Import Sympy Numpy SympyFacts NumpyFacts.
Import Animation.

Lemma nth_stride_from {A : Type} (skip : nat) (a : list A) (c i : nat)
    (d : A) :
  nth i (stride_from skip c a) d = nth (c + i * S skip) a d.
Proof.
  revert c i. induction a as [|x rest IH]; intros c i.
  - cbn. now destruct i, (c + _)%nat.
  - destruct c as [|c']; cbn [stride_from].
    + destruct i as [|i']; [reflexivity|].
      cbn [nth]. rewrite IH.
      replace (0 + S i' * S skip)%nat with (S (skip + i' * S skip)) by lia.
      reflexivity.
    + rewrite IH. reflexivity.
Qed.

Lemma length_stride_from {A : Type} (skip : nat) (a : list A) (c : nat) :
  (c <= skip)%nat ->
  length (stride_from skip c a) = ((length a + skip - c) / S skip)%nat.
Proof.
  revert c. induction a as [|x rest IH]; intros c Hc.
  - cbn [stride_from length]. symmetry. apply Nat.div_small. lia.
  - destruct c as [|c']; cbn [stride_from length].
    + rewrite IH by lia.
      replace (S (length rest) + skip - 0)%nat
        with (length rest + skip - skip + 1 * S skip)%nat by lia.
      rewrite Nat.div_add; lia.
    + rewrite IH by lia. reflexivity.
Qed.

Lemma slice_step_length {A : Type} (k : nat) (a : list A) :
  (1 <= k)%nat ->
  length (slice_step k a) = ((length a + (k - 1)) / k)%nat.
Proof.
  intros Hk. unfold slice_step. rewrite length_stride_from by lia.
  replace (S (k - 1)) with k by lia. f_equal. lia.
Qed.

Lemma slice_step_nth {A : Type} (k : nat) (a : list A) (i : nat) (d : A) :
  (1 <= k)%nat -> nth i (slice_step k a) d = nth (i * k) a d.
Proof.
  intros Hk. unfold slice_step. rewrite nth_stride_from.
  replace (S (k - 1)) with k by lia. reflexivity.
Qed.

(** The positions that [animate] evaluates mention no atom besides the
    three that [sub_obs] gives a value. *)
Lemma pendulum_pos_closed :
  forallb (fun pos_args =>
             forallb (fun a => existsb (atom_eqb a) (snd pos_args))
                     (flat_map atoms (fst pos_args)))
    [ (Lagrangian.pendulum_pos, [Fn fn_x1 0; Fn fn_x2 0; Sym sym_l]);
      (Hamiltonian.pendulum_pos, [Fn fn_x1 0; Fn fn_x2 0; Sym sym_l]);
      (Lagrangian3.pendulum_pos, [Fn fn_x1 0; Fn fn_x2 0; Sym sym_l]) ]
  = true.
Proof. vm_compute. reflexivity. Qed.

Lemma nth_error_some_nth {A : Type} (a : list A) (i : nat) (d : A) :
  (i < length a)%nat -> nth_error a i = Some (nth i a d).
Proof.
  revert i. induction a as [|x a IH]; intros [|i] Hi; cbn in *;
    try lia; [reflexivity|apply IH; lia].
Qed.

End AnimationFacts.

(** ** The linearised model in closed form *)

Module LinearisationFacts.
Import Sympy Numpy Control SympyFacts LagrangianFacts HamiltonianFacts.
Import ControlFacts Linearisation.
Open Scope R_scope.

Lemma rows4_eq {A : Type} (a b c d a' b' c' d' : A) :
  a = a' -> b = b' -> c = c' -> d = d' -> [a; b; c; d] = [a'; b'; c'; d'].
Proof. now intros -> -> -> ->. Qed.

(** A denominator of an entry at the upright state: the determinant of
    the mass matrix, [m1 m2 l^2]. *)
Ltac upright_denominators m1 m2 l :=
  repeat split; try assumption;
  match goal with
  | |- ?d <> 0 =>
      replace d with (m1 * m2 * (l * l)) by ring;
      repeat apply Rmult_integral_contrapositive_currified; assumption
  end.

Lemma A_matrix_value (m1 m2 l g : R) :
  m1 <> 0 -> m2 <> 0 -> l <> 0 ->
  A_matrix m1 m2 l g
  = [ [0; 1; 0; 0]; [0; 0; - (m2 * g) / m1; 0];
      [0; 0; 0; 1]; [0; 0; - ((m1 + m2) * g) / (m1 * l); 0] ].
Proof.
  intros Hm1 Hm2 Hl. unfold A_matrix. by_value Lagrangian.A_sp.
  cbn. rewrite ?sin_PI, ?cos_PI.
  apply rows4_eq; apply rows4_eq; try reflexivity;
    field; upright_denominators m1 m2 l.
Qed.

Lemma B_matrix_value (m1 m2 l g : R) :
  m1 <> 0 -> m2 <> 0 -> l <> 0 ->
  B_matrix m1 m2 l g = [ [0]; [1 / m1]; [0]; [1 / (m1 * l)] ].
Proof.
  intros Hm1 Hm2 Hl. unfold B_matrix. by_value Lagrangian.B_sp.
  cbn. rewrite ?sin_PI, ?cos_PI.
  apply rows4_eq; f_equal; try reflexivity;
    field; upright_denominators m1 m2 l.
Qed.

(** At the parameter values of the notebook these are the arrays handed
    to the LQR routine. *)
Lemma matrices_at_param_vals :
  A_matrix 1 1 1 (-10) = Lagrangian.A_np
  /\ B_matrix 1 1 1 (-10) = Lagrangian.B_np.
Proof.
  rewrite A_matrix_value, B_matrix_value, A_np_value, B_np_value by lra.
  split.
  - apply rows4_eq; apply rows4_eq; try reflexivity; field.
  - apply rows4_eq; f_equal; try reflexivity; field.
Qed.

End LinearisationFacts.

(** ** The Riccati equation for any pair of four states and one input *)

Module RiccatiFacts.
Import Sympy Numpy Scipy Control SympyFacts LagrangianFacts HamiltonianFacts.
Import ScipyFacts ControlFacts HamiltonianControl.
Open Scope R_scope.

(** The Lyapunov argument for any pair [(A, B)] of four states and one
    input, in coordinates: [aij] and [bi] are the entries of [A] and
    [B], [rr] is [1 / R], [k = P B], [qij] is [A^T P] and [rij] the
    residual of the Riccati equation with [Q] the identity. *)
Section LyapunovGeneral.
Variables a11 a12 a13 a14 a21 a22 a23 a24 a31 a32 a33 a34 a41 a42 a43 a44 : R.
Variables b1 b2 b3 b4 rr : R.
Variables p11 p12 p13 p14 p22 p23 p24 p33 p34 p44 : R.
Variables x1 x2 x3 x4 y1 y2 y3 y4 a b : R.
Let k1 := p11 * b1 + p12 * b2 + p13 * b3 + p14 * b4.
Let k2 := p12 * b1 + p22 * b2 + p23 * b3 + p24 * b4.
Let k3 := p13 * b1 + p23 * b2 + p33 * b3 + p34 * b4.
Let k4 := p14 * b1 + p24 * b2 + p34 * b3 + p44 * b4.
Let kx := k1 * x1 + k2 * x2 + k3 * x3 + k4 * x4.
Let ky := k1 * y1 + k2 * y2 + k3 * y3 + k4 * y4.
Let V (z1 z2 z3 z4 : R) :=
  p11 * z1 * z1 + p22 * z2 * z2 + p33 * z3 * z3 + p44 * z4 * z4
  + 2 * (p12 * z1 * z2 + p13 * z1 * z3 + p14 * z1 * z4
         + p23 * z2 * z3 + p24 * z2 * z4 + p34 * z3 * z4).
Let q11 := a11 * p11 + a21 * p12 + a31 * p13 + a41 * p14.
Let q12 := a11 * p12 + a21 * p22 + a31 * p23 + a41 * p24.
Let q13 := a11 * p13 + a21 * p23 + a31 * p33 + a41 * p34.
Let q14 := a11 * p14 + a21 * p24 + a31 * p34 + a41 * p44.
Let q21 := a12 * p11 + a22 * p12 + a32 * p13 + a42 * p14.
Let q22 := a12 * p12 + a22 * p22 + a32 * p23 + a42 * p24.
Let q23 := a12 * p13 + a22 * p23 + a32 * p33 + a42 * p34.
Let q24 := a12 * p14 + a22 * p24 + a32 * p34 + a42 * p44.
Let q31 := a13 * p11 + a23 * p12 + a33 * p13 + a43 * p14.
Let q32 := a13 * p12 + a23 * p22 + a33 * p23 + a43 * p24.
Let q33 := a13 * p13 + a23 * p23 + a33 * p33 + a43 * p34.
Let q34 := a13 * p14 + a23 * p24 + a33 * p34 + a43 * p44.
Let q41 := a14 * p11 + a24 * p12 + a34 * p13 + a44 * p14.
Let q42 := a14 * p12 + a24 * p22 + a34 * p23 + a44 * p24.
Let q43 := a14 * p13 + a24 * p23 + a34 * p33 + a44 * p34.
Let q44 := a14 * p14 + a24 * p24 + a34 * p34 + a44 * p44.
Let r11 := q11 + q11 - rr * k1 * k1 + 1.
Let r12 := q12 + q21 - rr * k1 * k2.
Let r13 := q13 + q31 - rr * k1 * k3.
Let r14 := q14 + q41 - rr * k1 * k4.
Let r22 := q22 + q22 - rr * k2 * k2 + 1.
Let r23 := q23 + q32 - rr * k2 * k3.
Let r24 := q24 + q42 - rr * k2 * k4.
Let r33 := q33 + q33 - rr * k3 * k3 + 1.
Let r34 := q34 + q43 - rr * k3 * k4.
Let r44 := q44 + q44 - rr * k4 * k4 + 1.
Let W (z1 z2 z3 z4 : R) :=
  r11 * (z1 * z1) + r12 * (z1 * z2) + r13 * (z1 * z3) + r14 * (z1 * z4)
  + r12 * (z2 * z1) + r22 * (z2 * z2) + r23 * (z2 * z3) + r24 * (z2 * z4)
  + r13 * (z3 * z1) + r23 * (z3 * z2) + r33 * (z3 * z3) + r34 * (z3 * z4)
  + r14 * (z4 * z1) + r24 * (z4 * z2) + r34 * (z4 * z3) + r44 * (z4 * z4).
Hypothesis E1 : a11 * x1 + a12 * x2 + a13 * x3 + a14 * x4 - b1 * rr * kx = a * x1 - b * y1.
Hypothesis E2 : a21 * x1 + a22 * x2 + a23 * x3 + a24 * x4 - b2 * rr * kx = a * x2 - b * y2.
Hypothesis E3 : a31 * x1 + a32 * x2 + a33 * x3 + a34 * x4 - b3 * rr * kx = a * x3 - b * y3.
Hypothesis E4 : a41 * x1 + a42 * x2 + a43 * x3 + a44 * x4 - b4 * rr * kx = a * x4 - b * y4.
Hypothesis F1 : a11 * y1 + a12 * y2 + a13 * y3 + a14 * y4 - b1 * rr * ky = b * x1 + a * y1.
Hypothesis F2 : a21 * y1 + a22 * y2 + a23 * y3 + a24 * y4 - b2 * rr * ky = b * x2 + a * y2.
Hypothesis F3 : a31 * y1 + a32 * y2 + a33 * y3 + a34 * y4 - b3 * rr * ky = b * x3 + a * y3.
Hypothesis F4 : a41 * y1 + a42 * y2 + a43 * y3 + a44 * y4 - b4 * rr * ky = b * x4 + a * y4.

Lemma lyapunov_identity_general :
  2 * a * (V x1 x2 x3 x4 + V y1 y2 y3 y4)
  = W x1 x2 x3 x4 + W y1 y2 y3 y4
    - (x1 * x1 + x2 * x2 + x3 * x3 + x4 * x4
       + (y1 * y1 + y2 * y2 + y3 * y3 + y4 * y4)
       + rr * kx * kx + rr * ky * ky).
Proof.
  unfold V, W, r11, r12, r13, r14, r22, r23, r24, r33, r34, r44,
    q11, q12, q13, q14, q21, q22, q23, q24, q31, q32, q33, q34,
    q41, q42, q43, q44, kx, ky, k1, k2, k3, k4 in *.
  nsatz.
Qed.

Variable tol : R.
Hypothesis Hrr : 0 <= rr.
Hypothesis Htol : 4 * tol < 1.
Hypothesis B11 : - tol <= r11 <= tol.
Hypothesis B12 : - tol <= r12 <= tol.
Hypothesis B13 : - tol <= r13 <= tol.
Hypothesis B14 : - tol <= r14 <= tol.
Hypothesis B22 : - tol <= r22 <= tol.
Hypothesis B23 : - tol <= r23 <= tol.
Hypothesis B24 : - tol <= r24 <= tol.
Hypothesis B33 : - tol <= r33 <= tol.
Hypothesis B34 : - tol <= r34 <= tol.
Hypothesis B44 : - tol <= r44 <= tol.

Lemma residual_form_bound_general (z1 z2 z3 z4 : R) :
  W z1 z2 z3 z4 <= 4 * tol * (z1 * z1 + z2 * z2 + z3 * z3 + z4 * z4).
Proof.
  unfold W.
  pose proof (cross_bound _ _ z1 z1 B11). pose proof (cross_bound _ _ z1 z2 B12).
  pose proof (cross_bound _ _ z1 z3 B13). pose proof (cross_bound _ _ z1 z4 B14).
  pose proof (cross_bound _ _ z2 z1 B12). pose proof (cross_bound _ _ z2 z2 B22).
  pose proof (cross_bound _ _ z2 z3 B23). pose proof (cross_bound _ _ z2 z4 B24).
  pose proof (cross_bound _ _ z3 z1 B13). pose proof (cross_bound _ _ z3 z2 B23).
  pose proof (cross_bound _ _ z3 z3 B33). pose proof (cross_bound _ _ z3 z4 B34).
  pose proof (cross_bound _ _ z4 z1 B14). pose proof (cross_bound _ _ z4 z2 B24).
  pose proof (cross_bound _ _ z4 z3 B34). pose proof (cross_bound _ _ z4 z4 B44).
  lra.
Qed.

Hypothesis PSDx : 0 <= V x1 x2 x3 x4.
Hypothesis PSDy : 0 <= V y1 y2 y3 y4.
Hypothesis NZ :
  0 < x1 * x1 + x2 * x2 + x3 * x3 + x4 * x4
      + (y1 * y1 + y2 * y2 + y3 * y3 + y4 * y4).

Lemma lyapunov_negative_general : a < 0.
Proof.
  pose proof lyapunov_identity_general as I.
  pose proof (residual_form_bound_general x1 x2 x3 x4) as Wx.
  pose proof (residual_form_bound_general y1 y2 y3 y4) as Wy.
  pose proof (sumsq_nonneg x1 x2 x3 x4) as Nx.
  pose proof (sumsq_nonneg y1 y2 y3 y4) as Ny.
  assert (Kx : 0 <= rr * kx * kx).
  { rewrite Rmult_assoc. apply Rmult_le_pos; [exact Hrr|apply Rle_0_sqr]. }
  assert (Ky : 0 <= rr * ky * ky).
  { rewrite Rmult_assoc. apply Rmult_le_pos; [exact Hrr|apply Rle_0_sqr]. }
  pose proof (shrink (4 * tol) _ _ Htol Nx Ny NZ) as Sh.
  destruct (Rlt_le_dec a 0) as [Ha|Ha]; [exact Ha|].
  assert (0 <= a * (V x1 x2 x3 x4 + V y1 y2 y3 y4))
    by (apply Rmult_le_pos; lra).
  lra.
Qed.

End LyapunovGeneral.

Lemma column4_inv (B : matrix) :
  length B = 4%nat -> Forall (fun row => length row = 1%nat) B ->
  exists b1 b2 b3 b4, B = [[b1]; [b2]; [b3]; [b4]].
Proof.
  intros HB Hrows.
  destruct B as [|r1 [|r2 [|r3 [|r4 [|r5 B]]]]]; try discriminate.
  inversion_clear Hrows as [|? ? H1 Hrows1].
  inversion_clear Hrows1 as [|? ? H2 Hrows2].
  inversion_clear Hrows2 as [|? ? H3 Hrows3].
  inversion_clear Hrows3 as [|? ? H4 _].
  destruct r1 as [|b1 [|]]; try discriminate.
  destruct r2 as [|b2 [|]]; try discriminate.
  destruct r3 as [|b3 [|]]; try discriminate.
  destruct r4 as [|b4 [|]]; try discriminate.
  now exists b1, b2, b3, b4.
Qed.

(** Any gain that meets the contract of the gain synthesis for a pair of
    four states and one input, with the identity as state weight, makes
    the closed loop stable. *)
Lemma contract_gain_stabilises (A B : matrix) (r tol : R) (K P : matrix) :
  square 4 A -> length B = 4%nat ->
  Forall (fun row => length row = 1%nat) B ->
  0 < r -> 4 * tol < 1 ->
  lqr_contract A B (eye 4) r tol K P ->
  hurwitz (closed_loop A B K).
Proof.
  intros HA HB HBrows Hr Htol (Hsq & Hsym & Hpsd & Hres & HK) a b
         (x & y & Hx & Hy & Hnz & Ex & Ey).
  subst K. unfold gain, riccati_residual in *.
  assert (Hrr : 0 <= / r) by (left; now apply Rinv_0_lt_compat).
  revert Hrr Hres Hx Hy Ex Ey. generalize (/ r). intros rr Hrr Hres Hx Hy Ex Ey.
  destruct (square4_inv A HA) as (c1 & c2 & c3 & c4 & -> & L1 & L2 & L3 & L4).
  destruct (length4_inv c1 L1) as (a11 & a12 & a13 & a14 & ->).
  destruct (length4_inv c2 L2) as (a21 & a22 & a23 & a24 & ->).
  destruct (length4_inv c3 L3) as (a31 & a32 & a33 & a34 & ->).
  destruct (length4_inv c4 L4) as (a41 & a42 & a43 & a44 & ->).
  clear L1 L2 L3 L4 HA.
  destruct (column4_inv B HB HBrows) as (b1 & b2 & b3 & b4 & ->).
  clear HB HBrows.
  change (n_rows [[a11; a12; a13; a14]; [a21; a22; a23; a24];
                  [a31; a32; a33; a34]; [a41; a42; a43; a44]])
    with 4%nat in *.
  destruct (square4_inv P Hsq) as (r1 & r2 & r3 & r4 & -> & L1 & L2 & L3 & L4).
  destruct (length4_inv r1 L1) as (p11 & p12 & p13 & p14 & ->).
  destruct (length4_inv r2 L2) as (p21 & p22 & p23 & p24 & ->).
  destruct (length4_inv r3 L3) as (p31 & p32 & p33 & p34 & ->).
  destruct (length4_inv r4 L4) as (p41 & p42 & p43 & p44 & ->).
  clear Hsq L1 L2 L3 L4.
  matrix_entries_in Hx. matrix_entries_in Hy.
  destruct (length4_inv x Hx) as (x1 & x2 & x3 & x4 & ->).
  destruct (length4_inv y Hy) as (y1 & y2 & y3 & y4 & ->).
  clear Hx Hy.
  cbv [symmetric n_rows length] in Hsym.
  pose proof (Hsym 1 0 ltac:(lia) ltac:(lia))%nat as S21.
  pose proof (Hsym 2 0 ltac:(lia) ltac:(lia))%nat as S31.
  pose proof (Hsym 3 0 ltac:(lia) ltac:(lia))%nat as S41.
  pose proof (Hsym 2 1 ltac:(lia) ltac:(lia))%nat as S32.
  pose proof (Hsym 3 1 ltac:(lia) ltac:(lia))%nat as S42.
  pose proof (Hsym 3 2 ltac:(lia) ltac:(lia))%nat as S43.
  cbv [entry nth] in S21, S31, S41, S32, S42, S43. subst.
  clear Hsym.
  pose proof (Hpsd [x1; x2; x3; x4] eq_refl) as Px.
  pose proof (Hpsd [y1; y2; y3; y4] eq_refl) as Py.
  clear Hpsd.
  matrix_entries_in Px. matrix_entries_in Py.
  pose proof (Rabs_le_bounds _ _ (Hres 0 0 ltac:(lia) ltac:(lia))%nat) as B11.
  pose proof (Rabs_le_bounds _ _ (Hres 0 1 ltac:(lia) ltac:(lia))%nat) as B12.
  pose proof (Rabs_le_bounds _ _ (Hres 0 2 ltac:(lia) ltac:(lia))%nat) as B13.
  pose proof (Rabs_le_bounds _ _ (Hres 0 3 ltac:(lia) ltac:(lia))%nat) as B14.
  pose proof (Rabs_le_bounds _ _ (Hres 1 1 ltac:(lia) ltac:(lia))%nat) as B22.
  pose proof (Rabs_le_bounds _ _ (Hres 1 2 ltac:(lia) ltac:(lia))%nat) as B23.
  pose proof (Rabs_le_bounds _ _ (Hres 1 3 ltac:(lia) ltac:(lia))%nat) as B24.
  pose proof (Rabs_le_bounds _ _ (Hres 2 2 ltac:(lia) ltac:(lia))%nat) as B33.
  pose proof (Rabs_le_bounds _ _ (Hres 2 3 ltac:(lia) ltac:(lia))%nat) as B34.
  pose proof (Rabs_le_bounds _ _ (Hres 3 3 ltac:(lia) ltac:(lia))%nat) as B44.
  clear Hres.
  matrix_entries_in B11. matrix_entries_in B12. matrix_entries_in B13.
  matrix_entries_in B14. matrix_entries_in B22. matrix_entries_in B23.
  matrix_entries_in B24. matrix_entries_in B33. matrix_entries_in B34.
  matrix_entries_in B44.
  matrix_entries_in Ex. matrix_entries_in Ey.
  injection Ex as E1 E2 E3 E4. injection Ey as F1 F2 F3 F4.
  assert (NZ : 0 < x1 * x1 + x2 * x2 + x3 * x3 + x4 * x4
                   + (y1 * y1 + y2 * y2 + y3 * y3 + y4 * y4)).
  { pose proof (sumsq_nonneg x1 x2 x3 x4). pose proof (sumsq_nonneg y1 y2 y3 y4).
    destruct Hnz as [Hnz|Hnz]; apply nonzero_sumsq in Hnz; lra. }
  clear Hnz.
  apply lyapunov_negative_general with (a11 := a11) (a12 := a12)
    (a13 := a13) (a14 := a14) (a21 := a21) (a22 := a22) (a23 := a23)
    (a24 := a24) (a31 := a31) (a32 := a32) (a33 := a33) (a34 := a34)
    (a41 := a41) (a42 := a42) (a43 := a43) (a44 := a44) (b1 := b1)
    (b2 := b2) (b3 := b3) (b4 := b4) (rr := rr) (p11 := p11) (p12 := p12)
    (p13 := p13) (p14 := p14) (p22 := p22) (p23 := p23) (p24 := p24)
    (p33 := p33) (p34 := p34) (p44 := p44) (x1 := x1) (x2 := x2) (x3 := x3)
    (x4 := x4) (y1 := y1) (y2 := y2) (y3 := y3) (y4 := y4) (b := b)
    (tol := tol).
  all: try assumption.
  all: try (match goal with
            | |- _ = _ => nsatz
            end).
  all: try (match goal with
            | |- 0 <= _ => first [ eapply Rle_trans; [exact Px|right; ring]
                                 | eapply Rle_trans; [exact Py|right; ring] ]
            end).
  all: match goal with
       | |- - ?t <= ?e <= ?t =>
           match goal with
           | Hb : - t <= ?e' <= t |- _ =>
               replace e with e' by ring; exact Hb
           end
       end.
Qed.

Lemma R_cost_H_value : HamiltonianControl.R_cost = 1 / 1000.
Proof. reflexivity. Qed.

Lemma P_rational_H_positive_semidefinite :
  positive_semidefinite P_rational_H.
Proof.
  intros z Hz. change (n_rows P_rational_H) with 4%nat in Hz.
  destruct (length4_inv z Hz) as (z1 & z2 & z3 & z4 & ->).
  unfold P_rational_H, G_rational_H. rewrite gram_quadratic_form.
  repeat apply Rplus_le_le_0_compat; apply Rle_0_sqr.
Qed.

(** The rational matrix meets the contract for this notebook's pair and
    weights, with every entry of the residual below a thousandth. *)
Lemma rational_certificate_H :
  lqr_contract Hamiltonian.A_np Hamiltonian.B_np HamiltonianControl.Q_cost
    HamiltonianControl.R_cost (1 / 1000) K_rational_H P_rational_H.
Proof.
  unfold lqr_contract, gain, riccati_residual.
  rewrite R_cost_H_value, A_np_value_H, B_np_value_H.
  replace (/ (1 / 1000)) with 1000 by field.
  change (n_rows [[0; 1; 0; 1]; [0; 0; 0; 0]; [0; 1; 0; 2]; [0; 0; 10; 0]])
    with 4%nat.
  split; [|split; [|split; [|split]]].
  - split; [reflexivity | repeat constructor].
  - intros i j Hi Hj. change (n_rows P_rational_H) with 4%nat in Hi, Hj.
    destruct i as [|[|[|[|i]]]]; try lia;
      destruct j as [|[|[|[|j]]]]; try lia;
      cbv [P_rational_H G_rational_H]; matrix_entries; lra.
  - exact P_rational_H_positive_semidefinite.
  - intros i j Hi Hj.
    destruct i as [|[|[|[|i]]]]; try lia;
      destruct j as [|[|[|[|j]]]]; try lia;
      apply Rabs_le; cbv [P_rational_H G_rational_H HamiltonianControl.Q_cost];
      matrix_entries; lra.
  - cbv [K_rational_H P_rational_H G_rational_H]. matrix_entries.
    apply row4_eq; lra.
Qed.

End RiccatiFacts.

(** ** Main results *)

Import Sympy Numpy Scipy Control Divergence.
Import SympyFacts NumpyFacts PiFacts LagrangianFacts HamiltonianFacts.
Import ScipyFacts UprightFacts ControlFacts.
Open Scope R_scope.

(** C1, as the code has it.  With no control and [m1 = m2 = l = 1],
    [g = -10]: at the state [(0, 0, pi, 0)], with the angle exactly pi,
    the dynamics function returns the zero vector at every time, and the
    simulation started there stays there at every sample of every time
    grid.  The upright state that the program holds is
    [xsp = (0, 0, np.pi, 0)], and [np.pi] is a double a little below pi:
    there the function returns [(0, a1, 0, a2)] with [a1] and [a2]
    negative and above [-1e-14], and the free run started there has, at
    its second sample, a pendulum that is falling. *)
Theorem upright_fixed_at_exact_pi_only :
  (forall t : R,
     Lagrangian.get_PendulumCartRates (M := Id) (0, 0, PI, 0) t
       Lagrangian.control_no 1 1 1 (-10)
     = (0, 0, 0, 0))
  /\ (forall ts : list Q,
        Forall (fun X => X = (0, 0, PI, 0))
          (Lagrangian.simulate (M := Id) Lagrangian.control_no
             (0, 0, PI, 0) ts))
  /\ (forall t : R,
        exists a1 a2,
          Lagrangian.get_PendulumCartRates (M := Id) Lagrangian.xsp t
            Lagrangian.control_no 1 1 1 (-10)
          = (0, a1, 0, a2)
          /\ - / 10 ^ 14 < a1 < 0 /\ - / 10 ^ 14 < a2 < 0)
  /\ (forall (q0 q1 : Q) (rest : list Q),
        (q0 < q1)%Q -> (q1 <= q0 + 1)%Q ->
        getitem 3
          (nth 1 (Lagrangian.simulate (M := Id) Lagrangian.control_no
                    Lagrangian.xsp (q0 :: q1 :: rest)) Lagrangian.xsp)
        < 0).
Proof.
  assert (Hfix : forall t : R,
     Lagrangian.get_PendulumCartRates (M := Id) (0, 0, PI, 0) t
       Lagrangian.control_no 1 1 1 (-10) = (0, 0, 0, 0)).
  { intros t. rewrite free_rates_closed.
    unfold Lagrangian.accel_cart, Lagrangian.accel_pend.
    rewrite sin_PI, cos_PI. apply State_eq; try reflexivity; field. }
  split; [exact Hfix|split; [|split]].
  - intros ts. unfold Lagrangian.simulate.
    apply (odeint_fixed
             (fun X t => Lagrangian.get_PendulumCartRates (M := Id) X t
                           Lagrangian.control_no 1 1 1 (-10))).
    exact Hfix.
  - exact rates_at_xsp.
  - exact second_sample_falls.
Qed.

(** C1 as stated fails at the upright state of the program: at
    [xsp = (0, 0, np.pi, 0)] the dynamics function does not return the
    zero vector, and the free run started there on the grid [0, 0.001]
    is not at [xsp] at its second sample. *)
Lemma program_upright_state_not_fixed :
  Lagrangian.get_PendulumCartRates (M := Id) Lagrangian.xsp 0
    Lagrangian.control_no 1 1 1 (-10)
  <> (0, 0, 0, 0)
  /\ nth 1 (Lagrangian.simulate (T := R) (M := Id) Lagrangian.control_no
              Lagrangian.xsp [0; 1 # 1000]%Q) Lagrangian.xsp
     <> Lagrangian.xsp.
Proof.
  split.
  - destruct (rates_at_xsp 0) as (a1 & a2 & E & Ha1 & Ha2).
    rewrite E. intros [= E1 E2]. lra.
  - intros E.
    pose proof (second_sample_falls 0 (1 # 1000) [] eq_refl
                  ltac:(discriminate)) as H.
    rewrite E in H. cbn [getitem Lagrangian.xsp] in H.
    change (0 < 0) in H. lra.
Qed.

(** C9.  For every state, control law, time and parameters, in every
    scalar domain, the first and third components of the vector returned
    by [get_PendulumCartRates] are the second and fourth components of the
    state it was given; likewise whenever a control law that can raise
    lets the call return. *)
Theorem position_rates_are_velocities
    {T : Type} `{Scalar T} (x1 v1 x2 v2 t : T) (uf : State T -> T)
    (m1 m2 l g : T) :
  let Xd := Lagrangian.get_PendulumCartRates (M := Id) (x1, v1, x2, v2) t uf
              m1 m2 l g in
  (getitem 0 Xd = v1 /\ getitem 2 Xd = v2)
  /\ (forall (ufo : State T -> option T) (Xdo : State T),
        Lagrangian.get_PendulumCartRates (x1, v1, x2, v2) t ufo m1 m2 l g
        = Some Xdo ->
        getitem 0 Xdo = v1 /\ getitem 2 Xdo = v2).
Proof.
  split.
  - cbv [Lagrangian.get_PendulumCartRates bind ret Monad_Id getitem].
    split; reflexivity.
  - intros ufo Xdo.
    cbv [Lagrangian.get_PendulumCartRates bind ret Monad_option].
    destruct (ufo (x1, v1, x2, v2)) as [u|]; [|discriminate].
    intros [= <-]. split; reflexivity.
Qed.

(** C4.  The feedback law applied to a gain of shape (1, 4) returns the
    negated inner product of the gain row with [x - xsp], where
    [xsp = (0, 0, np.pi, 0)]; the open-loop law returns 0 at every
    state. *)
Theorem control_law_is_linear_feedback (k1 k2 k3 k4 x1 x2 x3 x4 : R) :
  Lagrangian.control_law [[k1; k2; k3; k4]] (x1, x2, x3, x4)
  = Some (- (k1 * (x1 - 0) + k2 * (x2 - 0) + k3 * (x3 - np_pi)
             + k4 * (x4 - 0)))
  /\ Lagrangian.control_no (x1, x2, x3, x4) = 0.
Proof. split; reflexivity. Qed.

(** C2.  For positive masses and rod length, any cart position and any
    nominal control (0 in particular): [A_sp] is a 4x4 and [B_sp] a 4x1
    matrix, entry [(i, j)] of [A_sp] is the partial derivative of the
    [i]-th component of the dynamics function by the [j]-th state
    variable, and entry [i] of [B_sp] is its partial derivative by the
    control, both taken at the upright state (angle [pi], rates zero).
    The entries have these values at whatever state [X] they are
    evaluated: the stationary-point substitution has put the angle and
    the rates of the upright state into them, and the cart position does
    not occur.  This holds for the Lagrangian notebook and for the
    Hamiltonian one. *)
Theorem linearizer_computes_jacobian (m1 m2 l g x1 u t : R) (X : State R) :
  0 < m1 -> 0 < m2 -> 0 < l ->
  let Xeq : State R := (x1, 0, PI, 0) in
  let f := fun X u =>
    Lagrangian.get_PendulumCartRates (M := Id) X t (fun _ => u) m1 m2 l g in
  let A := map (map (eval (Lagrangian.env_L X u m1 m2 l g))) Lagrangian.A_sp in
  let B := map (map (eval (Lagrangian.env_L X u m1 m2 l g))) Lagrangian.B_sp in
  let fH := fun X u =>
    Hamiltonian.get_PendulumCartRates_Hamiltonian (M := Id) X t (fun _ => u)
      m1 m2 l g in
  let AH := map (map (eval (Hamiltonian.env_H X t u m1 m2 l g))) Hamiltonian.A_sp in
  let BH := map (map (eval (Hamiltonian.env_H X t u m1 m2 l g))) Hamiltonian.B_sp in
  (length A = 4%nat /\ Forall (fun r => length r = 4%nat) A
   /\ length B = 4%nat /\ Forall (fun r => length r = 1%nat) B
   /\ (forall i j, (i < 4)%nat -> (j < 4)%nat ->
         derivable_pt_lim (fun z => getitem i (f (setitem j z Xeq) u))
           (getitem j Xeq) (nth j (nth i A []) 0))
   /\ (forall i, (i < 4)%nat ->
         derivable_pt_lim (fun z => getitem i (f Xeq z)) u
           (nth 0 (nth i B []) 0)))
  /\
  (length AH = 4%nat /\ Forall (fun r => length r = 4%nat) AH
   /\ length BH = 4%nat /\ Forall (fun r => length r = 1%nat) BH
   /\ (forall i j, (i < 4)%nat -> (j < 4)%nat ->
         derivable_pt_lim (fun z => nth i (fH (setitem j z Xeq) u) 0)
           (getitem j Xeq) (nth j (nth i AH []) 0))
   /\ (forall i, (i < 4)%nat ->
         derivable_pt_lim (fun z => nth i (fH Xeq z) 0) u
           (nth 0 (nth i BH []) 0))).
Proof.
  intros Hm1 Hm2 Hl Xeq f A B fH AH BH.
  split.
  - split; [|split; [|split; [|split; [|split]]]].
    + unfold A. now rewrite length_map.
    + unfold A, Lagrangian.A_sp. rewrite map_map.
      apply Forall_map, Forall_forall. intros xd _.
      now rewrite !length_map.
    + unfold B. now rewrite length_map.
    + unfold B, Lagrangian.B_sp. rewrite map_map.
      apply Forall_map, Forall_forall. intros xd _. reflexivity.
    + intros i j Hi Hj. now apply A_sp_is_jacobian.
    + intros i Hi. now apply B_sp_is_jacobian.
  - split; [|split; [|split; [|split; [|split]]]].
    + unfold AH. now rewrite length_map.
    + unfold AH, Hamiltonian.A_sp. rewrite map_map.
      apply Forall_map, Forall_forall. intros xd _.
      now rewrite !length_map.
    + unfold BH. now rewrite length_map.
    + unfold BH, Hamiltonian.B_sp. rewrite map_map.
      apply Forall_map, Forall_forall. intros xd _. reflexivity.
    + intros i j Hi Hj. now apply A_sp_is_jacobian_H.
    + intros i Hi. now apply B_sp_is_jacobian_H.
Qed.

Lemma linearizer_computes_jacobian_witness :
  derivable_pt_lim
    (fun z => getitem 1 (Lagrangian.get_PendulumCartRates (M := Id)
                           (setitem 2 z (0, 0, PI, 0)) 0 (fun _ => 0)
                           1 1 1 (-10)))
    PI
    (nth 2 (nth 1 (map (map (eval (Lagrangian.env_L (3, 1, 2, 5) 0 1 1 1 (-10))))
                       Lagrangian.A_sp) []) 0).
Proof.
  assert (H1 : 0 < 1) by lra.
  exact (proj1 (proj2 (proj2 (proj2 (proj2 (proj1
           (linearizer_computes_jacobian 1 1 1 (-10) 0 0 0 (3, 1, 2, 5)
              H1 H1 H1))))))
           1%nat 2%nat ltac:(lia) ltac:(lia)).
Defined.

(** C3.  For the pair [(A_np, B_np)] of the linearisation at the upright
    state with [m1 = m2 = l = 1], [g = -10], and the weights [Q = eye 4],
    [R = 0.001]: every gain [K = R^-1 B^T P] that comes from a symmetric
    positive-semidefinite [P] meeting the Riccati equation, exactly or
    with every entry of the residual below a quarter, makes every
    eigenvalue of [A_np - B_np K] have strictly negative real part. *)
Theorem lqr_gain_stabilises (tol : R) (K P : matrix) :
  4 * tol < 1 ->
  lqr_contract Lagrangian.A_np Lagrangian.B_np Lagrangian.Q_cost Lagrangian.R_cost tol K P ->
  hurwitz (closed_loop Lagrangian.A_np Lagrangian.B_np K).
Proof.
  intros Htol (Hsq & Hsym & Hpsd & Hres & HK) a b
         (x & y & Hx & Hy & Hnz & Ex & Ey).
  subst K. unfold gain, riccati_residual in *.
  rewrite R_cost_inv, A_np_value, B_np_value in *.
  change (n_rows [[0; 1; 0; 0]; [0; 0; 10; 0]; [0; 0; 0; 1]; [0; 0; 20; 0]])
    with 4%nat in *.
  destruct (square4_inv P Hsq) as (r1 & r2 & r3 & r4 & -> & L1 & L2 & L3 & L4).
  destruct (length4_inv r1 L1) as (p11 & p12 & p13 & p14 & ->).
  destruct (length4_inv r2 L2) as (p21 & p22 & p23 & p24 & ->).
  destruct (length4_inv r3 L3) as (p31 & p32 & p33 & p34 & ->).
  destruct (length4_inv r4 L4) as (p41 & p42 & p43 & p44 & ->).
  clear Hsq L1 L2 L3 L4.
  matrix_entries_in Hx. matrix_entries_in Hy.
  destruct (length4_inv x Hx) as (x1 & x2 & x3 & x4 & ->).
  destruct (length4_inv y Hy) as (y1 & y2 & y3 & y4 & ->).
  clear Hx Hy.
  cbv [symmetric n_rows length] in Hsym.
  pose proof (Hsym 1 0 ltac:(lia) ltac:(lia))%nat as S21.
  pose proof (Hsym 2 0 ltac:(lia) ltac:(lia))%nat as S31.
  pose proof (Hsym 3 0 ltac:(lia) ltac:(lia))%nat as S41.
  pose proof (Hsym 2 1 ltac:(lia) ltac:(lia))%nat as S32.
  pose proof (Hsym 3 1 ltac:(lia) ltac:(lia))%nat as S42.
  pose proof (Hsym 3 2 ltac:(lia) ltac:(lia))%nat as S43.
  cbv [entry nth] in S21, S31, S41, S32, S42, S43. subst.
  clear Hsym.
  pose proof (Hpsd [x1; x2; x3; x4] eq_refl) as Px.
  pose proof (Hpsd [y1; y2; y3; y4] eq_refl) as Py.
  clear Hpsd.
  matrix_entries_in Px. matrix_entries_in Py.
  pose proof (Rabs_le_bounds _ _ (Hres 0 0 ltac:(lia) ltac:(lia))%nat) as B11.
  pose proof (Rabs_le_bounds _ _ (Hres 0 1 ltac:(lia) ltac:(lia))%nat) as B12.
  pose proof (Rabs_le_bounds _ _ (Hres 0 2 ltac:(lia) ltac:(lia))%nat) as B13.
  pose proof (Rabs_le_bounds _ _ (Hres 0 3 ltac:(lia) ltac:(lia))%nat) as B14.
  pose proof (Rabs_le_bounds _ _ (Hres 1 1 ltac:(lia) ltac:(lia))%nat) as B22.
  pose proof (Rabs_le_bounds _ _ (Hres 1 2 ltac:(lia) ltac:(lia))%nat) as B23.
  pose proof (Rabs_le_bounds _ _ (Hres 1 3 ltac:(lia) ltac:(lia))%nat) as B24.
  pose proof (Rabs_le_bounds _ _ (Hres 2 2 ltac:(lia) ltac:(lia))%nat) as B33.
  pose proof (Rabs_le_bounds _ _ (Hres 2 3 ltac:(lia) ltac:(lia))%nat) as B34.
  pose proof (Rabs_le_bounds _ _ (Hres 3 3 ltac:(lia) ltac:(lia))%nat) as B44.
  clear Hres.
  matrix_entries_in B11. matrix_entries_in B12. matrix_entries_in B13.
  matrix_entries_in B14. matrix_entries_in B22. matrix_entries_in B23.
  matrix_entries_in B24. matrix_entries_in B33. matrix_entries_in B34.
  matrix_entries_in B44.
  matrix_entries_in Ex. matrix_entries_in Ey.
  injection Ex as E1 E2 E3 E4. injection Ey as F1 F2 F3 F4.
  assert (NZ : 0 < x1 * x1 + x2 * x2 + x3 * x3 + x4 * x4
                   + (y1 * y1 + y2 * y2 + y3 * y3 + y4 * y4)).
  { pose proof (sumsq_nonneg x1 x2 x3 x4). pose proof (sumsq_nonneg y1 y2 y3 y4).
    destruct Hnz as [Hnz|Hnz]; apply nonzero_sumsq in Hnz; lra. }
  clear Hnz.
  apply (lyapunov_negative p11 p12 p13 p14 p22 p23 p24 p33 p34 p44
           x1 x2 x3 x4 y1 y2 y3 y4 a b tol).
  - clear - E1; lra.
  - clear - E2; lra.
  - clear - E3; lra.
  - clear - E4; lra.
  - clear - F1; lra.
  - clear - F2; lra.
  - clear - F3; lra.
  - clear - F4; lra.
  - exact Htol.
  - clear - B11; lra.
  - clear - B12; lra.
  - clear - B13; lra.
  - clear - B14; lra.
  - clear - B22; lra.
  - clear - B23; lra.
  - clear - B24; lra.
  - clear - B33; lra.
  - clear - B34; lra.
  - clear - B44; lra.
  - clear - Px; lra.
  - clear - Py; lra.
  - exact NZ.
Qed.

(** The contract is met by a rational matrix close to the solution, so
    such gains exist. *)
Lemma lqr_gain_stabilises_witness : hurwitz (closed_loop Lagrangian.A_np Lagrangian.B_np K_rational).
Proof.
  apply (lqr_gain_stabilises (1 / 1000) K_rational P_rational);
    [lra | exact rational_certificate].
Defined.

(** C10.  In every scalar domain, two states that differ only in the
    cart position give the same derivative vector (in particular the same
    second and fourth components) under the same control value, time and
    parameters.  The cart position does not occur in [A_sp] or [B_sp], so
    the stationary-point substitution need not fix it, and the first
    column of [A_sp] is zero. *)
Theorem translation_invariance :
  (forall (T : Type) (S : Scalar T) (x1 x1' v1 x2 v2 t u m1 m2 l g : T),
     Lagrangian.get_PendulumCartRates (M := Id) (x1, v1, x2, v2) t
       (fun _ => u) m1 m2 l g
     = Lagrangian.get_PendulumCartRates (M := Id) (x1', v1, x2, v2) t
         (fun _ => u) m1 m2 l g)
  /\ forallb (forallb (fun e => negb (occurs (Fn fn_x1 0) e)))
             (Lagrangian.A_sp ++ Lagrangian.B_sp) = true
  /\ map (fun row => nth 0 row Pi) Lagrangian.A_sp
     = [Int 0; Int 0; Int 0; Int 0]
  /\ map (fun row => nth 0 row 1) (Lagrangian.A_np (T := R)) = [0; 0; 0; 0].
Proof.
  split; [|split; [|split]].
  - intros T S x1 x1' v1 x2 v2 t u m1 m2 l g.
    cbv [Lagrangian.get_PendulumCartRates bind ret Monad_Id].
    rewrite !y1dd_function_eval, !y2dd_function_eval.
    assert (E1 : eval (Lagrangian.env_L (x1, v1, x2, v2) u m1 m2 l g)
                   Lagrangian.x1dd_val
                 = eval (Lagrangian.env_L (x1', v1, x2, v2) u m1 m2 l g)
                     Lagrangian.x1dd_val) by agree_on_atoms.
    assert (E2 : eval (Lagrangian.env_L (x1, v1, x2, v2) u m1 m2 l g)
                   Lagrangian.x2dd_val
                 = eval (Lagrangian.env_L (x1', v1, x2, v2) u m1 m2 l g)
                     Lagrangian.x2dd_val) by agree_on_atoms.
    now rewrite E1, E2.
  - vm_compute. reflexivity.
  - vm_compute. reflexivity.
  - rewrite A_np_value. reflexivity.
Qed.

(** C5, as the code has it.  In every scalar domain and for every control
    law: one evaluation of [get_PendulumCartRates] calls the control law
    exactly once, on the state it was given; and one integration step
    calls it once per stage, on the four stage states in turn, so the
    control is recomputed at every stage of the step. *)
Theorem control_law_called_at_every_stage
    {T : Type} `{Scalar T} (uf : State T -> T) (y : State T)
    (t h m1 m2 l g : T) :
  let rates := fun X t =>
    Lagrangian.get_PendulumCartRates (M := Id) X t uf m1 m2 l g in
  let rates_logged := fun X t =>
    Lagrangian.get_PendulumCartRates (M := Logged (State T)) X t
      (logging uf) m1 m2 l g in
  (forall X t, rates_logged X t = (rates X t, [X]))
  /\ rk4_step rates_logged y t h
     = (rk4_step (M := Id) rates y t h, rk4_stages rates y t h).
Proof.
  intros rates rates_logged.
  assert (Hlog : forall X t, rates_logged X t = (rates X t, [X]))
    by (intros X t'; apply get_PendulumCartRates_logged).
  split; [exact Hlog|].
  now apply rk4_step_logged.
Qed.

(** C5 as stated fails.  With the damping law [u = - v1], parameters
    [1, 1, 1, -10] and one step of length 1/1000 from [(0, 1, 0, 0)], the
    control law is called four times, not once, at states other than the
    current one, and the value it returns at the second stage is not the
    value it returned at the first. *)
Lemma control_law_not_held_within_step :
  let uf : State R -> R := fun X => - getitem 1 X in
  let y0 : State R := (0, 1, 0, 0) in
  let log :=
    snd (rk4_step (M := Logged (State R))
           (fun X t =>
              Lagrangian.get_PendulumCartRates X t (logging uf) 1 1 1 (-10))
           y0 0 (1 / 1000)) in
  log <> [y0]
  /\ length log = 4%nat
  /\ uf (nth 1 log y0) <> uf (nth 0 log y0).
Proof.
  intros uf y0 log.
  assert (E : log = rk4_stages
                (fun X t => Lagrangian.get_PendulumCartRates (M := Id) X t uf
                              1 1 1 (-10)) y0 0 (1 / 1000)).
  { unfold log.
    erewrite rk4_step_logged;
      [reflexivity|intros X t; apply get_PendulumCartRates_logged]. }
  rewrite E. split; [discriminate|]. split; [reflexivity|].
  cbv [rk4_stages nth]. unfold y0.
  rewrite get_PendulumCartRates_closed; rewrite ?sin_0; try lra.
  unfold Lagrangian.accel_cart, Lagrangian.accel_pend, uf. rewrite sin_0, cos_0. cbn. lra.
Qed.

(** C7.  For a time grid [np.arange(t0, tn, dt)] with [dt > 0] and
    [t0 <= tn]: the grid has [ceil((tn - t0) / dt)] sample times, each [dt]
    after the one before, all in [[t0, tn)]; and a simulation over it, in
    any scalar domain, returns one state per sample time, with a pure
    control law and, when the run completes, with one that can raise. *)
Theorem trajectory_has_requested_samples
    {T : Type} `{Scalar T} (t0 tn dt : Q) :
  (0 < dt)%Q -> (t0 <= tn)%Q ->
  let ts := arange t0 tn dt in
  Z.of_nat (length ts) = Qceiling ((tn - t0) / dt)
  /\ (forall i d, (S i < length ts)%nat ->
        (nth (S i) ts d - nth i ts d == dt)%Q)
  /\ (forall t, In t ts -> (t0 <= t /\ t < tn)%Q)
  /\ (forall (uf : State T -> T) (x0 : State T),
        length (Lagrangian.simulate (M := Id) uf x0 ts) = length ts)
  /\ (forall (uf : State T -> option T) (x0 : State T) traj,
        Lagrangian.simulate uf x0 ts = Some traj ->
        length traj = length ts).
Proof.
  intros Hdt Hle ts.
  split; [now apply arange_count|].
  split; [intros i d Hi; now apply arange_spacing|].
  split; [intros t Hin; now apply (arange_bounds t0 tn dt)|].
  split.
  - intros uf x0. unfold Lagrangian.simulate.
    now rewrite odeint_length, length_map.
  - intros uf x0 traj Hrun. unfold Lagrangian.simulate in Hrun.
    apply odeint_length_option in Hrun. now rewrite length_map in Hrun.
Qed.

Lemma trajectory_has_requested_samples_witness :
  Z.of_nat (length Lagrangian.ts) = 10000%Z
  /\ length (Lagrangian.result (T := R)) = length Lagrangian.ts.
Proof.
  assert (Hdt : (0 < Lagrangian.dt)%Q) by reflexivity.
  assert (Hle : (Lagrangian.t0 <= Lagrangian.tn)%Q) by discriminate.
  pose proof (trajectory_has_requested_samples (T := R)
                Lagrangian.t0 Lagrangian.tn Lagrangian.dt Hdt Hle) as W.
  cbv zeta in W. destruct W as (Hn & _ & _ & Hid & _).
  split.
  - exact Hn.
  - exact (Hid Lagrangian.control_no Lagrangian.x0_free).
Defined.

(** C6, as the code has it.  The simulation cell checks nothing: for every
    control law, initial state and time grid the run returns the
    integrator's array, one row per requested time, and never a
    [DivergedSimulationError]. *)
Theorem run_returns_every_sample
    (uf : State XR -> XR) (x0 : State XR) (ts : list Q) :
  let traj := Lagrangian.simulate (M := Id) uf x0 ts in
  run uf x0 ts = Returned traj
  /\ length traj = length ts
  /\ forall k partial, run uf x0 ts <> DivergedSimulationError k partial.
Proof.
  cbv zeta. split; [reflexivity|]. split.
  - unfold Lagrangian.simulate. now rewrite odeint_length, length_map.
  - intros k partial. unfold run. discriminate.
Qed.

(** C6 as stated fails.  With the control law [u = 1 / x1] started at the
    origin over the grid [0, 0.001, 0.002], the sample after the first is
    not finite, yet the run returns all three samples and no error, where
    the spec asks for [DivergedSimulationError] with last finite index 0
    and the one-sample partial trajectory. *)
Lemma divergence_is_not_reported :
  let uf : State XR -> XR := fun X => s_div (s_of_Z 1) (getitem 0 X) in
  let x0 : State XR := (Some 0, Some 0, Some 0, Some 0) in
  let ts := [0; 1 # 1000; 2 # 1000]%Q in
  exists traj,
    run uf x0 ts = Returned traj
    /\ length traj = 3%nat
    /\ finite_state (nth 1 traj x0) = false
    /\ run_as_specified uf x0 ts = DivergedSimulationError 0 [x0].
Proof.
  intros uf x0 ts.
  set (func := fun (X : State XR) (t : XR) =>
         Lagrangian.get_PendulumCartRates (M := Id) X t uf
           (Some 1) (Some 1) (Some 1) (Some (-10))).
  assert (Hk1 : forall t, getitem 1 (func x0 t) = None).
  { intros t. unfold func, x0.
    cbv [Lagrangian.get_PendulumCartRates bind ret Monad_Id getitem].
    rewrite y1dd_function_eval.
    apply eval_nonfinite with (a := Sym sym_u).
    - cbn. apply xdiv_zero.
    - vm_compute. reflexivity.
    - vm_compute. reflexivity. }
  set (t0' := s_of_Q 0 : XR). set (t1' := s_of_Q (1 # 1000) : XR).
  set (t2' := s_of_Q (2 # 1000) : XR).
  set (X1 := rk4_step (M := Id) func x0 t0' (s_sub t1' t0')).
  set (X2 := rk4_step (M := Id) func X1 t1' (s_sub t2' t1')).
  assert (Etraj : Lagrangian.simulate (M := Id) uf x0 ts = [x0; X1; X2])
    by reflexivity.
  assert (HX1 : finite_state X1 = false).
  { pose proof (rk4_step_nonfinite func x0 t0' (s_sub t1' t0') (Hk1 t0'))
      as Hb.
    fold X1 in Hb. destruct X1 as [[[a b] c] d]. cbn [getitem] in Hb.
    subst b. now destruct a. }
  exists [x0; X1; X2]. split; [|split; [|split]].
  - unfold run. now rewrite Etraj.
  - reflexivity.
  - exact HX1.
  - unfold run_as_specified. rewrite Etraj.
    cbn [finite_prefix]. rewrite HX1. reflexivity.
Qed.

(** C8, as the code has it.  For positive masses and rod length, the
    momentum state is obtained from the velocity state by [Hamiltonian.momenta], linear
    in the two velocities at a fixed angle; under it the Lagrangian
    dynamics function with control [u] corresponds to the Hamiltonian one
    with control [- u] (so the two agree for [u = 0]), and trajectories of
    the first system are carried to trajectories of the second. *)
Theorem momentum_map_relates_dynamics (m1 m2 l g : R) :
  0 < m1 -> 0 < m2 -> 0 < l ->
  (forall x1 x2 v1 v2 w1 w2 a b,
     Hamiltonian.momenta m1 m2 l (x1, a * v1 + b * w1, x2, a * v2 + b * w2)
     = (x1,
        a * getitem 1 (Hamiltonian.momenta m1 m2 l (x1, v1, x2, v2))
        + b * getitem 1 (Hamiltonian.momenta m1 m2 l (x1, w1, x2, w2)),
        x2,
        a * getitem 3 (Hamiltonian.momenta m1 m2 l (x1, v1, x2, v2))
        + b * getitem 3 (Hamiltonian.momenta m1 m2 l (x1, w1, x2, w2))))
  /\ (forall X t u,
        Hamiltonian.get_PendulumCartRates_Hamiltonian (M := Id)
          (Hamiltonian.momenta m1 m2 l X) t (fun _ => - u) m1 m2 l g
        = to_list
            (Hamiltonian.momenta_rate m1 m2 l X
               (Lagrangian.get_PendulumCartRates (M := Id) X t (fun _ => u)
                  m1 m2 l g)))
  /\ (forall uf ufH X,
        (forall Z, ufH (Hamiltonian.momenta m1 m2 l Z) = - uf Z) ->
        Hamiltonian.solves_L m1 m2 l g uf X ->
        Hamiltonian.solves_H m1 m2 l g ufH (fun s => Hamiltonian.momenta m1 m2 l (X s))).
Proof.
  intros Hm1 Hm2 Hl. split; [|split].
  - intros x1 x2 v1 v2 w1 w2 a b. cbn [Hamiltonian.momenta getitem].
    apply State_eq; try reflexivity; ring.
  - intros X t u. now apply fields_related.
  - intros uf ufH X Hlaw HX. now apply momenta_maps_solutions with (uf := uf).
Qed.

Lemma momentum_map_relates_dynamics_witness :
  Hamiltonian.get_PendulumCartRates_Hamiltonian (M := Id)
    (Hamiltonian.momenta 1 1 1 (0, 0, 0, 0)) 0 (fun _ => - 1) 1 1 1 (-10)
  = to_list
      (Hamiltonian.momenta_rate 1 1 1 (0, 0, 0, 0)
         (Lagrangian.get_PendulumCartRates (M := Id) (0, 0, 0, 0) 0
            (fun _ => 1) 1 1 1 (-10))).
Proof.
  assert (H1 : 0 < 1) by lra.
  exact (proj1 (proj2 (momentum_map_relates_dynamics 1 1 1 (-10) H1 H1 H1))
           (0, 0, 0, 0) 0 1).
Defined.

(** C8 as stated fails.  With parameters [1, 1, 1, -10], at rest at the
    origin and with the same control [u = 1] in both, the Hamiltonian
    function gives the cart momentum the rate [-1] where the Lagrangian
    rates, carried over by [Hamiltonian.momenta], give it [+1]. *)
Lemma same_control_not_equivalent :
  Hamiltonian.get_PendulumCartRates_Hamiltonian (M := Id)
    (Hamiltonian.momenta 1 1 1 (0, 0, 0, 0)) 0 (fun _ => 1) 1 1 1 (-10)
  <> to_list
       (Hamiltonian.momenta_rate 1 1 1 (0, 0, 0, 0)
          (Lagrangian.get_PendulumCartRates (M := Id) (0, 0, 0, 0) 0
             (fun _ => 1) 1 1 1 (-10))).
Proof.
  unfold Hamiltonian.momenta.
  rewrite rates_H_closed, get_PendulumCartRates_closed;
    rewrite ?sin_0; try lra.
  unfold Hamiltonian.momenta_rate, to_list, Lagrangian.accel_cart, Lagrangian.accel_pend.
  rewrite sin_0, cos_0. intros E.
  apply (f_equal (fun r => nth 1 r 0)) in E. cbn [nth] in E. lra.
Qed.

(** ** Further results *)

Import Sympy Numpy Scipy Control Divergence.
Import SympyFacts NumpyFacts PiFacts LagrangianFacts HamiltonianFacts.
Import ScipyFacts UprightFacts ControlFacts ControlLawFacts.
Import Mechanics MechanicsFacts Lagrangian3Facts.
Import Animation AnimationFacts Linearisation LinearisationFacts.
Import RiccatiFacts.
Open Scope R_scope.

(** X2.  The three dynamics functions do not use the time they are
    given: in every scalar domain the result is the same at any two
    times. *)
Theorem dynamics_are_time_invariant {T} `{Scalar T}
    (X : State T) (t t' : T) (uf : State T -> T) (m1 m2 l g : T) :
  Lagrangian.get_PendulumCartRates (M := Id) X t uf m1 m2 l g
  = Lagrangian.get_PendulumCartRates (M := Id) X t' uf m1 m2 l g
  /\ Hamiltonian.get_PendulumCartRates_Hamiltonian (M := Id) X t uf m1 m2 l g
     = Hamiltonian.get_PendulumCartRates_Hamiltonian (M := Id) X t' uf
         m1 m2 l g
  /\ Lagrangian3.get_PendulumCartRates (M := Id) X t uf m1 m2 l g
     = Lagrangian3.get_PendulumCartRates (M := Id) X t' uf m1 m2 l g.
Proof.
  destruct X as [[[a b] c] d]. split; [|split].
  - cbv [Lagrangian.get_PendulumCartRates bind ret Monad_Id].
    now rewrite !y1dd_function_eval, !y2dd_function_eval.
  - cbv [Hamiltonian.get_PendulumCartRates_Hamiltonian bind ret Monad_Id
         Hamiltonian.DE_funcs Hamiltonian.DE_eqs Hamiltonian.to_eq lambdify
         map].
    repeat f_equal; apply eval_ext_atoms;
      match goal with
      | |- Forall _ (atoms ?e) => by_value (atoms e)
      end; repeat constructor.
  - cbv [Lagrangian3.get_PendulumCartRates bind ret Monad_Id
         Lagrangian3.y1dd_function Lagrangian3.y2dd_function lambdify].
    repeat f_equal; apply eval_ext_atoms;
      match goal with
      | |- Forall _ (atoms ?e) => by_value (atoms e)
      end; repeat constructor.
Qed.

(** X3.  Mirror symmetry.  For positive parameters, the state reflected
    left to right under the reflected control has the reflected rates. *)
Theorem dynamics_mirror_symmetry (x1 v1 x2 v2 t u m1 m2 l g : R) :
  0 < m1 -> 0 < m2 -> 0 < l ->
  Lagrangian.get_PendulumCartRates (M := Id) (- x1, - v1, - x2, - v2) t
    (fun _ => - u) m1 m2 l g
  = vscale (-1)
      (Lagrangian.get_PendulumCartRates (M := Id) (x1, v1, x2, v2) t
         (fun _ => u) m1 m2 l g).
Proof.
  intros Hm1 Hm2 Hl.
  pose proof (mass_matrix_regular m1 m2 x2 Hm1 Hm2) as Hd.
  pose proof (mass_matrix_regular m1 m2 (- x2) Hm1 Hm2) as Hd'.
  rewrite !get_PendulumCartRates_closed by (assumption || lra).
  unfold Lagrangian.accel_cart, Lagrangian.accel_pend, vscale.
  cbn [s_mul Scalar_R]. rewrite sin_neg, cos_neg.
  revert Hd. trig x2 s c Hsc. intros Hd.
  apply State_eq; try ring;
    (field_simplify_eq; [poly|repeat split; lra]).
Qed.

Lemma dynamics_mirror_symmetry_witness :
  Lagrangian.get_PendulumCartRates (M := Id) (- 0, - 0, - 1, - 2) 0
    (fun _ => - 3) 1 1 1 (-10)
  = vscale (-1)
      (Lagrangian.get_PendulumCartRates (M := Id) (0, 0, 1, 2) 0
         (fun _ => 3) 1 1 1 (-10)).
Proof. apply (dynamics_mirror_symmetry 0 0 1 2 0 3 1 1 1 (-10)); lra. Defined.

(** X4.  For positive masses and rod length and gravity other than zero,
    the uncontrolled system is at rest exactly when both velocities
    vanish and the sine of the angle vanishes: the pendulum hangs or
    stands, the cart anywhere. *)
Theorem free_equilibria (m1 m2 l g x1 v1 x2 v2 t : R) :
  0 < m1 -> 0 < m2 -> 0 < l -> g <> 0 ->
  Lagrangian.get_PendulumCartRates (M := Id) (x1, v1, x2, v2) t
    Lagrangian.control_no m1 m2 l g = (0, 0, 0, 0)
  <-> v1 = 0 /\ v2 = 0 /\ sin x2 = 0.
Proof.
  intros Hm1 Hm2 Hl Hg.
  pose proof (mass_matrix_regular m1 m2 x2 Hm1 Hm2) as Hd.
  rewrite get_PendulumCartRates_closed by (assumption || lra).
  unfold Lagrangian.control_no, Lagrangian.accel_cart, Lagrangian.accel_pend.
  cbn [s_of_Z Scalar_R].
  split.
  - intros [= -> _ -> E]. repeat split.
    assert (Hl' : l * (m1 + m2 * (sin x2 * sin x2)) <> 0)
      by (apply Rmult_integral_contrapositive_currified; lra).
    unfold Rdiv in E. apply Rmult_integral in E as [E|E];
      [|now apply Rinv_neq_0_compat in Hl'].
    assert (E' : (m1 + m2) * g * sin x2 = 0) by lra.
    apply Rmult_integral in E' as [E'|E']; [|exact E'].
    apply Rmult_integral in E' as [E'|E']; lra.
  - intros (-> & -> & E). rewrite E.
    apply State_eq; try reflexivity; field; rewrite ?E; lra.
Qed.

Lemma free_equilibria_witness :
  Lagrangian.get_PendulumCartRates (M := Id) (0, 0, 0, 0) 0
    Lagrangian.control_no 1 1 1 (-10) = (0, 0, 0, 0)
  <-> 0 = 0 /\ 0 = 0 /\ sin 0 = 0.
Proof. apply (free_equilibria 1 1 1 (-10) 0 0 0 0 0); lra. Defined.

(** X5.  For positive parameters, a pair of accelerations satisfies the
    two Euler-Lagrange equations [DEs] at a state and control exactly when
    it is the pair the dynamics function returns: [sp.solve] found the
    solution and there is no other. *)
Theorem euler_lagrange_solved_uniquely
    (x1 v1 x2 v2 t u m1 m2 l g a1 a2 : R) :
  0 < m1 -> 0 < m2 -> 0 < l ->
  let X : State R := (x1, v1, x2, v2) in
  let rho := upd (upd (Lagrangian.env_L X u m1 m2 l g) (Fn fn_x1 2) a1)
                 (Fn fn_x2 2) a2 in
  let rates := Lagrangian.get_PendulumCartRates (M := Id) X t (fun _ => u)
                 m1 m2 l g in
  (eval rho (fst Lagrangian.DEs) = 0 /\ eval rho (snd Lagrangian.DEs) = 0)
  <-> (a1 = getitem 1 rates /\ a2 = getitem 3 rates).
Proof.
  intros Hm1 Hm2 Hl. cbv zeta.
  pose proof (mass_matrix_regular m1 m2 x2 Hm1 Hm2) as Hd.
  rewrite get_PendulumCartRates_closed by (assumption || lra).
  cbn [getitem].
  unfold Lagrangian.accel_cart, Lagrangian.accel_pend.
  by_value Lagrangian.DEs. cbn.
  revert Hd. trig x2 s c Hsc. intros Hd.
  assert (Hl' : l * (m1 + m2 * (s * s)) <> 0)
    by (apply Rmult_integral_contrapositive_currified; lra).
  split.
  - intros [E1 E2].
    assert (E1' : (m1 + m2) * a1 + m2 * l * (c * a2 - s * v2 * v2) - u = 0)
      by (rewrite <- E1; field).
    assert (E2' : m2 * l * (c * a1 + l * a2 * (c * c + s * s))
                  - m2 * g * l * s = 0)
      by (rewrite <- E2; field).
    clear E1 E2. split.
    + apply Rmult_eq_reg_r with (m1 + m2 * (s * s)); [|exact Hd].
      unfold Rdiv. rewrite Rmult_assoc, Rinv_l, Rmult_1_r by exact Hd.
      apply Rmult_eq_reg_l with (m2 * l);
        [|apply Rmult_integral_contrapositive_currified; lra].
      poly.
    + apply Rmult_eq_reg_r with (l * (m1 + m2 * (s * s))); [|exact Hl'].
      unfold Rdiv. rewrite Rmult_assoc, Rinv_l, Rmult_1_r by exact Hl'.
      apply Rmult_eq_reg_l with (m2 * l);
        [|apply Rmult_integral_contrapositive_currified; lra].
      poly.
  - intros [-> ->].
    split; (field_simplify_eq; [poly|repeat split; lra]).
Qed.

Lemma euler_lagrange_solved_uniquely_witness :
  let X : State R := (0, 0, 0, 0) in
  let rho := upd (upd (Lagrangian.env_L X 1 1 1 1 (-10)) (Fn fn_x1 2) 1)
                 (Fn fn_x2 2) (-1) in
  let rates := Lagrangian.get_PendulumCartRates (M := Id) X 0 (fun _ => 1)
                 1 1 1 (-10) in
  (eval rho (fst Lagrangian.DEs) = 0 /\ eval rho (snd Lagrangian.DEs) = 0)
  <-> (1 = getitem 1 rates /\ -1 = getitem 3 rates).
Proof.
  apply (euler_lagrange_solved_uniquely 0 0 0 0 0 1 1 1 1 (-10) 1 (-1)); lra.
Defined.

(** X6.  Power balance.  Along any trajectory of the dynamics function,
    for positive parameters and any control law, the total energy
    [ke + pe] changes at the rate [u * v1], the control force times the
    cart velocity. *)
Theorem energy_balance (m1 m2 l g : R) (uf : State R -> R)
    (X : R -> State R) :
  0 < m1 -> 0 < m2 -> 0 < l ->
  Hamiltonian.solves_L m1 m2 l g uf X ->
  forall t,
    derivable_pt_lim (fun s => total_energy m1 m2 l g (X s)) t
                     (uf (X t) * getitem 1 (X t)).
Proof. intros Hm1 Hm2 Hl HX t. now apply energy_rate. Qed.

Lemma energy_balance_witness :
  derivable_pt_lim (fun s => total_energy 1 1 1 (-10) (s, 1, 0, 0)) 2
    (Lagrangian.control_no (2, 1, 0, 0) * getitem 1 (2, 1, 0, 0)).
Proof.
  apply (energy_balance 1 1 1 (-10) Lagrangian.control_no
           (fun s => (s, 1, 0, 0))); try lra.
  exact drifting_cart_solves_L.
Defined.

(** X7.  Without control the total energy is the same at any two times
    of a trajectory. *)
Theorem energy_conserved_without_control (m1 m2 l g : R)
    (X : R -> State R) :
  0 < m1 -> 0 < m2 -> 0 < l ->
  Hamiltonian.solves_L m1 m2 l g Lagrangian.control_no X ->
  forall t t', total_energy m1 m2 l g (X t) = total_energy m1 m2 l g (X t').
Proof.
  intros Hm1 Hm2 Hl HX.
  apply (null_derivative_constant
           (fun s => total_energy m1 m2 l g (X s))).
  intros t. eapply derivable_pt_lim_eq;
    [|apply (energy_rate m1 m2 l g Lagrangian.control_no X t); assumption].
  unfold Lagrangian.control_no. cbn. ring.
Qed.

Lemma energy_conserved_without_control_witness :
  total_energy 1 1 1 (-10) (0, 1, 0, 0)
  = total_energy 1 1 1 (-10) (3, 1, 0, 0).
Proof.
  apply (energy_conserved_without_control 1 1 1 (-10)
           (fun s => (s, 1, 0, 0))); try lra.
  exact drifting_cart_solves_L.
Defined.

(** X8.  Along any trajectory of the Hamiltonian dynamics function the
    Hamiltonian [H] changes at the rate [- u] times the rate of the cart
    position, and it is conserved when the control is zero. *)
Theorem hamiltonian_balance (m1 m2 l g : R) (uf : State R -> R)
    (Y : R -> State R) :
  0 < m1 -> 0 < m2 -> 0 < l ->
  Hamiltonian.solves_H m1 m2 l g uf Y ->
  (forall t,
     derivable_pt_lim (fun s => hamiltonian m1 m2 l g (Y s)) t
       (- uf (Y t)
        * nth 0 (Hamiltonian.get_PendulumCartRates_Hamiltonian (M := Id)
                   (Y t) t uf m1 m2 l g) 0))
  /\ ((forall Z, uf Z = 0) ->
      forall t t', hamiltonian m1 m2 l g (Y t) = hamiltonian m1 m2 l g (Y t')).
Proof.
  intros Hm1 Hm2 Hl HY. split.
  - intros t. now apply hamiltonian_rate.
  - intros Hu.
    apply (null_derivative_constant (fun s => hamiltonian m1 m2 l g (Y s))).
    intros t. eapply derivable_pt_lim_eq;
      [|apply (hamiltonian_rate m1 m2 l g uf Y t); assumption].
    rewrite Hu. ring.
Qed.

Lemma hamiltonian_balance_witness :
  hamiltonian 1 1 1 (-10) (Hamiltonian.momenta 1 1 1 (0, 1, 0, 0))
  = hamiltonian 1 1 1 (-10) (Hamiltonian.momenta 1 1 1 (3, 1, 0, 0)).
Proof.
  assert (H1 : 0 < 1) by lra.
  exact (proj2 (hamiltonian_balance 1 1 1 (-10) (fun _ => 0)
                  (fun s => Hamiltonian.momenta 1 1 1 (s, 1, 0, 0))
                  H1 H1 H1 drifting_cart_solves_H)
               (fun _ => eq_refl) 0 3).
Defined.

(** X9.  The Legendre transformation of the second notebook yields the
    total energy: [H] at the momenta of a velocity state equals
    [ke + pe] of the first notebook at that state, which is the usual
    closed form. *)
Theorem hamiltonian_is_total_energy (m1 m2 l g : R) (X : State R) :
  0 < m1 -> 0 < m2 -> 0 < l ->
  hamiltonian m1 m2 l g (Hamiltonian.momenta m1 m2 l X)
  = total_energy m1 m2 l g X
  /\ total_energy m1 m2 l g X
     = (m1 + m2) * (getitem 1 X * getitem 1 X) / 2
       + m2 * l * cos (getitem 2 X) * getitem 1 X * getitem 3 X
       + m2 * (l * l) * (getitem 3 X * getitem 3 X) / 2
       + m2 * g * l * cos (getitem 2 X).
Proof.
  intros Hm1 Hm2 Hl. split; [now apply hamiltonian_is_energy|].
  destruct X as [[[x1 v1] x2] v2]. apply total_energy_closed.
Qed.

Lemma hamiltonian_is_total_energy_witness :
  hamiltonian 1 1 1 (-10) (Hamiltonian.momenta 1 1 1 (0, 1, 0, 0))
  = total_energy 1 1 1 (-10) (0, 1, 0, 0).
Proof.
  assert (H1 : 0 < 1) by lra.
  exact (proj1 (hamiltonian_is_total_energy 1 1 1 (-10) (0, 1, 0, 0)
                  H1 H1 H1)).
Defined.

(** X10.  Momenta and velocities convert into each other without loss:
    the velocities that the Hamiltonian dynamics function gives at the
    momenta of a velocity state are those of the state, and the momenta
    of the velocity state of a momentum state are those momenta. *)
Theorem momenta_velocities_round_trip (m1 m2 l : R) (Z : State R) :
  0 < m1 -> 0 < m2 -> 0 < l ->
  velocities m1 m2 l (Hamiltonian.momenta m1 m2 l Z) = Z
  /\ Hamiltonian.momenta m1 m2 l (velocities m1 m2 l Z) = Z.
Proof.
  intros Hm1 Hm2 Hl. destruct Z as [[[a b] c] d].
  pose proof (mass_matrix_regular m1 m2 c Hm1 Hm2) as Hd.
  unfold velocities. split.
  - cbn [Hamiltonian.momenta].
    rewrite rates_H_closed by (assumption || lra).
    cbn [getitem nth]. unfold Hamiltonian.vel_cart, Hamiltonian.vel_pend.
    revert Hd. trig c s k Hsc. intros Hd.
    apply State_eq; try reflexivity;
      (field_simplify_eq; [poly|repeat split; lra]).
  - rewrite rates_H_closed by (assumption || lra).
    cbn [getitem nth Hamiltonian.momenta].
    unfold Hamiltonian.vel_cart, Hamiltonian.vel_pend.
    revert Hd. trig c s k Hsc. intros Hd.
    apply State_eq; try reflexivity;
      (field_simplify_eq; [poly|repeat split; lra]).
Qed.

Lemma momenta_velocities_round_trip_witness :
  velocities 1 1 1 (Hamiltonian.momenta 1 1 1 (0, 1, 0, 2)) = (0, 1, 0, 2)
  /\ Hamiltonian.momenta 1 1 1 (velocities 1 1 1 (0, 1, 0, 2)) = (0, 1, 0, 2).
Proof. apply (momenta_velocities_round_trip 1 1 1 (0, 1, 0, 2)); lra. Defined.

(** X11.  The third notebook, which measures the angle from the upward
    axis, has the dynamics of the first at the angle [pi - theta] with
    the angular rates negated. *)
Theorem third_notebook_reflects_first (x v theta omega t u m_c m_p l g : R) :
  0 < m_c -> 0 < m_p -> 0 < l ->
  Lagrangian3.get_PendulumCartRates (M := Id) (x, v, theta, omega) t
    (fun _ => u) m_c m_p l g
  = let '(xd, v1d, x2d, v2d) :=
      Lagrangian.get_PendulumCartRates (M := Id)
        (x, v, PI - theta, - omega) t (fun _ => u) m_c m_p l g in
    (xd, v1d, - x2d, - v2d).
Proof.
  intros Hc Hp Hl.
  pose proof (mass_matrix_regular m_c m_p theta Hc Hp) as Hd.
  pose proof (mass_matrix_regular m_c m_p (PI - theta) Hc Hp) as Hd'.
  rewrite rates3_closed by (assumption || lra).
  rewrite get_PendulumCartRates_closed by (assumption || lra).
  apply State_eq; try reflexivity. ring.
Qed.

Lemma third_notebook_reflects_first_witness :
  Lagrangian3.get_PendulumCartRates (M := Id) (0, 0, 0, 0) 0
    (fun _ => 1) 1 1 1 (-10)
  = let '(xd, v1d, x2d, v2d) :=
      Lagrangian.get_PendulumCartRates (M := Id)
        (0, 0, PI - 0, - 0) 0 (fun _ => 1) 1 1 1 (-10) in
    (xd, v1d, - x2d, - v2d).
Proof. apply (third_notebook_reflects_first 0 0 0 0 0 1 1 1 1 (-10)); lra. Defined.

(** X12.  The verification test of the third notebook.  With the
    accelerations that the dynamics function returns, the displayed
    second derivative of the centre of mass position equals
    [u / (m_c + m_p)]: zero without control. *)
Theorem centre_of_mass_test (x v theta omega t u m_c m_p l g : R) :
  0 < m_c -> 0 < m_p -> l <> 0 ->
  let rates := Lagrangian3.get_PendulumCartRates (M := Id) (x, v, theta, omega) t
                 (fun _ => u) m_c m_p l g in
  eval (Lagrangian3.env_3 (x, v, theta, omega) (getitem 1 rates) (getitem 3 rates)
          u m_c m_p l g) Lagrangian3.x_cm_acceleration
  = u / (m_c + m_p).
Proof.
  intros Hc Hp Hl. cbv zeta.
  pose proof (mass_matrix_regular m_c m_p theta Hc Hp) as Hd.
  rewrite rates3_closed by (assumption || lra).
  cbn [getitem].
  unfold Lagrangian.accel_cart, Lagrangian.accel_pend.
  rewrite sin_reflected, cos_reflected.
  by_value Lagrangian3.x_cm_acceleration. cbn.
  revert Hd. trig theta s c Hsc. intros Hd.
  field_simplify_eq; [poly|repeat split; lra].
Qed.

Lemma centre_of_mass_test_witness :
  let rates := Lagrangian3.get_PendulumCartRates (M := Id) (0, 0, 1, 2) 0
                 (fun _ => 3) 1 1 1 (-10) in
  eval (Lagrangian3.env_3 (0, 0, 1, 2) (getitem 1 rates) (getitem 3 rates)
          3 1 1 1 (-10)) Lagrangian3.x_cm_acceleration
  = 3 / (1 + 1).
Proof. apply (centre_of_mass_test 0 0 1 2 0 3 1 1 1 (-10)); lra. Defined.

(** X13.  The feedback law raises exactly when the gain array has no row
    or has a row that is not of length four. *)
Theorem control_law_raises_iff {T} `{Scalar T}
    (K_np : list (list T)) (x : State T) :
  Lagrangian.control_law K_np x = None
  <-> K_np = [] \/ Exists (fun row => length row <> 4%nat) K_np.
Proof.
  unfold Lagrangian.control_law. cbv [bind ret Monad_option]. split.
  - intros E. destruct (rows_dec K_np) as [Hall|Hbad]; [|now right].
    left. destruct (matvec_rows K_np (vsub x Lagrangian.xsp) Hall)
      as (ys & Ey & Hlen & _).
    rewrite Ey in E. destruct ys as [|y ys]; [|discriminate].
    now destruct K_np.
  - intros [->|Hbad]; [reflexivity|].
    now rewrite matvec_bad_row.
Qed.

(** X14.  For a gain array whose rows all have length four the feedback
    law returns minus the first row times [x - xsp], whatever the other
    rows hold. *)
Theorem control_law_reads_first_row {T} `{Scalar T}
    (row : list T) (rest : list (list T)) (x : State T) :
  Forall (fun r => length r = 4%nat) (row :: rest) ->
  Lagrangian.control_law (row :: rest) x
  = option_map s_neg (dot4 row (vsub x Lagrangian.xsp))
  /\ Lagrangian.control_law (row :: rest) x
     = Lagrangian.control_law [row] x.
Proof.
  intros Hall.
  assert (E : forall K, Forall (fun r => length r = 4%nat) (row :: K) ->
            Lagrangian.control_law (row :: K) x
            = option_map s_neg (dot4 row (vsub x Lagrangian.xsp))).
  { intros K HK. unfold Lagrangian.control_law. cbv [bind ret Monad_option].
    destruct (matvec_rows (row :: K) (vsub x Lagrangian.xsp) HK)
      as (ys & Ey & Hlen & Hhd).
    rewrite Ey. specialize (Hhd row eq_refl).
    destruct ys as [|y ys]; [discriminate|]. cbn in Hhd.
    injection Hhd as <-. reflexivity. }
  split; [now apply E|].
  rewrite !E; [reflexivity| |assumption].
  inversion_clear Hall. now repeat constructor.
Qed.

Lemma control_law_reads_first_row_witness :
  Lagrangian.control_law [[1; 2; 3; 4]; [5; 6; 7; 8]] (0, 0, 0, 0)
  = option_map s_neg (dot4 [1; 2; 3; 4] (vsub (0, 0, 0, 0) Lagrangian.xsp))
  /\ Lagrangian.control_law [[1; 2; 3; 4]; [5; 6; 7; 8]] (0, 0, 0, 0)
     = Lagrangian.control_law [[1; 2; 3; 4]] (0, 0, 0, 0).
Proof.
  apply (control_law_reads_first_row [1; 2; 3; 4] [[5; 6; 7; 8]]).
  repeat constructor.
Defined.

(** X15.  Angles are not wrapped.  The dynamics function returns the
    same rates when the angle is increased by a full turn, but the
    feedback law returns a control smaller by [2 pi k3]. *)
Theorem full_turn_changes_control_not_dynamics
    (x1 v1 x2 v2 t u m1 m2 l g k1 k2 k3 k4 : R) :
  Lagrangian.get_PendulumCartRates (M := Id) (x1, v1, x2 + 2 * PI, v2) t
    (fun _ => u) m1 m2 l g
  = Lagrangian.get_PendulumCartRates (M := Id) (x1, v1, x2, v2) t
      (fun _ => u) m1 m2 l g
  /\ Lagrangian.control_law [[k1; k2; k3; k4]] (x1, v1, x2 + 2 * PI, v2)
     = option_map (fun u0 => u0 - 2 * PI * k3)
         (Lagrangian.control_law [[k1; k2; k3; k4]] (x1, v1, x2, v2)).
Proof.
  split.
  - cbv [Lagrangian.get_PendulumCartRates bind ret Monad_Id].
    rewrite !y1dd_function_eval, !y2dd_function_eval.
    by_value Lagrangian.x1dd_val. by_value Lagrangian.x2dd_val.
    assert (Es : sin (x2 + 2 * PI) = sin x2)
      by (rewrite sin_plus, sin_2PI, cos_2PI; ring).
    assert (Ec : cos (x2 + 2 * PI) = cos x2)
      by (rewrite cos_plus, sin_2PI, cos_2PI; ring).
    cbn. rewrite !Es, !Ec. reflexivity.
  - cbn. f_equal. ring.
Qed.

(** X16.  The set point is at rest only up to rounding.  For every gain
    array of rows of length four, with at least one row, the feedback
    law returns 0 at [xsp]; but [xsp] holds [np.pi], which is not pi,
    and the dynamics function under that law returns there two
    accelerations that are negative and above [-1e-14], not zero. *)
Theorem set_point_at_rest_up_to_rounding (K_np : list (list R)) (t : R) :
  K_np <> [] -> Forall (fun row => length row = 4%nat) K_np ->
  Lagrangian.control_law K_np Lagrangian.xsp = Some 0
  /\ exists a1 a2,
       Lagrangian.get_PendulumCartRates Lagrangian.xsp t
         (Lagrangian.control_law K_np) 1 1 1 (-10)
       = Some (0, a1, 0, a2)
       /\ - / 10 ^ 14 < a1 < 0 /\ - / 10 ^ 14 < a2 < 0.
Proof.
  intros Hne Hall.
  pose proof (control_law_at_set_point K_np Hne Hall) as Hu.
  split; [exact Hu|].
  destruct (rates_at_xsp t) as (a1 & a2 & E & Ha1 & Ha2).
  exists a1, a2. split; [|split; assumption].
  cbv [Lagrangian.get_PendulumCartRates bind ret Monad_option].
  rewrite Hu. rewrite <- E. reflexivity.
Qed.

Lemma set_point_at_rest_up_to_rounding_witness :
  Lagrangian.control_law [[1; 2; 3; 4]] Lagrangian.xsp = Some 0
  /\ exists a1 a2,
       Lagrangian.get_PendulumCartRates Lagrangian.xsp 0
         (Lagrangian.control_law [[1; 2; 3; 4]]) 1 1 1 (-10)
       = Some (0, a1, 0, a2)
       /\ - / 10 ^ 14 < a1 < 0 /\ - / 10 ^ 14 < a2 < 0.
Proof.
  apply (set_point_at_rest_up_to_rounding [[1; 2; 3; 4]] 0).
  - discriminate.
  - repeat constructor.
Defined.

(** X17.  The same for the second notebook: the feedback law returns 0
    at [xsp], and the Hamiltonian dynamics function under that law
    returns there a rate of the pendulum momentum that is negative and
    above [-1e-14], the other three rates being zero. *)
Theorem hamiltonian_set_point_at_rest_up_to_rounding
    (K_np : list (list R)) (t : R) :
  K_np <> [] -> Forall (fun row => length row = 4%nat) K_np ->
  HamiltonianControl.control_law K_np HamiltonianControl.xsp = Some 0
  /\ exists f,
       Hamiltonian.get_PendulumCartRates_Hamiltonian HamiltonianControl.xsp t
         (HamiltonianControl.control_law K_np) 1 1 1 (-10)
       = Some [0; 0; 0; f]
       /\ - / 10 ^ 14 < f < 0.
Proof.
  intros Hne Hall.
  assert (Hu : HamiltonianControl.control_law K_np HamiltonianControl.xsp
               = Some 0)
    by exact (control_law_at_set_point K_np Hne Hall).
  split; [exact Hu|].
  exists (Hamiltonian.force_pend 0 np_pi 0 1 1 1 (-10)).
  pose proof np_pi_trig as [[Hs0 Hs1] _].
  split.
  - cbv [Hamiltonian.get_PendulumCartRates_Hamiltonian bind ret Monad_option].
    rewrite Hu.
    change (Some (Hamiltonian.get_PendulumCartRates_Hamiltonian (M := Id)
                    (0, 0, np_pi, 0) t (fun _ => 0) 1 1 1 (-10))
            = Some [0; 0; 0; Hamiltonian.force_pend 0 np_pi 0 1 1 1 (-10)]).
    rewrite rates_H_closed; try lra.
    + unfold Hamiltonian.vel_cart, Hamiltonian.vel_pend.
      apply (f_equal Some). apply list4_eq; try reflexivity; try ring.
      * unfold Rdiv. ring.
      * unfold Rdiv. ring.
    + pose proof (Rle_0_sqr (sin np_pi)) as Hq. unfold Rsqr in Hq. lra.
  - unfold Hamiltonian.force_pend. cbv zeta.
    set (s := sin np_pi) in *. set (c := cos np_pi).
    replace (1 * -10 * 1 * s
             - (1 * s * 0 * 0 * (1 + 1 * (s * s))
                - s * c * (1 * (1 * 1) * (0 * 0) - 2 * 1 * 1 * c * 0 * 0
                           + (1 + 1) * (0 * 0)))
               / (1 * 1 * ((1 + 1 * (s * s)) * (1 + 1 * (s * s)))))
      with (- (10 * s)) by (unfold Rdiv; ring).
    pose proof small_margin as [He0 He1].
    assert (E : / 10 ^ 14 = 1000 / 10 ^ 17).
    { replace (10 ^ 17) with (10 ^ 14 * 1000) by (simpl; ring).
      field; apply pow_nonzero; lra. }
    rewrite E. unfold Rdiv in *.
    assert (Hq : 0 < / 10 ^ 17) by (apply Rinv_0_lt_compat, pow_lt; lra).
    set (q := / 10 ^ 17) in *. lra.
Qed.

Lemma hamiltonian_set_point_at_rest_up_to_rounding_witness :
  HamiltonianControl.control_law [[1; 2; 3; 4]] HamiltonianControl.xsp
  = Some 0
  /\ exists f,
       Hamiltonian.get_PendulumCartRates_Hamiltonian HamiltonianControl.xsp 0
         (HamiltonianControl.control_law [[1; 2; 3; 4]]) 1 1 1 (-10)
       = Some [0; 0; 0; f]
       /\ - / 10 ^ 14 < f < 0.
Proof.
  apply (hamiltonian_set_point_at_rest_up_to_rounding [[1; 2; 3; 4]] 0).
  - discriminate.
  - repeat constructor.
Defined.

(** X18.  For positive masses and rod length and gravity of the
    notebook's sign the matrix [A_sp] of the linearisation has the real
    eigenvalue [sqrt (- (m1 + m2) g / (m1 l))], which is positive: the
    upright rest is unstable without control. *)
Theorem upright_linearisation_unstable (m1 m2 l g : R) :
  0 < m1 -> 0 < m2 -> 0 < l -> g < 0 ->
  let a := sqrt (- ((m1 + m2) * g) / (m1 * l)) in
  0 < a
  /\ eigenvalue (A_matrix m1 m2 l g) a 0
  /\ ~ hurwitz (A_matrix m1 m2 l g).
Proof.
  intros Hm1 Hm2 Hl Hg a.
  assert (Hpos : 0 < - ((m1 + m2) * g) / (m1 * l)).
  { apply Rdiv_lt_0_compat; nra. }
  assert (Ha : 0 < a) by (apply sqrt_lt_R0; exact Hpos).
  assert (Haa : a * a = - ((m1 + m2) * g) / (m1 * l))
    by (apply sqrt_sqrt; lra).
  assert (E : eigenvalue (A_matrix m1 m2 l g) a 0).
  { rewrite A_matrix_value by lra.
    exists [m2 * l / (m1 + m2); m2 * l / (m1 + m2) * a; 1; a], [0; 0; 0; 0].
    split; [reflexivity|]. split; [reflexivity|]. split.
    - left. exists 2%nat. cbn. lra.
    - split; matrix_entries; apply HamiltonianFacts.list4_eq;
        try ring.
      + transitivity (m2 * l / (m1 + m2) * (a * a)); [|ring].
        rewrite Haa. field. lra.
      + transitivity (a * a); [|ring]. rewrite Haa. field. lra. }
  split; [exact Ha|]. split; [exact E|].
  intros Hh. apply Hh in E. lra.
Qed.

Lemma upright_linearisation_unstable_witness :
  0 < sqrt (- ((1 + 1) * -10) / (1 * 1))
  /\ eigenvalue (A_matrix 1 1 1 (-10)) (sqrt (- ((1 + 1) * -10) / (1 * 1))) 0
  /\ ~ hurwitz (A_matrix 1 1 1 (-10)).
Proof. apply (upright_linearisation_unstable 1 1 1 (-10)); lra. Defined.

(** X19.  For positive masses and rod length the pair [(A_sp, B_sp)] of
    the linearisation is controllable exactly when gravity is not
    zero. *)
Theorem upright_linearisation_controllable (m1 m2 l g : R) :
  0 < m1 -> 0 < m2 -> 0 < l ->
  controllable (A_matrix m1 m2 l g) (B_matrix m1 m2 l g) <-> g <> 0.
Proof.
  intros Hm1 Hm2 Hl.
  rewrite A_matrix_value, B_matrix_value by lra.
  split.
  - intros Hc ->.
    assert (Hw : Forall (fun z => z = 0) [1; 0; - l; 0]).
    { apply Hc; [reflexivity|].
      intros j Hj. change (n_rows _) with 4%nat in Hj.
      destruct j as [|[|[|[|j]]]]; try lia;
        cbv [dot krylov Nat.iter nat_rect mulvec sigma map seq nth
             fold_right length combine fst snd];
        field; lra. }
    inversion_clear Hw as [|? ? H1 _]. lra.
  - intros Hg w Hw Horth.
    change (n_rows _) with 4%nat in Hw, Horth.
    destruct (length4_inv w Hw) as (w1 & w2 & w3 & w4 & ->).
    pose proof (Horth 0%nat ltac:(lia)) as H0.
    pose proof (Horth 1%nat ltac:(lia)) as H1.
    pose proof (Horth 2%nat ltac:(lia)) as H2.
    pose proof (Horth 3%nat ltac:(lia)) as H3.
    clear Horth Hw.
    cbv [dot krylov Nat.iter nat_rect mulvec sigma map seq nth fold_right
         length combine fst snd] in H0, H1, H2, H3.
    assert (Im : m1 * / m1 = 1) by (field; lra).
    assert (Il : l * / l = 1) by (field; lra).
    assert (Ig : g * / g = 1) by (field; lra).
    unfold Rdiv in *. rewrite ?Rinv_mult in *.
    revert H0 H1 H2 H3 Im Il Ig.
    generalize (/ m1) (/ l) (/ g). intros im il ig H0 H1 H2 H3 Im Il Ig.
    repeat constructor; nsatz.
Qed.

Lemma upright_linearisation_controllable_witness :
  controllable (A_matrix 1 1 1 (-10)) (B_matrix 1 1 1 (-10)) <-> -10 <> 0.
Proof. apply (upright_linearisation_controllable 1 1 1 (-10)); lra. Defined.

(** X20.  For the pair [(A_np, B_np)] of the second notebook and its
    weights: every gain [K = R^-1 B^T P] from a symmetric
    positive-semidefinite [P] that meets the Riccati equation, exactly or
    with every entry of the residual below a quarter, makes every
    eigenvalue of [A_np - B_np K] have strictly negative real part. *)
Theorem hamiltonian_lqr_gain_stabilises (tol : R) (K P : matrix) :
  4 * tol < 1 ->
  lqr_contract Hamiltonian.A_np Hamiltonian.B_np HamiltonianControl.Q_cost
    HamiltonianControl.R_cost tol K P ->
  hurwitz (closed_loop Hamiltonian.A_np Hamiltonian.B_np K).
Proof.
  intros Htol Hc.
  apply (contract_gain_stabilises Hamiltonian.A_np Hamiltonian.B_np
           HamiltonianControl.R_cost tol K P);
    try assumption; rewrite ?A_np_value_H, ?B_np_value_H.
  - split; [reflexivity|repeat constructor].
  - reflexivity.
  - repeat constructor.
  - rewrite R_cost_H_value. lra.
Qed.

Lemma hamiltonian_lqr_gain_stabilises_witness :
  hurwitz (closed_loop Hamiltonian.A_np Hamiltonian.B_np
             HamiltonianControl.K_rational_H).
Proof.
  apply (hamiltonian_lqr_gain_stabilises (1 / 1000)
           HamiltonianControl.K_rational_H HamiltonianControl.P_rational_H);
    [lra | exact rational_certificate_H].
Defined.

(** X21.  The animation of a run of [n] samples has [ceil (n / 50)]
    frames; no frame raises, and frame [k] draws the cart where sample
    [50 k] has it. *)
Theorem animation_frames {T} `{Scalar T} (result : list (State T))
    (ts : list Q) (k : nat) :
  let frames := animte_CartPend_1 result ts in
  length frames = ((length result + 49) / 50)%nat
  /\ ((k < length frames)%nat ->
      exists X fr,
        nth_error result (k * 50) = Some X
        /\ nth_error frames k = Some (Some fr)
        /\ cart_data fr = ([getitem 0 X], [s_of_Z 0])
        /\ hd_error (fst (pend_data fr)) = Some (getitem 0 X)).
Proof.
  cbv zeta. unfold animte_CartPend_1, play.
  rewrite length_map, length_seq. unfold res_plot.
  rewrite slice_step_length by lia. split; [reflexivity|].
  intros Hk.
  assert (Hlen : (k * 50 < length result)%nat).
  { pose proof (Nat.div_mod_eq (length result + 49) 50) as E.
    pose proof (Nat.mod_upper_bound (length result + 49) 50) as B.
    cbn [Nat.sub] in Hk. lia. }
  destruct (nth_error result (k * 50)) as [X|] eqn:EX;
    [|apply nth_error_None in EX; lia].
  assert (Erow : nth_error (slice_step 50 result) k = Some X).
  { rewrite (nth_error_some_nth _ _ X)
      by (rewrite slice_step_length by lia; exact Hk).
    rewrite slice_step_nth by lia.
    rewrite (nth_error_some_nth _ _ X) in EX by exact Hlen. exact EX. }
  destruct X as [[[x_cart v] th_pend] w].
  eexists _, _. split; [reflexivity|].
  rewrite nth_error_map, nth_error_seq.
  match goal with
  | |- context [Nat.ltb k ?n] =>
      replace (Nat.ltb k n) with true
        by (symmetry; apply Nat.ltb_lt; exact Hk)
  end.
  cbn [option_map Nat.add].
  unfold animate_1, animate_with. rewrite Erow.
  cbn [map Lagrangian.pendulum_pos].
  repeat split.
Qed.

Lemma animation_frames_witness :
  exists X fr,
    nth_error [(0, 0, 0, 0) : State R] (0 * 50) = Some X
    /\ nth_error (animte_CartPend_1 [(0, 0, 0, 0) : State R] []) 0
       = Some (Some fr)
    /\ cart_data fr = ([getitem 0 X], [s_of_Z 0])
    /\ hd_error (fst (pend_data fr)) = Some (getitem 0 X).
Proof.
  destruct (animation_frames (T := R) [(0, 0, 0, 0)] [] 0) as [Hlen Hk].
  apply Hk. rewrite Hlen. cbn. lia.
Defined.

(** X22.  Entry [k] of [ts_plot], the times selected alongside the
    frames, is [t0 + 50 k dt]; for the time step of a millisecond that
    the notebooks use this is [k] times the interval of 50 milliseconds
    between frames, so that the animation plays in real time. *)
Theorem frame_times (t0 tn dt : Q) (k : nat) :
  (k < length (ts_plot (arange t0 tn dt)))%nat ->
  (nth k (ts_plot (arange t0 tn dt)) 0
   == t0 + inject_Z (Z.of_nat k * 50) * dt)%Q
  /\ (dt == 1 # 1000 ->
      nth k (ts_plot (arange t0 tn dt)) 0
      == t0 + inject_Z (Z.of_nat k * interval) / 1000)%Q.
Proof.
  intros Hk. unfold ts_plot in *.
  rewrite slice_step_length in Hk by lia.
  assert (Hlen : (k * 50 < length (arange t0 tn dt))%nat).
  { pose proof (Nat.div_mod_eq (length (arange t0 tn dt) + 49) 50) as E.
    pose proof (Nat.mod_upper_bound (length (arange t0 tn dt) + 49) 50) as B.
    cbn [Nat.sub] in Hk. lia. }
  rewrite slice_step_nth by lia. rewrite arange_nth by exact Hlen.
  rewrite Nat2Z.inj_mul. change (Z.of_nat 50) with 50%Z.
  split; [reflexivity|].
  intros ->. unfold interval. rewrite inject_Z_mult. field.
Qed.

Lemma frame_times_witness :
  (nth 3 (ts_plot Lagrangian.ts) 0
   == 0 + inject_Z (Z.of_nat 3 * 50) * (1 # 1000))%Q
  /\ ((1 # 1000) == 1 # 1000 ->
      nth 3 (ts_plot Lagrangian.ts) 0
      == 0 + inject_Z (Z.of_nat 3 * interval) / 1000)%Q.
Proof.
  apply (frame_times 0 10 (1 # 1000) 3). vm_compute. lia.
Defined.

(** X23.  In each of the three notebooks [animate] raises exactly when
    the frame index is past the last row; otherwise it draws the cart
    at the first entry of the row and the pendulum at distance 1, the rod
    length of [param_vals], from it, at a height between -1 and 1, which
    is inside the vertical range [-1.1, 1.1] of the axes. *)
Theorem pendulum_drawn_at_rod_length (res : list (State R)) (iter : nat)
    (animate : list (State R) -> nat -> option (frame R)) :
  In animate [animate_1;
              animate_2 (Hamiltonian.x1_t, Hamiltonian.x2_t);
              animate_3] ->
  (animate res iter = None <-> (length res <= iter)%nat)
  /\ forall fr, animate res iter = Some fr ->
       exists x_cart x_pend y_pend,
         pend_data fr = ([x_cart; x_pend], [0; y_pend])
         /\ cart_data fr = ([x_cart], [0])
         /\ Some x_cart = option_map (getitem 0) (nth_error res iter)
         /\ (x_pend - x_cart) * (x_pend - x_cart) + y_pend * y_pend = 1
         /\ -1 <= y_pend <= 1.
Proof.
  intros Hin.
  assert (Hrod : forall s c : R, s * s + c * c = 1 -> -1 <= c <= 1).
  { intros s c E. pose proof (Rle_0_sqr s) as Hs. unfold Rsqr in Hs.
    split; nra. }
  cbn [In] in Hin.
  destruct Hin as [<-|[<-|[<-|[]]]];
    unfold animate_1, animate_2, animate_3, animate_with;
    (destruct (nth_error res iter) as [[[[x_cart v] th] w]|] eqn:E;
     [|split; [split; [intros _; now apply nth_error_None
                      |reflexivity]
              |discriminate]]);
    (split;
     [split; [discriminate
             |intros Hlen; apply nth_error_None in Hlen; congruence]|]);
    intros fr [= <-]; cbn;
    pose proof (sin2_cos2 th) as Hsc; unfold Rsqr in Hsc;
    eexists _, _, _; repeat split; try (ring_simplify; nra);
    try (apply (Hrod (sin th)); nra).
Qed.

Lemma pendulum_drawn_at_rod_length_witness :
  (animate_1 [(0, 0, 0, 0) : State R] 0 = None <-> (1 <= 0)%nat)
  /\ forall fr, animate_1 [(0, 0, 0, 0) : State R] 0 = Some fr ->
       exists x_cart x_pend y_pend,
         pend_data fr = ([x_cart; x_pend], [0; y_pend])
         /\ cart_data fr = ([x_cart], [0])
         /\ Some x_cart
            = option_map (getitem 0) (nth_error [(0, 0, 0, 0) : State R] 0)
         /\ (x_pend - x_cart) * (x_pend - x_cart) + y_pend * y_pend = 1
         /\ -1 <= y_pend <= 1.
Proof.
  apply (pendulum_drawn_at_rod_length [(0, 0, 0, 0)] 0 animate_1).
  left. reflexivity.
Defined.

(** X24.  The figure size of the third notebook: it raises exactly when
    a range has fewer than two entries or the vertical range has height
    zero; otherwise the height is [scale] and width to height is as the
    horizontal range to the vertical one. *)
Theorem figsize_edge_cases (x_range y_range : list Q) (scale : Q) :
  (figsize x_range y_range scale = None
   <-> (length x_range < 2)%nat \/ (length y_range < 2)%nat
       \/ (nth 1 y_range 0 == nth 0 y_range 0)%Q)
  /\ forall w h, figsize x_range y_range scale = Some (w, h) ->
       h = scale
       /\ (w * (nth 1 y_range 0 - nth 0 y_range 0)
           == h * (nth 1 x_range 0 - nth 0 x_range 0))%Q.
Proof.
  unfold figsize, aspect, delta. cbv [bind ret Monad_option].
  destruct x_range as [|a [|b xs]];
    [split; [split; [intros _; left; cbn; lia|reflexivity]|discriminate]..|].
  destruct y_range as [|c [|d ys]];
    [split; [split; [intros _; right; left; cbn; lia|reflexivity]
            |discriminate]..|].
  cbn [nth length].
  destruct (Qeq_bool (d - c) 0) eqn:E.
  - apply Qeq_bool_iff in E. split; [|discriminate].
    split; [intros _|reflexivity].
    right. right. lra.
  - apply Qeq_bool_neq in E. split.
    + split; [discriminate|].
      intros [Hx|[Hy|Hz]]; [lia|lia|].
      exfalso. apply E. lra.
    + intros w h [= <- <-]. split; [reflexivity|]. field. exact E.
Qed.
